(** * Salesforce formula tokenizer, classifier, error detector and
      pretty-printer ([docs/script/cfg-sfdc-tokens.js])

    A shallow embedding of the formula-highlighting core and the
    properties of it that the specification states.

    JavaScript strings are sequences of UTF-16 code units; they are
    modelled as lists of code units ([N]).  Token offsets and error
    positions are JavaScript numbers that only ever hold integers here;
    they are modelled in [Z] so that [end - 1] and [length - 1] keep
    their meaning at zero. *)

From Stdlib Require Import Ascii String DecimalString.
From Stdlib Require Import List Bool Arith ZArith NArith Lia.
Import ListNotations.


(** ** Strings *)

Definition jsstring := list N.

Definition ch (a : ascii) : N := N_of_ascii a.

Definition js (s : string) : jsstring := map ch (list_ascii_of_string s).

(** The double quote (U+0022) and the backslash (U+005C). *)
Definition dquote : N := 34%N.
Definition squote : N := 39%N.
Definition backslash : N := 92%N.

Fixpoint jseq (a b : jsstring) : bool :=
  match a, b with
  | [], [] => true
  | x :: a', y :: b' => N.eqb x y && jseq a' b'
  | _, _ => false
  end.

(** [a.includes(x)] on an array of strings. *)
Definition includes (l : list jsstring) (x : jsstring) : bool :=
  existsb (jseq x) l.

(** [s.includes(c)] for a one-character needle. *)
Definition includesChar (s : jsstring) (c : N) : bool := existsb (N.eqb c) s.

Definition inRange (lo hi c : N) : bool := (N.leb lo c && N.leb c hi)%bool.

(** [/\s/]: the ECMAScript WhiteSpace and LineTerminator code units.
    [String.prototype.trim] strips exactly the same set. *)
Definition isSpace (c : N) : bool :=
  (inRange 9 13 c || N.eqb c 32 || N.eqb c 160 || N.eqb c 5760
   || inRange 8192 8202 c || N.eqb c 8232 || N.eqb c 8233
   || N.eqb c 8239 || N.eqb c 8287 || N.eqb c 12288 || N.eqb c 65279)%bool.

(** [[ \t]] *)
Definition isHSpace (c : N) : bool := (N.eqb c 32 || N.eqb c 9)%bool.

(** [/\d/] *)
Definition isDigit (c : N) : bool := inRange 48 57 c.

(** [[A-Z]] and [[a-z]] *)
Definition isUpper (c : N) : bool := inRange 65 90 c.
Definition isLower (c : N) : bool := inRange 97 122 c.

(** [[a-zA-Z_]] and [[a-zA-Z0-9_]] (also the regex word characters of
    [\b] when the [u] flag is absent). *)
Definition isIdentStart (c : N) : bool :=
  (isLower c || isUpper c || N.eqb c 95)%bool.
Definition isIdentPart (c : N) : bool :=
  (isLower c || isUpper c || isDigit c || N.eqb c 95)%bool.

Fixpoint takeWhile (p : N -> bool) (s : jsstring) : jsstring :=
  match s with
  | c :: s' => if p c then c :: takeWhile p s' else []
  | [] => []
  end.

Fixpoint dropWhile (p : N -> bool) (s : jsstring) : jsstring :=
  match s with
  | c :: s' => if p c then dropWhile p s' else s
  | [] => []
  end.

(** [s.trim()] *)
Definition trim (s : jsstring) : jsstring :=
  rev (dropWhile isSpace (rev (dropWhile isSpace s))).

(** [toUpperCase] on a code unit of the ASCII range. *)
Definition asciiUpper (c : N) : N := if isLower c then (c - 32)%N else c.

Definition isAscii (s : jsstring) : bool := forallb (fun c => N.ltb c 128) s.

(** [s.toUpperCase()] for a string of ASCII code units. *)
Definition asciiToUpperCase (s : jsstring) : jsstring := map asciiUpper s.

(** [s.toUpperCase()].  On strings that hold a code unit outside ASCII
    the result is given by the Unicode case-mapping tables of the
    JavaScript engine, which are not part of the repository: they are
    the parameter [U]. *)
Definition toUpperCase (U : jsstring -> jsstring) (s : jsstring) : jsstring :=
  if isAscii s then asciiToUpperCase s else U s.

(** ** Token types, keyword and operator tables *)

Inductive TokenKind :=
| FUNCTION | FIELD | NESTED_FIELD | CUSTOM_FUNCTION | FORMULA_FIELD
| OPERATOR | STRING | NUMBER | CONSTANT | PARENTHESIS | BRACKET | COMMA
| WHITESPACE | IDENTIFIER | COMMENT | ERROR | DOT.

Definition kind_eqb (a b : TokenKind) : bool :=
  match a, b with
  | FUNCTION, FUNCTION | FIELD, FIELD | NESTED_FIELD, NESTED_FIELD
  | CUSTOM_FUNCTION, CUSTOM_FUNCTION | FORMULA_FIELD, FORMULA_FIELD
  | OPERATOR, OPERATOR | STRING, STRING | NUMBER, NUMBER
  | CONSTANT, CONSTANT | PARENTHESIS, PARENTHESIS | BRACKET, BRACKET
  | COMMA, COMMA | WHITESPACE, WHITESPACE | IDENTIFIER, IDENTIFIER
  | COMMENT, COMMENT | ERROR, ERROR | DOT, DOT => true
  | _, _ => false
  end.

Module SF_KEYWORDS.
Definition logical : list jsstring :=
  map js ["AND"; "OR"; "NOT"; "IF"; "CASE"; "SWITCH"; "XOR"; "NAND"; "NOR"]%string.

Definition text : list jsstring :=
  map js ["TEXT"; "LEFT"; "RIGHT"; "MID"; "LEN"; "FIND"; "SUBSTITUTE";
          "TRIM"; "UPPER"; "LOWER"; "PROPER"; "BR"; "HYPERLINK"; "IMAGE";
          "VALUE"; "CONTAINS"; "BEGINS"; "CONTAINS"; "INCLUDES";
          "EXCLUDES"; "REGEX"; "REGEX_REPLACE"; "SPLIT"; "JOIN";
          "REPLACE"; "SUBSTITUTE"; "REPT"; "CLEAN"; "CODE"; "CHAR";
          "UNICHAR"; "UNICODE"]%string.

Definition math : list jsstring :=
  map js ["ABS"; "CEILING"; "FLOOR"; "ROUND"; "MOD"; "MAX"; "MIN"; "SQRT";
          "EXP"; "LN"; "LOG"; "POWER"; "RAND"; "SIN"; "COS"; "TAN";
          "ASIN"; "ACOS"; "ATAN"; "PI"; "DEGREES"; "RADIANS"; "SIGN";
          "FACT"; "GCD"; "LCM"]%string.

Definition datetime : list jsstring :=
  map js ["TODAY"; "NOW"; "DATE"; "DATETIMEVALUE"; "DATEVALUE"; "YEAR";
          "MONTH"; "DAY"; "HOUR"; "MINUTE"; "SECOND"; "WEEKDAY";
          "ADDMONTHS"; "MONTHS_BETWEEN"; "DAYS_BETWEEN"; "HOURS_BETWEEN";
          "MINUTES_BETWEEN"; "SECONDS_BETWEEN"; "DATEADD"; "DATEDIFF";
          "DATETIME_FORMAT"; "TIMEVALUE"; "TIMENOW"; "TIMETONUM";
          "NUMTOTIME"; "CALENDAR_MONTH"; "CALENDAR_QUARTER";
          "CALENDAR_YEAR"; "FISCAL_MONTH"; "FISCAL_QUARTER";
          "FISCAL_YEAR"]%string.

Definition conversion : list jsstring :=
  map js ["VALUE"; "TEXT"; "BLANKVALUE"; "NULLVALUE"; "CURRENCY"; "NUMBER";
          "DOUBLE"; "INT"; "LONG"; "ISNULL"; "ISBLANK"; "ISNUMBER";
          "ISTEXT"; "ISDATE"; "ISCHANGED"; "PRIORVALUE"; "ISNEW";
          "ISPICKVAL"]%string.

Definition advanced : list jsstring :=
  map js ["CASE"; "SWITCH"; "CHOOSE"; "COALESCE"; "IFNULL"; "NVL";
          "DECODE"; "GREATEST"; "LEAST"; "RANK"; "DENSE_RANK";
          "ROW_NUMBER"; "LAG"; "LEAD"; "FIRST_VALUE"; "LAST_VALUE"]%string.

Definition constants : list jsstring :=
  map js ["TRUE"; "FALSE"; "NULL"; "BLANK"; "EMPTY"]%string.
End SF_KEYWORDS.

(** Multi-character operators come before the single-character ones. *)
Definition OPERATORS : list jsstring :=
  map js ["<="; ">="; "<>"; "=="; "&&"; "||"; "="; "<"; ">"; "+"; "-"; "*";
          "/"; "&"]%string.

(** ** JavaScript values reaching the [formula] parameter *)

Inductive JSValue :=
| VUndefined
| VNull
| VBoolean (b : bool)
| VNumber (n : Z)
| VString (s : jsstring)
| VObject.

(** [!formula || typeof formula !== "string"] is false exactly on a
    non-empty string; [usable] returns that string. *)
Definition usable (formula : JSValue) : option jsstring :=
  match formula with
  | VString [] => None
  | VString s => Some s
  | _ => None
  end.

(** ** Pretty-printer *)

(** [s.replace(re, ...)] with a global regular expression.  [matchAt prev
    rest] says whether [re] matches at the position whose preceding code
    unit is [prev] and whose remaining input is [rest], and if so gives
    the length of the match and the text that replaces it.  The scan goes
    left to right; [skip] counts the code units of the current match that
    are still to be dropped.  After an empty match the scan moves on by
    one code unit, which is copied. *)
Section Replace.
Variable matchAt : option N -> jsstring -> option (nat * jsstring).

Fixpoint replaceFrom (skip : nat) (prev : option N) (s : jsstring) : jsstring :=
  match s with
  | [] =>
      match skip with
      | O => match matchAt prev [] with Some (_, r) => r | None => [] end
      | S _ => []
      end
  | c :: s' =>
      match skip with
      | S k => replaceFrom k (Some c) s'
      | O =>
          match matchAt prev s with
          | Some (S n, r) => r ++ replaceFrom n (Some c) s'
          | Some (O, r) => r ++ c :: replaceFrom O (Some c) s'
          | None => c :: replaceFrom O (Some c) s'
          end
      end
  end.

Definition replaceAll (s : jsstring) : jsstring := replaceFrom O None s.
End Replace.

Fixpoint startsWith (lit s : jsstring) : bool :=
  match lit, s with
  | [], _ => true
  | x :: lit', y :: s' => N.eqb x y && startsWith lit' s'
  | _ :: _, [] => false
  end.

(** A literal pattern such as [/<=/g]. *)
Definition reLiteral (lit repl : jsstring) : option N -> jsstring -> option (nat * jsstring) :=
  fun _ rest => if startsWith lit rest then Some (length lit, repl) else None.

Definition hspaces (s : jsstring) : nat := length (takeWhile isHSpace s).

(** [/[ \t]*c[ \t]*/g] for a code unit [c] accepted by [p], replaced by
    [repl c].  The greedy [[ \t]*] cannot give anything back to a
    successful match, because what follows it is never a space or tab. *)
Definition reAround (p : N -> bool) (repl : N -> jsstring)
  : option N -> jsstring -> option (nat * jsstring) :=
  fun _ rest =>
    let n1 := hspaces rest in
    match skipn n1 rest with
    | c :: r => if p c then Some (n1 + 1 + hspaces r, repl c) else None
    | [] => None
    end.

(** [/[ \t]+/g] *)
Definition reHSpaces (repl : jsstring) : option N -> jsstring -> option (nat * jsstring) :=
  fun _ rest =>
    match hspaces rest with
    | O => None
    | n => Some (n, repl)
    end.

(** [/a[ \t]*b/g] *)
Definition reSplit (a b : N) (repl : jsstring) : option N -> jsstring -> option (nat * jsstring) :=
  fun _ rest =>
    match rest with
    | c :: r =>
        if N.eqb c a then
          let n := hspaces r in
          match skipn n r with
          | d :: _ => if N.eqb d b then Some (1 + n + 1, repl) else None
          | [] => None
          end
        else None
    | [] => None
    end.

Definition isWordChar (c : option N) : bool :=
  match c with
  | Some c => isIdentPart c
  | None => false
  end.

(** [\b] between the code units [before] and [after]. *)
Definition wordBoundary (before after : option N) : bool :=
  xorb (isWordChar before) (isWordChar after).

(** Case-insensitive comparison of the input with an upper-case ASCII
    pattern: without the [u] flag a code unit outside ASCII never
    matches an ASCII one. *)
Fixpoint startsWithIgnoreCase (pat s : jsstring) : bool :=
  match pat, s with
  | [], _ => true
  | x :: pat', y :: s' => N.eqb x (asciiUpper y) && startsWithIgnoreCase pat' s'
  | _ :: _, [] => false
  end.

(** [new RegExp(`\\b${word}\\b`, "gi")], replaced by [repl]. *)
Definition reWord (word repl : jsstring) : option N -> jsstring -> option (nat * jsstring) :=
  fun prev rest =>
    let n := length word in
    if (wordBoundary prev (hd_error rest)
        && startsWithIgnoreCase word rest
        && wordBoundary (nth_error rest (n - 1)) (nth_error rest n))%bool
    then Some (n, repl) else None.

Definition eqc (a : ascii) (c : N) : bool := N.eqb c (ch a).

Definition multiCharOps : list (jsstring * jsstring) :=
  [ (js "<=", js "___LESS_EQUAL___");
    (js ">=", js "___GREATER_EQUAL___");
    (js "<>", js "___NOT_EQUAL___");
    (js "==", js "___EQUAL_EQUAL___");
    (js "&&", js "___AND___");
    (js "||", js "___OR___") ].

Definition spaced (s : string) : N -> jsstring := fun _ => js s.

Definition prettifyString (formula : jsstring) : jsstring :=
  let result := trim formula in
  (* Step 1: protect multi-character operators *)
  let result :=
    fold_left (fun r '(pattern, replacement) =>
                 replaceAll (reLiteral pattern replacement) r)
              multiCharOps result in
  (* Step 2: single-character operators *)
  let result := replaceAll (reAround (eqc "=") (spaced " = ")) result in
  let result := replaceAll (reAround (eqc ">") (spaced " > ")) result in
  let result := replaceAll (reAround (eqc "<") (spaced " < ")) result in
  let result := replaceAll (reAround (eqc "+") (spaced " + ")) result in
  let result := replaceAll (reAround (eqc "-") (spaced " - ")) result in
  let result := replaceAll (reAround (eqc "*") (spaced " * ")) result in
  let result := replaceAll (reAround (eqc "/") (spaced " / ")) result in
  (* Step 3: parentheses and commas, "$1 " *)
  let result :=
    replaceAll (reAround (fun c => eqc "(" c || eqc ")" c || eqc "," c)%bool
                         (fun c => [c; ch " "])) result in
  (* Step 4 *)
  let result := replaceAll (reHSpaces (js " ")) result in
  (* Step 5: restore, then repair split operators *)
  let result := replaceAll (reLiteral (js "___LESS_EQUAL___") (js " <= ")) result in
  let result := replaceAll (reLiteral (js "___GREATER_EQUAL___") (js " >= ")) result in
  let result := replaceAll (reLiteral (js "___NOT_EQUAL___") (js " <> ")) result in
  let result := replaceAll (reLiteral (js "___EQUAL_EQUAL___") (js " == ")) result in
  let result := replaceAll (reLiteral (js "___AND___") (js " && ")) result in
  let result := replaceAll (reLiteral (js "___OR___") (js " || ")) result in
  let result := replaceAll (reSplit (ch ">") (ch "=") (js " >= ")) result in
  let result := replaceAll (reSplit (ch "<") (ch "=") (js " <= ")) result in
  let result := replaceAll (reSplit (ch "<") (ch ">") (js " <> ")) result in
  let result := replaceAll (reSplit (ch "=") (ch "=") (js " == ")) result in
  let result := replaceAll (reSplit (ch "&") (ch "&") (js " && ")) result in
  let result := replaceAll (reSplit (ch "|") (ch "|") (js " || ")) result in
  (* Step 6 *)
  let result := trim (replaceAll (reHSpaces (js " ")) result) in
  (* Capitalize function names; the keyword tables are ASCII, where
     [func.toUpperCase()] is [asciiToUpperCase func]. *)
  let allFunctions :=
    SF_KEYWORDS.logical ++ SF_KEYWORDS.text ++ SF_KEYWORDS.math
    ++ SF_KEYWORDS.datetime ++ SF_KEYWORDS.conversion in
  let result :=
    fold_left (fun r func => replaceAll (reWord func (asciiToUpperCase func)) r)
              allFunctions result in
  (* Capitalize constants *)
  let result :=
    fold_left (fun r constant =>
                 replaceAll (reWord constant (asciiToUpperCase constant)) r)
              SF_KEYWORDS.constants result in
  (* Spacing around parentheses *)
  let result := replaceAll (reAround (eqc "(") (spaced " (")) result in
  let result := replaceAll (reAround (eqc ")") (spaced ") ")) result in
  let result := replaceAll (reHSpaces (js " ")) result in
  trim result.

Definition prettifySalesforceFormula (formula : JSValue) : JSValue :=
  match usable formula with
  | None => formula
  | Some s => VString (prettifyString s)
  end.

(** ** Tokenizer *)

Record Token := mkToken {
  type : TokenKind;
  value : jsstring;
  start : Z;
  end_ : Z
}.

(** [formula.substring(a, b)] for [a <= b <= formula.length]. *)
Definition substring (formula : jsstring) (a b : nat) : jsstring :=
  firstn (b - a) (skipn a formula).

(** [p < length && formula[p] === c] *)
Definition charIs (formula : jsstring) (p : nat) (c : N) : bool :=
  match nth_error formula p with
  | Some d => N.eqb d c
  | None => false
  end.

(** [while (p < length && /\s/.test(formula[p])) p++] *)
Definition skipSpaces (formula : jsstring) (p : nat) : nat :=
  p + length (takeWhile isSpace (skipn p formula)).

(** Body of a quoted string: the code units appended to [string] by the
    loop that runs until the closing quote [q] or the end of input; a
    backslash takes the next code unit with it when there is one. *)
Fixpoint scanStringBody (q : N) (rest : jsstring) : jsstring :=
  match rest with
  | [] => []
  | c :: r =>
      if N.eqb c q then []
      else if N.eqb c backslash then
        match r with
        | c2 :: r2 => c :: c2 :: scanStringBody q r2
        | [] => [c]
        end
      else c :: scanStringBody q r
  end.

(** Body of a block comment: everything before the first [*/]. *)
Fixpoint scanBlockComment (rest : jsstring) : jsstring :=
  match rest with
  | [] => []
  | c :: r =>
      if (N.eqb c (ch "*") && match r with d :: _ => N.eqb d (ch "/") | [] => false end)%bool
      then []
      else c :: scanBlockComment r
  end.

Definition bumpBracket (bracketCount : Z) (currentChar : N) : Z :=
  if N.eqb currentChar (ch "[") then (bracketCount + 1)%Z
  else if N.eqb currentChar (ch "]") then (bracketCount - 1)%Z
  else bracketCount.

(** The look-ahead extraction of one bracket-balanced field:
    [while (tempPosition < length && bracketCount >= 0) { ...;
     if (bracketCount === 0) break; }].  Returns the code units
    appended to the field. *)
Fixpoint extractField (bracketCount : Z) (rest : jsstring) : jsstring :=
  match rest with
  | [] => []
  | currentChar :: r =>
      if (0 <=? bracketCount)%Z then
        let bracketCount := bumpBracket bracketCount currentChar in
        currentChar :: (if (bracketCount =? 0)%Z then [] else extractField bracketCount r)
      else []
  end.

(** The scan of a regular field:
    [while (position < length && bracketCount > 0) { ... }]. *)
Fixpoint scanField (bracketCount : Z) (rest : jsstring) : jsstring :=
  match rest with
  | [] => []
  | currentChar :: r =>
      if (0 <? bracketCount)%Z then
        currentChar :: scanField (bumpBracket bracketCount currentChar) r
      else []
  end.

(** The loop that looks for more [.] [[field]] patterns.  Every turn that
    does not leave the loop moves [tempPosition] forward, so [fuel] equal
    to the length of the formula is never used up (lemma
    [extendNested_fuel]). *)
Fixpoint extendNested (fuel : nat) (formula : jsstring) (tempPosition : nat)
    (fullNestedField : jsstring) (isNestedPattern : bool)
  : nat * jsstring * bool :=
  match fuel with
  | O => (tempPosition, fullNestedField, isNestedPattern)
  | S fuel' =>
      if tempPosition <? length formula then
        let tempPosition := skipSpaces formula tempPosition in
        if charIs formula tempPosition (ch ".") then
          let tempPosition := tempPosition + 1 in
          let tempPosition := skipSpaces formula tempPosition in
          if charIs formula tempPosition (ch "[") then
            let nextField := extractField 0 (skipn tempPosition formula) in
            extendNested fuel' formula (tempPosition + length nextField)
                         (fullNestedField ++ js "." ++ nextField) true
          else (tempPosition, fullNestedField, isNestedPattern)
        else (tempPosition, fullNestedField, isNestedPattern)
      else (tempPosition, fullNestedField, isNestedPattern)
  end.

(** The first operator of the table that is a prefix of the input at
    [position]. *)
Definition findOperator (formula : jsstring) (position : nat) : option jsstring :=
  find (fun op =>
          (position + length op <=? length formula)
          && jseq (substring formula position (position + length op)) op)%bool
       OPERATORS.

Definition isFieldToken (t : Token) : bool :=
  (kind_eqb (type t) FIELD || kind_eqb (type t) NESTED_FIELD)%bool.

(** [tokens.push({type, value, start: position - value.length, end: position})] *)
Definition pushSpan (tokens : list Token) (k : TokenKind) (v : jsstring) (position : nat)
  : list Token :=
  tokens ++ [mkToken k v (Z.of_nat position - Z.of_nat (length v)) (Z.of_nat position)].

(** One turn of the main loop at [position < length], with
    [char = formula[position]]; returns the new [position] and [tokens]. *)
Definition scanToken (formula : jsstring) (position : nat) (tokens : list Token) (char : N)
  : nat * list Token :=
  let len := length formula in
  let rest := skipn position formula in
  if isSpace char then
    let whitespace := takeWhile isSpace rest in
    let position := position + length whitespace in
    (position, pushSpan tokens WHITESPACE whitespace position)
  else if (N.eqb char dquote || N.eqb char squote)%bool then
    let body := scanStringBody char (skipn (position + 1) formula) in
    let position := position + 1 + length body in
    if position <? len then
      let string := char :: body ++ [char] in
      let position := position + 1 in
      (position, pushSpan tokens STRING string position)
    else
      (position, pushSpan tokens STRING (char :: body) position)
  else if (N.eqb char (ch "/") && charIs formula (position + 1) (ch "*"))%bool then
    let body := scanBlockComment (skipn (position + 2) formula) in
    let position := position + 2 + length body in
    if position <? len then
      let comment := js "/*" ++ body ++ js "*/" in
      let position := position + 2 in
      (position, pushSpan tokens COMMENT comment position)
    else
      (position, pushSpan tokens COMMENT (js "/*" ++ body) position)
  else if (N.eqb char (ch "/") && charIs formula (position + 1) (ch "/"))%bool then
    let body :=
      takeWhile (fun c => negb (N.eqb c 10) && negb (N.eqb c 13))%bool
                (skipn (position + 2) formula) in
    let comment := js "//" ++ body in
    let position := position + 2 + length body in
    (position, pushSpan tokens COMMENT comment position)
  else
  match findOperator formula position with
  | Some op =>
      (position + length op,
       tokens ++ [mkToken OPERATOR op (Z.of_nat position) (Z.of_nat (position + length op))])
  | None =>
  if N.eqb char (ch "[") then
    let originalPosition := position in
    let firstField := extractField 0 rest in
    let tempPosition := position + length firstField in
    let '(tempPosition, fullNestedField, isNestedPattern) :=
      extendNested len formula tempPosition firstField false in
    if isNestedPattern then
      (tempPosition,
       tokens ++ [mkToken NESTED_FIELD fullNestedField
                          (Z.of_nat originalPosition) (Z.of_nat tempPosition)])
    else
      let field := ch "[" :: scanField 1 (skipn (position + 1) formula) in
      let position := position + length field in
      let fieldType := if includesChar field (ch ".") then NESTED_FIELD else FIELD in
      (position, pushSpan tokens fieldType field position)
  else if (N.eqb char (ch "(") || N.eqb char (ch ")"))%bool then
    (position + 1,
     tokens ++ [mkToken PARENTHESIS [char] (Z.of_nat position) (Z.of_nat (position + 1))])
  else if N.eqb char (ch ",") then
    (position + 1,
     tokens ++ [mkToken COMMA [char] (Z.of_nat position) (Z.of_nat (position + 1))])
  else if isDigit char then
    let number := takeWhile (fun c => isDigit c || N.eqb c (ch "."))%bool rest in
    let position := position + length number in
    (position, pushSpan tokens NUMBER number position)
  else if N.eqb char (ch ".") then
    let isPartOfNestedField :=
      match last (map Some tokens) None with
      | Some lastToken =>
          (isFieldToken lastToken
           && charIs formula (skipSpaces formula (position + 1)) (ch "["))%bool
      | None => false
      end in
    (position + 1,
     if isPartOfNestedField then tokens
     else tokens ++ [mkToken DOT [char] (Z.of_nat position) (Z.of_nat (position + 1))])
  else if isIdentStart char then
    let identifier := takeWhile isIdentPart rest in
    let position := position + length identifier in
    (position, pushSpan tokens IDENTIFIER identifier position)
  else
    (position + 1,
     tokens ++ [mkToken IDENTIFIER [char] (Z.of_nat position) (Z.of_nat (position + 1))])
  end.

(** [while (position < length) { ... }]; [None] when [fuel] turns of the
    loop were not enough to reach the end of the input. *)
Fixpoint tokenizeLoop (fuel : nat) (formula : jsstring) (position : nat) (tokens : list Token)
  : option (list Token) :=
  match nth_error formula position with
  | None => Some tokens
  | Some char =>
      match fuel with
      | O => None
      | S fuel' =>
          let '(position, tokens) := scanToken formula position tokens char in
          tokenizeLoop fuel' formula position tokens
      end
  end.

(** The loop on a non-empty string.  One turn per code unit is enough
    (theorem [tokenize_terminates]). *)
Definition tokenizeString (formula : jsstring) : option (list Token) :=
  tokenizeLoop (length formula) formula 0 [].

Definition tokenizeFormula (formula : JSValue) : list Token :=
  match usable formula with
  | None => []
  | Some s =>
      match tokenizeString s with
      | Some tokens => tokens
      | None => []
      end
  end.


(** ** Classifier *)

Definition allFunctions : list jsstring :=
  SF_KEYWORDS.logical ++ SF_KEYWORDS.text ++ SF_KEYWORDS.math
  ++ SF_KEYWORDS.datetime ++ SF_KEYWORDS.conversion ++ SF_KEYWORDS.advanced.

(** [tokens.map((token, index) => f(token, index))] *)
Fixpoint mapFrom {A B : Type} (f : A -> nat -> B) (index : nat) (l : list A) : list B :=
  match l with
  | [] => []
  | x :: l' => f x index :: mapFrom f (S index) l'
  end.

Definition mapIndexed {A B : Type} (f : A -> nat -> B) (l : list A) : list B :=
  mapFrom f 0 l.

Definition isOpenParen (t : Token) : bool :=
  (kind_eqb (type t) PARENTHESIS && jseq (value t) (js "("))%bool.

(** The look-ahead loop over [tokens[index + 1 ..]]: whitespace tokens are
    skipped, the first other token decides. *)
Fixpoint followedByParen (rest : list Token) : bool :=
  match rest with
  | [] => false
  | t :: rest' =>
      if kind_eqb (type t) WHITESPACE then followedByParen rest'
      else isOpenParen t
  end.

(** [/^[a-z]/] and [/^[A-Z]/] *)
Definition startsLower (s : jsstring) : bool :=
  match s with c :: _ => isLower c | [] => false end.
Definition startsUpper (s : jsstring) : bool :=
  match s with c :: _ => isUpper c | [] => false end.

(** [/^[A-Z][a-zA-Z0-9_]*$/] *)
Definition looksLikeFieldName (s : jsstring) : bool :=
  match s with
  | c :: s' => (isUpper c && forallb isIdentPart s')%bool
  | [] => false
  end.

Definition setType (token : Token) (k : TokenKind) : Token :=
  mkToken k (value token) (start token) (end_ token).

Definition setTypeValue (token : Token) (k : TokenKind) (v : jsstring) : Token :=
  mkToken k v (start token) (end_ token).

Section Classifier.
Variable U : jsstring -> jsstring.

Definition classifyToken (tokens : list Token) (token : Token) (index : nat) : Token :=
  if kind_eqb (type token) IDENTIFIER then
    let upperValue := toUpperCase U (value token) in
    if includes allFunctions upperValue then
      setTypeValue token FUNCTION upperValue
    else if includes SF_KEYWORDS.constants upperValue then
      setTypeValue token CONSTANT upperValue
    else if (startsLower (value token)
             && followedByParen (skipn (index + 1) tokens))%bool then
      setType token CUSTOM_FUNCTION
    else if (includesChar (value token) (ch "_")
             && looksLikeFieldName (value token))%bool then
      setType token FORMULA_FIELD
    else token
  else token.

Definition classifyTokens (tokens : list Token) : list Token :=
  mapIndexed (classifyToken tokens) tokens.
End Classifier.

(** ** Error detector and error marker *)

Inductive ErrorKind := syntax | function.

Record FormulaError := mkError {
  err_position : Z;
  err_message : jsstring;
  err_type : ErrorKind
}.

(** The decimal text of an integer, as a template literal prints it. *)
Definition numberToString (n : Z) : jsstring :=
  js (NilZero.string_of_int (Z.to_int n)).

Record DetectState := mkDetect {
  openParens : Z;
  openBrackets : Z;
  errors : list FormulaError
}.

Section Detector.
Variable U : jsstring -> jsstring.

(** The body of [for (let i = 0; i < tokens.length; i++)]. *)
Definition detectStep (tokens : list Token) (st : DetectState) (i : nat) (token : Token)
  : DetectState :=
  (* parentheses *)
  let st :=
    if kind_eqb (type token) PARENTHESIS then
      if jseq (value token) (js "(") then
        mkDetect (openParens st + 1) (openBrackets st) (errors st)
      else if jseq (value token) (js ")") then
        let openParens := (openParens st - 1)%Z in
        mkDetect openParens (openBrackets st)
          (if (openParens <? 0)%Z
           then errors st ++ [mkError (start token) (js "Unmatched closing parenthesis") syntax]
           else errors st)
      else st
    else st in
  (* brackets *)
  let st :=
    if kind_eqb (type token) BRACKET then
      if jseq (value token) (js "[") then
        mkDetect (openParens st) (openBrackets st + 1) (errors st)
      else if jseq (value token) (js "]") then
        let openBrackets := (openBrackets st - 1)%Z in
        mkDetect (openParens st) openBrackets
          (if (openBrackets <? 0)%Z
           then errors st ++ [mkError (start token) (js "Unmatched closing bracket") syntax]
           else errors st)
      else st
    else st in
  (* invalid functions *)
  if kind_eqb (type token) IDENTIFIER then
    let upperValue := toUpperCase U (value token) in
    let isFunctionCall := followedByParen (skipn (i + 1) tokens) in
    if (isFunctionCall && negb (includes allFunctions upperValue)
        && startsUpper (value token))%bool
    then mkDetect (openParens st) (openBrackets st)
           (errors st ++ [mkError (start token)
                                  (js "Invalid function: " ++ value token) function])
    else st
  else st.

Fixpoint detectLoop (tokens : list Token) (st : DetectState) (i : nat) (todo : list Token)
  : DetectState :=
  match todo with
  | [] => st
  | token :: todo' => detectLoop tokens (detectStep tokens st i token) (S i) todo'
  end.

Definition detectFormulaErrors (formula : JSValue) : list FormulaError :=
  match usable formula with
  | None => []
  | Some s =>
      let tokens := tokenizeFormula formula in
      let st := detectLoop tokens (mkDetect 0 0 []) 0 tokens in
      let errors :=
        if (0 <? openParens st)%Z then
          errors st ++
          [mkError (Z.of_nat (length s) - 1)
             (numberToString (openParens st) ++ js " unmatched opening parenthesis"
              ++ (if (1 <? openParens st)%Z then js "es" else []))
             syntax]
        else errors st in
      if (0 <? openBrackets st)%Z then
        errors ++
        [mkError (Z.of_nat (length s) - 1)
           (numberToString (openBrackets st) ++ js " unmatched opening bracket"
            ++ (if (1 <? openBrackets st)%Z then js "s" else []))
           syntax]
      else errors
  end.
End Detector.

(** [errorPositions] is a [Set] of numbers; membership is all that is
    used of it. *)
Definition has (errorPositions : list Z) (p : Z) : bool :=
  existsb (Z.eqb p) errorPositions.

Definition markErrorTokens (tokens : list Token) (errors : list FormulaError) : list Token :=
  let errorPositions := map err_position errors in
  map (fun token =>
         if (has errorPositions (start token) || has errorPositions (end_ token - 1))%bool
         then setType token ERROR
         else token)
      tokens.


(** ** Properties named by the specification *)

(** The half-open span of a token holds offset [k]. *)
Definition inSpan (k : Z) (t : Token) : Prop := (start t <= k < end_ t)%Z.

(** Strictly increasing starts and a total partition of the input: every
    offset of the input lies in the span of exactly one token. *)
Definition totalPartition (formula : jsstring) (tokens : list Token) : Prop :=
  (forall i j a b, i < j -> nth_error tokens i = Some a -> nth_error tokens j = Some b ->
                   (start a < start b /\ end_ a <= start b)%Z)
  /\ (forall k, k < length formula ->
        exists i, (exists t, nth_error tokens i = Some t /\ inSpan (Z.of_nat k) t)
                  /\ forall j t, nth_error tokens j = Some t -> inSpan (Z.of_nat k) t -> j = i).

(** A [.] at offset [k], right after the end of a field token: the only
    code units that the dot rule leaves out of every token. *)
Definition dotAfterField (formula : jsstring) (tokens : list Token) (k : nat) : Prop :=
  charIs formula k (ch ".") = true
  /\ exists t, In t tokens /\ isFieldToken t = true /\ end_ t = Z.of_nat k.

(** Tokens laid end to end from offset [cur] to offset [fin]; between a
    field token and its successor one [.] may be left out.  [pf] tells
    whether the token before [cur] is a field token. *)
Inductive Chain (formula : jsstring) : Z -> bool -> list Token -> Z -> bool -> Prop :=
| Chain_nil : forall cur pf, Chain formula cur pf [] cur pf
| Chain_cons : forall cur pf t ts fin ff,
    (start t = cur
     \/ (pf = true /\ (0 <= cur)%Z /\ charIs formula (Z.to_nat cur) (ch ".") = true
         /\ start t = (cur + 1)%Z)) ->
    (start t < end_ t)%Z ->
    Chain formula (end_ t) (isFieldToken t) ts fin ff ->
    Chain formula cur pf (t :: ts) fin ff.

(** What one turn of the main loop does to the cursor and the tokens:
    either one token is pushed, starting at the cursor and ending at the
    new cursor, or the dot rule moves the cursor by one and pushes
    nothing. *)
Definition stepOutcome (formula : jsstring) (position : nat) (tokens : list Token)
    (res : nat * list Token) : Prop :=
  position < fst res <= length formula
  /\ ((exists t, snd res = tokens ++ [t]
                 /\ start t = Z.of_nat position /\ end_ t = Z.of_nat (fst res))
      \/ (snd res = tokens /\ fst res = position + 1
          /\ charIs formula position (ch ".") = true
          /\ (exists lastToken, last (map Some tokens) None = Some lastToken
                                /\ isFieldToken lastToken = true)
          /\ charIs formula (skipSpaces formula (position + 1)) (ch "[") = true)).

(** The state of the main loop between two turns: the tokens pushed so
    far are laid end to end from offset 0, and the cursor is at the end
    of the last one, or one past a dot that was just left out (then a
    [[] lies ahead after optional whitespace). *)
Definition loopInv (formula : jsstring) (position : nat) (tokens : list Token) : Prop :=
  position <= length formula
  /\ exists e ff,
       Chain formula 0 false tokens e ff
       /\ (e = Z.of_nat position
           \/ (ff = true /\ (0 <= e)%Z
               /\ charIs formula (Z.to_nat e) (ch ".") = true
               /\ Z.of_nat position = (e + 1)%Z
               /\ charIs formula (skipSpaces formula position) (ch "[") = true)).

(** Equal up to letter case. *)
Definition sameIgnoringCase (U : jsstring -> jsstring) (a b : jsstring) : Prop :=
  toUpperCase U a = toUpperCase U b.

(** The specification's reading of the unknown-function check: the next
    token that is not whitespace. *)
Fixpoint nextNonWhitespace (rest : list Token) : option Token :=
  match rest with
  | [] => None
  | t :: rest' =>
      if kind_eqb (type t) WHITESPACE then nextNonWhitespace rest' else Some t
  end.

Definition flaggedBySpec (U : jsstring -> jsstring) (t : Token) (rest : list Token) : bool :=
  (kind_eqb (type t) IDENTIFIER
   && match nextNonWhitespace rest with
      | Some n => isOpenParen n
      | None => false
      end
   && negb (includes allFunctions (toUpperCase U (value t)))
   && startsUpper (value t))%bool.

Definition invalidFunction (t : Token) : FormulaError :=
  mkError (start t) (js "Invalid function: " ++ value t) function.

(** The errors the specification's rule gives, token by token. *)
Fixpoint invalidFunctionErrors (U : jsstring -> jsstring) (tokens : list Token)
  : list FormulaError :=
  match tokens with
  | [] => []
  | t :: rest =>
      (if flaggedBySpec U t rest then [invalidFunction t] else [])
      ++ invalidFunctionErrors U rest
  end.

Definition isFunctionError (e : FormulaError) : bool :=
  match err_type e with function => true | syntax => false end.


(** ** The pretty-printer as passes over the gaps of a string *)

(** The scan of [replaceFrom] for a pattern that does not look at the
    code unit before the match. *)
Fixpoint scan (m : jsstring -> option (nat * jsstring)) (skip : nat) (s : jsstring) : jsstring :=
  match s with
  | [] =>
      match skip with
      | O => match m [] with Some (_, r) => r | None => [] end
      | S _ => []
      end
  | c :: s' =>
      match skip with
      | S k => scan m k s'
      | O =>
          match m s with
          | Some (S n, r) => r ++ scan m n s'
          | Some (O, r) => r ++ c :: scan m O s'
          | None => c :: scan m O s'
          end
      end
  end.

(** A string seen as its code units other than spaces and tabs, each
    with the run of spaces and tabs before it, and the run at the end. *)
Definition Item := (jsstring * N)%type.
Definition Rep := (list Item * jsstring)%type.

Fixpoint renderItems (items : list Item) (tail : jsstring) : jsstring :=
  match items with
  | [] => tail
  | (g, c) :: r => g ++ c :: renderItems r tail
  end.

Definition render (r : Rep) : jsstring := renderItems (fst r) (snd r).

Fixpoint parseFrom (g : jsstring) (s : jsstring) : Rep :=
  match s with
  | [] => ([], g)
  | c :: s' =>
      if isHSpace c then parseFrom (g ++ [c]) s'
      else let r := parseFrom [] s' in ((g, c) :: fst r, snd r)
  end.

Definition parse (s : jsstring) : Rep := parseFrom [] s.

Definition gapOk (g : jsstring) : Prop := forallb isHSpace g = true.

Definition itemOk (i : Item) : Prop := gapOk (fst i) /\ isHSpace (snd i) = false.

Definition repOk (r : Rep) : Prop := Forall itemOk (fst r) /\ gapOk (snd r).

(** A pass that rewrites each gap from the code units on its two sides. *)
Fixpoint mapGaps (phi : option N -> N -> jsstring -> jsstring) (prev : option N)
    (items : list Item) : list Item :=
  match items with
  | [] => []
  | (g, c) :: r => (phi prev c g, c) :: mapGaps phi (Some c) r
  end.

Fixpoint lastChar (prev : option N) (items : list Item) : option N :=
  match items with
  | [] => prev
  | (_, c) :: r => lastChar (Some c) r
  end.

Definition GapPass := ((option N -> N -> jsstring -> jsstring) * (option N -> jsstring -> jsstring))%type.

Definition mapRep (P : GapPass) (r : Rep) : Rep :=
  (mapGaps (fst P) None (fst r), snd P (lastChar None (fst r)) (snd r)).

Definition holds (p : N -> bool) (c : option N) : bool :=
  match c with Some d => p d | None => false end.

Definition aroundPass (p : N -> bool) (pre suf : jsstring) : GapPass :=
  (fun prev c g =>
     if p c then (if holds p prev then suf else []) ++ pre
     else if holds p prev then suf else g,
   fun prev tail => if holds p prev then suf else tail).

Definition collapseGap (g : jsstring) : jsstring :=
  match g with [] => [] | _ => js " " end.

Definition collapsePass : GapPass := (fun _ _ g => collapseGap g, fun _ tail => collapseGap tail).

Definition trimPass : GapPass :=
  (fun prev _ g => match prev with None => [] | Some _ => g end, fun _ _ => []).

(** The gap at the head of a rendered rep and what follows it. *)
Definition headGap (items : list Item) (tail : jsstring) : jsstring :=
  match items with [] => tail | (g, _) :: _ => g end.

Definition afterGap (items : list Item) (tail : jsstring) : jsstring :=
  match items with [] => [] | (_, c) :: r => c :: renderItems r tail end.

Definition opchar (c : N) : bool :=
  (eqc "=" c || eqc "<" c || eqc ">" c || eqc "&" c || eqc "|" c)%bool.

(** No two neighbours of the list both satisfy [p]. *)
Fixpoint adjFree (p : N -> bool) (l : list N) : bool :=
  match l with
  | a :: (b :: _) as t => (negb (p a && p b) && adjFree p t)%bool
  | _ => true
  end.

Fixpoint noMatch (m : jsstring -> option (nat * jsstring)) (s : jsstring) : Prop :=
  m s = None /\ match s with [] => True | _ :: s' => noMatch m s' end.

Definition firstChar (items : list Item) : option N :=
  match items with [] => None | (_, c) :: _ => Some c end.

Definition notSpace (c : option N) : Prop :=
  match c with Some d => isSpace d = false | None => False end.

(** The string neither starts nor ends with whitespace (and is not
    empty). *)
Definition endsOk (items : list Item) : Prop :=
  notSpace (firstChar items) /\ notSpace (lastChar None items).

Definition flushWord (g : jsstring -> jsstring) (cur : jsstring) : jsstring :=
  match cur with [] => [] | _ => g cur end.

(** [g] applied to every maximal run of word characters of [s]; [cur]
    is the run read so far. *)
Fixpoint mapWords (g : jsstring -> jsstring) (cur : jsstring) (s : jsstring) : jsstring :=
  match s with
  | [] => flushWord g cur
  | c :: s' =>
      if isIdentPart c then mapWords g (cur ++ [c]) s'
      else flushWord g cur ++ c :: mapWords g [] s'
  end.

Definition flushList (cur : jsstring) : list jsstring :=
  match cur with [] => [] | _ => [cur] end.

(** The maximal runs of word characters of [s]. *)
Fixpoint words (cur : jsstring) (s : jsstring) : list jsstring :=
  match s with
  | [] => flushList cur
  | c :: s' =>
      if isIdentPart c then words (cur ++ [c]) s'
      else flushList cur ++ words [] s'
  end.

(** What [\bw\b] with flags [gi] does to a word. *)
Definition wordFix (w u : jsstring) : jsstring :=
  if jseq (asciiToUpperCase u) w then asciiToUpperCase w else u.

(** Nothing, or a code unit that is not a word character, comes next. *)
Definition wordEnd (rest : jsstring) : Prop :=
  match rest with [] => True | d :: _ => isIdentPart d = false end.

(** A keyword of the tables: not empty, upper-case letters and
    underscores only. *)
Definition tableWord (w : jsstring) : bool :=
  (match w with [] => false | _ => true end
   && forallb (fun c => isUpper c || N.eqb c 95) w)%bool.

Definition wordy (u : jsstring) : Prop := u <> [] /\ Forall (fun c => isIdentPart c = true) u.

(** The capitalisation passes for a list of keywords. *)
Definition capsList (L : list jsstring) (s : jsstring) : jsstring :=
  fold_left (fun r w => replaceAll (reWord w (asciiToUpperCase w)) r) L s.

(** [b] is [a] or the upper-case form of [a]. *)
Definition caseRel (a b : N) : Prop := b = a \/ b = asciiUpper a.

Definition itemRel (i i' : Item) : Prop := fst i' = fst i /\ caseRel (snd i) (snd i').

(** A test on code units that does not tell a letter from its upper-case
    form. *)
Definition caseBlind (p : N -> bool) : Prop := forall c, p (asciiUpper c) = p c.

(** A gap pass that keeps words apart and together: between two word
    characters it neither opens nor closes a gap. *)
Definition wordSafe (P : GapPass) : Prop :=
  forall prev c g,
    (fst P prev c g = [] <-> g = []) \/ isWordChar prev = false \/ isIdentPart c = false.

(** A gap pass that writes spaces and tabs only. *)
Definition passOk (P : GapPass) : Prop :=
  (forall prev c g, gapOk g -> gapOk (fst P prev c g))
  /\ (forall prev t, gapOk t -> gapOk (snd P prev t)).

Definition relOpt (a b : option N) : Prop :=
  match a, b with
  | Some x, Some y => caseRel x y
  | None, None => True
  | _, _ => False
  end.

(** A gap pass that does not tell a letter from its upper-case form. *)
Definition passBlind (P : GapPass) : Prop :=
  (forall prev prev' c c' g, relOpt prev prev' -> caseRel c c' ->
                             fst P prev' c' g = fst P prev c g)
  /\ (forall prev prev' t, relOpt prev prev' -> snd P prev' t = snd P prev t).


(** The pretty-printer in three stages: operator and punctuation
    spacing, capitalisation, parenthesis spacing. *)
Definition stage1 (result : jsstring) : jsstring :=
  let result :=
    fold_left (fun r '(pattern, replacement) =>
                 replaceAll (reLiteral pattern replacement) r)
              multiCharOps result in
  let result := replaceAll (reAround (eqc "=") (spaced " = ")) result in
  let result := replaceAll (reAround (eqc ">") (spaced " > ")) result in
  let result := replaceAll (reAround (eqc "<") (spaced " < ")) result in
  let result := replaceAll (reAround (eqc "+") (spaced " + ")) result in
  let result := replaceAll (reAround (eqc "-") (spaced " - ")) result in
  let result := replaceAll (reAround (eqc "*") (spaced " * ")) result in
  let result := replaceAll (reAround (eqc "/") (spaced " / ")) result in
  let result :=
    replaceAll (reAround (fun c => eqc "(" c || eqc ")" c || eqc "," c)%bool
                         (fun c => [c; ch " "])) result in
  let result := replaceAll (reHSpaces (js " ")) result in
  let result := replaceAll (reLiteral (js "___LESS_EQUAL___") (js " <= ")) result in
  let result := replaceAll (reLiteral (js "___GREATER_EQUAL___") (js " >= ")) result in
  let result := replaceAll (reLiteral (js "___NOT_EQUAL___") (js " <> ")) result in
  let result := replaceAll (reLiteral (js "___EQUAL_EQUAL___") (js " == ")) result in
  let result := replaceAll (reLiteral (js "___AND___") (js " && ")) result in
  let result := replaceAll (reLiteral (js "___OR___") (js " || ")) result in
  let result := replaceAll (reSplit (ch ">") (ch "=") (js " >= ")) result in
  let result := replaceAll (reSplit (ch "<") (ch "=") (js " <= ")) result in
  let result := replaceAll (reSplit (ch "<") (ch ">") (js " <> ")) result in
  let result := replaceAll (reSplit (ch "=") (ch "=") (js " == ")) result in
  let result := replaceAll (reSplit (ch "&") (ch "&") (js " && ")) result in
  let result := replaceAll (reSplit (ch "|") (ch "|") (js " || ")) result in
  trim (replaceAll (reHSpaces (js " ")) result).

Definition capsWords : list jsstring :=
  (SF_KEYWORDS.logical ++ SF_KEYWORDS.text ++ SF_KEYWORDS.math
   ++ SF_KEYWORDS.datetime ++ SF_KEYWORDS.conversion) ++ SF_KEYWORDS.constants.

Definition stage2 (result : jsstring) : jsstring :=
  let result := replaceAll (reAround (eqc "(") (spaced " (")) result in
  let result := replaceAll (reAround (eqc ")") (spaced ") ")) result in
  let result := replaceAll (reHSpaces (js " ")) result in
  trim result.

Definition isPunct (c : N) : bool := (eqc "(" c || eqc ")" c || eqc "," c)%bool.

(** The gap passes of the first and of the last stage. *)
Definition passes1 : list GapPass :=
  [ aroundPass (eqc "=") (js " ") (js " ");
    aroundPass (eqc ">") (js " ") (js " ");
    aroundPass (eqc "<") (js " ") (js " ");
    aroundPass (eqc "+") (js " ") (js " ");
    aroundPass (eqc "-") (js " ") (js " ");
    aroundPass (eqc "*") (js " ") (js " ");
    aroundPass (eqc "/") (js " ") (js " ");
    aroundPass isPunct [] (js " ");
    collapsePass; collapsePass; trimPass ].

Definition passes2 : list GapPass :=
  [ aroundPass (eqc "(") (js " ") [];
    aroundPass (eqc ")") [] (js " ");
    collapsePass; trimPass ].

Definition applyPasses (Ps : list GapPass) (r : Rep) : Rep :=
  fold_left (fun r P => mapRep P r) Ps r.

Definition isDoubleOp (lit : jsstring) : bool :=
  match lit with
  | [a; b] => (opchar a && opchar b)%bool
  | _ => false
  end.

Definition chars (r : Rep) : list N := map snd (fst r).

(** No three underscores in a row, [n] of them having just been read. *)
Fixpoint underscoreRun (n : nat) (s : jsstring) : bool :=
  match s with
  | [] => true
  | c :: s' =>
      if eqc "_" c then ((S n <? 3)%nat && underscoreRun (S n) s')%bool
      else underscoreRun 0 s'
  end.

(** The reps the idempotence theorem is about. *)
Definition Good (r : Rep) : Prop :=
  repOk r /\ endsOk (fst r)
  /\ adjFree opchar (chars r) = true
  /\ underscoreRun 0 (render r) = true.

Definition tripleStart (lit : jsstring) : bool :=
  match lit with
  | a :: b :: c :: _ => (eqc "_" a && eqc "_" b && eqc "_" c)%bool
  | _ => false
  end.

















(** The formulas on which the pretty-printer is shown idempotent: no two
    of the characters [= < > & |] follow each other, spaces and tabs
    between them not counted, and no three underscores in a row. *)
Definition plainOperators (s : jsstring) : bool :=
  (adjFree opchar (filter (fun c => negb (isHSpace c)) s) && underscoreRun 0 s)%bool.


Definition lastSolid (prev : option N) (s : jsstring) : option N :=
  fold_left (fun acc c => if isHSpace c then acc else Some c) s prev.

(** ** Renderer and highlighter *)

(** [`<span class="${className}">${value}</span>`] *)
Definition span (className : string) (v : jsstring) : jsstring :=
  js "<span class=" ++ dquote :: js className ++ dquote :: js ">" ++ v ++ js "</span>".

(** The [switch (token.type)] of [renderTokens]. *)
Definition renderToken (token : Token) : jsstring :=
  match type token with
  | FUNCTION => span "sf-function" (value token)
  | FIELD => span "sf-field" (value token)
  | NESTED_FIELD => span "sf-nested-field" (value token)
  | CUSTOM_FUNCTION => span "sf-custom-function" (value token)
  | FORMULA_FIELD => span "sf-formula-field" (value token)
  | OPERATOR => span "sf-operator" (value token)
  | STRING => span "sf-string" (value token)
  | NUMBER => span "sf-number" (value token)
  | CONSTANT => span "sf-constant" (value token)
  | COMMENT => span "sf-comment" (value token)
  | ERROR => span "sf-error" (value token)
  | DOT => span "sf-dot" (value token)
  | PARENTHESIS => span "sf-parenthesis" (value token)
  | COMMA => span "sf-comma" (value token)
  | WHITESPACE => value token
  | _ => value token
  end.

(** [tokens.map(...).join("")] *)
Definition renderTokens (tokens : list Token) : jsstring :=
  concat (map renderToken tokens).

(** [highlightFormula(formula, showErrors = true)], with [showErrors] a
    boolean as documented. *)
Definition highlightFormula (U : jsstring -> jsstring) (formula : JSValue) (showErrors : bool)
  : jsstring :=
  let tokens := tokenizeFormula formula in
  let classifiedTokens := classifyTokens U tokens in
  let classifiedTokens :=
    if showErrors then
      let errors := detectFormulaErrors U formula in
      if 0 <? length errors then markErrorTokens classifiedTokens errors
      else classifiedTokens
    else classifiedTokens in
  renderTokens classifiedTokens.

(** ** Properties read off the code *)

(** The token types the tokenizer gives; the others are given by the
    classifier and the error marker only, and [bracket] by nothing. *)
Definition tokenizerKind (k : TokenKind) : bool :=
  match k with
  | WHITESPACE | STRING | COMMENT | OPERATOR | FIELD | NESTED_FIELD
  | PARENTHESIS | COMMA | NUMBER | DOT | IDENTIFIER => true
  | _ => false
  end.

(** The source text of a token. *)
Definition sourceText (formula : jsstring) (t : Token) : jsstring :=
  substring formula (Z.to_nat (start t)) (Z.to_nat (end_ t)).

(** [op] stands in [formula] at [position]. *)
Definition operatorAt (formula : jsstring) (position : nat) (op : jsstring) : Prop :=
  position + length op <= length formula
  /\ substring formula position (position + length op) = op.

(** The inside of a quoted string: code units other than the quote [q]
    and the backslash, and backslashes each followed by any one code
    unit. *)
Inductive StringBody (q : N) : jsstring -> Prop :=
| SB_nil : StringBody q []
| SB_unit : forall c body,
    c <> q -> c <> backslash -> StringBody q body -> StringBody q (c :: body)
| SB_escape : forall c body,
    StringBody q body -> StringBody q (backslash :: c :: body).

(** The operators of a table come longest first. *)
Fixpoint longestFirst (table : list jsstring) : bool :=
  match table with
  | [] => true
  | x :: rest =>
      (forallb (fun y => length y <=? length x) rest && longestFirst rest)%bool
  end.

Definition isCloseParen (t : Token) : bool :=
  (kind_eqb (type t) PARENTHESIS && jseq (value t) (js ")"))%bool.

(** Opening minus closing parenthesis tokens. *)
Fixpoint parenBalance (tokens : list Token) : Z :=
  match tokens with
  | [] => 0
  | t :: rest =>
      ((if isOpenParen t then 1 else if isCloseParen t then -1 else 0)
       + parenBalance rest)%Z
  end.

Definition unmatchedClosing (t : Token) : FormulaError :=
  mkError (start t) (js "Unmatched closing parenthesis") syntax.

Definition unmatchedOpening (formula : jsstring) (n : Z) : FormulaError :=
  mkError (Z.of_nat (length formula) - 1)
    (numberToString n ++ js " unmatched opening parenthesis"
     ++ (if (1 <? n)%Z then js "es" else []))
    syntax.

(** The errors the loop reports at a token. *)
Definition loopError (U : jsstring -> jsstring) (tokens : list Token) (t : Token)
    (e : FormulaError) : Prop :=
  (isCloseParen t = true /\ e = unmatchedClosing t)
  \/ (type t = IDENTIFIER
      /\ (exists t', In t' tokens /\ isOpenParen t' = true)
      /\ includes allFunctions (toUpperCase U (value t)) = false
      /\ startsUpper (value t) = true
      /\ e = invalidFunction t).

(** What one turn adds: nothing, or one token of a tokenizer type whose
    value is the text it was read from; only a nested field put together
    by the look-ahead may differ from its text. *)
Definition tokenFact (formula : jsstring) (position : nat) (char : N) (tokens : list Token)
    (res : nat * list Token) : Prop :=
  snd res = tokens
  \/ exists t, snd res = tokens ++ [t]
               /\ tokenizerKind (type t) = true
               /\ (value t = substring formula position (fst res)
                   \/ (type t = NESTED_FIELD /\ char = ch "[")).

(** * Proofs *)

#[local] Arguments skipSpaces : simpl never.
#[local] Arguments charIs : simpl never.

(** ** Lists and scanners *)

Lemma takeWhile_length p s : length (takeWhile p s) <= length s.
Proof.
  induction s as [|c s IH]; simpl; [lia|].
  destruct (p c); simpl; lia.
Qed.

Lemma takeWhile_head p c s : p c = true -> 1 <= length (takeWhile p (c :: s)).
Proof. intros H. simpl. rewrite H. simpl. lia. Qed.

Lemma skipn_nth_error {A} (l : list A) n x :
  nth_error l n = Some x -> skipn n l = x :: skipn (S n) l.
Proof.
  revert n. induction l as [|y l IH]; intros [|n] H; simpl in *; try discriminate.
  - now inversion H.
  - now apply IH.
Qed.

Lemma nth_error_lt {A} (l : list A) n x : nth_error l n = Some x -> n < length l.
Proof. intros H. apply nth_error_Some. congruence. Qed.

Lemma charIs_lt formula p c : charIs formula p c = true -> p < length formula.
Proof.
  unfold charIs. destruct (nth_error formula p) eqn:E; [|discriminate].
  intros _. eapply nth_error_lt; eauto.
Qed.

Lemma charIs_nth formula p c : charIs formula p c = true -> nth_error formula p = Some c.
Proof.
  unfold charIs. destruct (nth_error formula p) eqn:E; [|discriminate].
  intros H. apply N.eqb_eq in H. congruence.
Qed.

Lemma skipSpaces_ge formula p : p <= skipSpaces formula p.
Proof. unfold skipSpaces. lia. Qed.

Lemma skipSpaces_le formula p : p <= length formula -> skipSpaces formula p <= length formula.
Proof.
  intros H. unfold skipSpaces.
  pose proof (takeWhile_length isSpace (skipn p formula)) as L.
  rewrite length_skipn in L. lia.
Qed.

Lemma skipSpaces_nonspace formula p c :
  nth_error formula p = Some c -> isSpace c = false -> skipSpaces formula p = p.
Proof.
  intros H Hc. unfold skipSpaces. rewrite (skipn_nth_error _ _ _ H). simpl.
  rewrite Hc. simpl. lia.
Qed.

Lemma scanStringBody_length q rest : length (scanStringBody q rest) <= length rest.
Proof.
  assert (H : forall n rest, length rest <= n ->
                             length (scanStringBody q rest) <= length rest).
  { induction n as [|n IH]; intros [|c r] Hn; simpl in *; try lia.
    destruct (N.eqb c q); simpl; [lia|].
    destruct (N.eqb c backslash).
    - destruct r as [|c2 r2]; simpl in *; [lia|].
      assert (length (scanStringBody q r2) <= length r2) by (apply IH; lia). lia.
    - simpl. assert (length (scanStringBody q r) <= length r) by (apply IH; lia). lia. }
  eapply H; eauto.
Qed.

Lemma scanBlockComment_length rest :
  length (scanBlockComment rest) = length rest
  \/ length (scanBlockComment rest) + 2 <= length rest.
Proof.
  induction rest as [|c r IH]; [now left|].
  cbn [scanBlockComment].
  destruct (N.eqb c (ch "*") && match r with d :: _ => N.eqb d (ch "/") | [] => false end)%bool
    eqn:E.
  - right. destruct r as [|d r']; [now rewrite andb_false_r in E|]. simpl. lia.
  - cbn [length]. destruct IH; [left|right]; lia.
Qed.

Lemma extractField_length bc rest : length (extractField bc rest) <= length rest.
Proof.
  revert bc. induction rest as [|c r IH]; intros bc; simpl; [lia|].
  destruct (0 <=? bc)%Z; simpl; [|lia].
  destruct (bumpBracket bc c =? 0)%Z; simpl; [lia|].
  specialize (IH (bumpBracket bc c)). lia.
Qed.

Lemma extractField_open c r : 1 <= length (extractField 0 (c :: r)).
Proof. simpl. lia. Qed.

Lemma scanField_length bc rest : length (scanField bc rest) <= length rest.
Proof.
  revert bc. induction rest as [|c r IH]; intros bc; simpl; [lia|].
  destruct (0 <? bc)%Z; simpl; [|lia].
  specialize (IH (bumpBracket bc c)). lia.
Qed.

(** The look-ahead never moves backwards and never past the end. *)
Lemma extendNested_bounds fuel formula :
  forall tp full nested tp' full' nested',
    tp <= length formula ->
    extendNested fuel formula tp full nested = (tp', full', nested') ->
    tp <= tp' <= length formula.
Proof.
  induction fuel as [|fuel IH]; intros tp full nested tp' full' nested' Hle H;
    cbn [extendNested] in H.
  - inversion H; subst; lia.
  - destruct (tp <? length formula) eqn:Hlt; [|inversion H; subst; lia].
    cbv zeta in H.
    pose proof (skipSpaces_ge formula tp) as G1.
    pose proof (skipSpaces_le formula tp Hle) as L1.
    destruct (charIs formula (skipSpaces formula tp) (ch ".")) eqn:Hdot;
      [|inversion H; subst; lia].
    apply charIs_lt in Hdot.
    pose proof (skipSpaces_ge formula (skipSpaces formula tp + 1)) as G2.
    assert (L2 : skipSpaces formula (skipSpaces formula tp + 1) <= length formula)
      by (apply skipSpaces_le; lia).
    destruct (charIs formula (skipSpaces formula (skipSpaces formula tp + 1)) (ch "["))
      eqn:Hbr; [|inversion H; subst; lia].
    apply IH in H.
    + lia.
    + pose proof (extractField_length 0
                    (skipn (skipSpaces formula (skipSpaces formula tp + 1)) formula)) as E.
      rewrite length_skipn in E. lia.
Qed.

Lemma extendNested_ge fuel formula :
  forall tp full nested tp' full' nested',
    extendNested fuel formula tp full nested = (tp', full', nested') -> tp <= tp'.
Proof.
  induction fuel as [|fuel IH]; intros tp full nested tp' full' nested' H;
    cbn [extendNested] in H.
  - inversion H; subst; lia.
  - destruct (tp <? length formula) eqn:Hlt; [|inversion H; subst; lia].
    cbv zeta in H.
    pose proof (skipSpaces_ge formula tp) as G1.
    destruct (charIs formula (skipSpaces formula tp) (ch ".")) eqn:Hdot;
      [|inversion H; subst; lia].
    pose proof (skipSpaces_ge formula (skipSpaces formula tp + 1)) as G2.
    destruct (charIs formula (skipSpaces formula (skipSpaces formula tp + 1)) (ch "["))
      eqn:Hbr; [|inversion H; subst; lia].
    apply IH in H. lia.
Qed.

Lemma extendNested_true fuel formula :
  forall tp full tp' full' nested',
    extendNested fuel formula tp full true = (tp', full', nested') -> nested' = true.
Proof.
  induction fuel as [|fuel IH]; intros tp full tp' full' nested' H;
    cbn [extendNested] in H.
  - now inversion H.
  - cbv zeta in H.
    destruct (tp <? length formula); [|now inversion H].
    destruct (charIs formula (skipSpaces formula tp) (ch ".")); [|now inversion H].
    destruct (charIs formula (skipSpaces formula (skipSpaces formula tp + 1)) (ch "["));
      [|now inversion H].
    eapply IH; eauto.
Qed.

(** The flag [isNestedPattern] is only ever raised, and raising it moves
    the look-ahead forward. *)
Lemma extendNested_flag fuel formula :
  forall tp full nested tp' full' nested',
    extendNested fuel formula tp full nested = (tp', full', nested') ->
    nested' = nested \/ (nested' = true /\ tp < tp').
Proof.
  destruct fuel as [|fuel]; intros tp full nested tp' full' nested' H;
    cbn [extendNested] in H.
  - inversion H; subst; now left.
  - destruct (tp <? length formula) eqn:Hlt; [|inversion H; subst; now left].
    cbv zeta in H.
    pose proof (skipSpaces_ge formula tp) as G1.
    destruct (charIs formula (skipSpaces formula tp) (ch ".")) eqn:Hdot;
      [|inversion H; subst; now left].
    pose proof (skipSpaces_ge formula (skipSpaces formula tp + 1)) as G2.
    destruct (charIs formula (skipSpaces formula (skipSpaces formula tp + 1)) (ch "["))
      eqn:Hbr; [|inversion H; subst; now left].
    right. pose proof (extendNested_ge _ _ _ _ _ _ _ _ H) as G3.
    split; [eapply extendNested_true; eauto|lia].
Qed.

Lemma extendNested_S fuel formula tp full nested :
  extendNested (S fuel) formula tp full nested =
  if tp <? length formula then
    if charIs formula (skipSpaces formula tp) (ch ".") then
      if charIs formula (skipSpaces formula (skipSpaces formula tp + 1)) (ch "[") then
        extendNested fuel formula
          (skipSpaces formula (skipSpaces formula tp + 1)
           + length (extractField 0
                       (skipn (skipSpaces formula (skipSpaces formula tp + 1)) formula)))
          (full ++ js "." ++
           extractField 0 (skipn (skipSpaces formula (skipSpaces formula tp + 1)) formula))
          true
      else (skipSpaces formula (skipSpaces formula tp + 1), full, nested)
    else (skipSpaces formula tp, full, nested)
  else (tp, full, nested).
Proof. reflexivity. Qed.

(** Fuel that covers the rest of the input is never used up: more fuel
    gives the same result. *)
Lemma extendNested_fuel fuel formula :
  forall tp full nested,
    length formula - tp <= fuel ->
    extendNested (S fuel) formula tp full nested = extendNested fuel formula tp full nested.
Proof.
  induction fuel as [|fuel IH]; intros tp full nested Hf.
  - cbn [extendNested]. destruct (tp <? length formula) eqn:Hlt; [|reflexivity].
    apply Nat.ltb_lt in Hlt. lia.
  - rewrite (extendNested_S (S fuel) formula tp full nested),
            (extendNested_S fuel formula tp full nested).
    destruct (tp <? length formula); [|reflexivity].
    destruct (charIs formula (skipSpaces formula tp) (ch ".")); [|reflexivity].
    destruct (charIs formula (skipSpaces formula (skipSpaces formula tp + 1)) (ch "["))
      eqn:Hbr; [|reflexivity].
    apply IH.
    pose proof (skipSpaces_ge formula tp).
    pose proof (skipSpaces_ge formula (skipSpaces formula tp + 1)).
    lia.
Qed.

(** ** One turn of the main loop *)

Lemma push_outcome formula position tokens k v p' :
  position < p' <= length formula ->
  length v = p' - position ->
  stepOutcome formula position tokens (p', pushSpan tokens k v p').
Proof.
  intros Hp Hv. split; [exact Hp|].
  left. eexists. split; [reflexivity|]. simpl. lia.
Qed.

Lemma emit_outcome formula position tokens k v p' :
  position < p' <= length formula ->
  stepOutcome formula position tokens
    (p', tokens ++ [mkToken k v (Z.of_nat position) (Z.of_nat p')]).
Proof.
  intros Hp. split; [exact Hp|].
  left. eexists. split; [reflexivity|]. simpl. lia.
Qed.

Lemma operators_nonempty op : In op OPERATORS -> 1 <= length op.
Proof.
  assert (H : forallb (fun op => 1 <=? length op) OPERATORS = true) by reflexivity.
  rewrite forallb_forall in H. intros Hin. apply H in Hin. now apply Nat.leb_le in Hin.
Qed.

Lemma findOperator_bounds formula position op :
  findOperator formula position = Some op ->
  position < position + length op <= length formula.
Proof.
  unfold findOperator. intros H. apply find_some in H. destruct H as [Hin Ht].
  apply andb_prop in Ht. destruct Ht as [Hle _]. apply Nat.leb_le in Hle.
  pose proof (operators_nonempty _ Hin). lia.
Qed.

Lemma isIdentStart_part c : isIdentStart c = true -> isIdentPart c = true.
Proof.
  unfold isIdentStart, isIdentPart.
  destruct (isLower c), (isUpper c), (isDigit c), (N.eqb c 95); simpl; congruence.
Qed.

Lemma scanToken_outcome formula position tokens char :
  nth_error formula position = Some char ->
  stepOutcome formula position tokens (scanToken formula position tokens char).
Proof.
  intros Hc.
  pose proof (nth_error_lt _ _ _ Hc) as Hlt.
  pose proof (skipn_nth_error _ _ _ Hc) as Hrest.
  assert (Hlen : forall k, length (skipn (position + k) formula) = length formula - position - k)
    by (intros k; rewrite length_skipn; lia).
  unfold scanToken. cbv zeta. rewrite Hrest.
  destruct (isSpace char) eqn:Hsp.
  { (* whitespace *)
    pose proof (takeWhile_head isSpace char (skipn (S position) formula) Hsp) as L1.
    pose proof (takeWhile_length isSpace (char :: skipn (S position) formula)) as L2.
    rewrite <- Hrest, length_skipn in L2. rewrite <- Hrest in L1 |- *.
    apply push_outcome; lia. }
  destruct (N.eqb char dquote || N.eqb char squote)%bool eqn:Hq.
  { (* strings *)
    pose proof (scanStringBody_length char (skipn (position + 1) formula)) as L.
    rewrite Hlen in L.
    destruct (position + 1 + length (scanStringBody char (skipn (position + 1) formula))
              <? length formula) eqn:Hclosed.
    - apply Nat.ltb_lt in Hclosed.
      apply push_outcome; [lia|]. cbn [length]. rewrite length_app. cbn [length]. lia.
    - apply push_outcome; [lia|]. cbn [length]. lia. }
  destruct (N.eqb char (ch "/") && charIs formula (position + 1) (ch "*"))%bool eqn:Hblock.
  { (* block comment *)
    apply andb_prop in Hblock. destruct Hblock as [_ Hstar]. apply charIs_lt in Hstar.
    pose proof (scanBlockComment_length (skipn (position + 2) formula)) as L.
    rewrite Hlen in L.
    destruct (position + 2 + length (scanBlockComment (skipn (position + 2) formula))
              <? length formula) eqn:Hclosed.
    - apply Nat.ltb_lt in Hclosed.
      apply push_outcome; [lia|]. rewrite !length_app. cbn [length js map list_ascii_of_string]. lia.
    - apply Nat.ltb_ge in Hclosed.
      apply push_outcome; [lia|]. rewrite !length_app. cbn [length js map list_ascii_of_string]. lia. }
  destruct (N.eqb char (ch "/") && charIs formula (position + 1) (ch "/"))%bool eqn:Hline.
  { (* line comment *)
    apply andb_prop in Hline. destruct Hline as [_ Hslash]. apply charIs_lt in Hslash.
    match goal with |- context [takeWhile ?p ?l] =>
      pose proof (takeWhile_length p l) as L end.
    rewrite Hlen in L.
    apply push_outcome; [lia|]. rewrite !length_app. cbn [length js map list_ascii_of_string]. lia. }
  destruct (findOperator formula position) as [op|] eqn:Hop.
  { (* operator *)
    apply emit_outcome. now apply findOperator_bounds. }
  destruct (N.eqb char (ch "[")) eqn:Hbr.
  { (* field references *)
    pose proof (extractField_open char (skipn (S position) formula)) as F1.
    pose proof (extractField_length 0 (char :: skipn (S position) formula)) as F2.
    replace (length (char :: skipn (S position) formula))
      with (length formula - position) in F2 by (rewrite <- Hrest; symmetry; apply length_skipn).
    destruct (extendNested (length formula) formula
                (position + length (extractField 0 (char :: skipn (S position) formula)))
                (extractField 0 (char :: skipn (S position) formula)) false)
      as [[tempPosition fullNestedField] isNestedPattern] eqn:Hext.
    apply extendNested_bounds in Hext; [|lia].
    destruct isNestedPattern.
    - apply emit_outcome. lia.
    - pose proof (scanField_length 1 (skipn (position + 1) formula)) as L.
      rewrite Hlen in L.
      apply push_outcome; cbn [length]; lia. }
  destruct (N.eqb char (ch "(") || N.eqb char (ch ")"))%bool.
  { apply emit_outcome. lia. }
  destruct (N.eqb char (ch ",")).
  { apply emit_outcome. lia. }
  destruct (isDigit char) eqn:Hd.
  { (* number *)
    match goal with |- context [takeWhile ?p ?l] =>
      pose proof (takeWhile_length p l) as L2;
      assert (L1 : 1 <= length (takeWhile p l))
        by (apply takeWhile_head; now rewrite Hd) end.
    rewrite <- Hrest, length_skipn in L2. rewrite <- Hrest in L1 |- *.
    apply push_outcome; lia. }
  destruct (N.eqb char (ch ".")) eqn:Hdot.
  { (* dot *)
    apply N.eqb_eq in Hdot. subst char.
    destruct (last (map Some tokens) None) as [lastToken|] eqn:Hlast.
    - destruct (isFieldToken lastToken
                && charIs formula (skipSpaces formula (position + 1)) (ch "["))%bool eqn:Hpart.
      + apply andb_prop in Hpart. destruct Hpart as [Hf Hb].
        split; [simpl; lia|]. right. simpl.
        repeat split; try assumption.
        * unfold charIs. rewrite Hc. apply N.eqb_refl.
        * exists lastToken. now split.
      + apply emit_outcome. lia.
    - apply emit_outcome. lia. }
  destruct (isIdentStart char) eqn:Hid.
  { (* identifier *)
    pose proof (takeWhile_head isIdentPart char (skipn (S position) formula)
                  (isIdentStart_part _ Hid)) as L1.
    pose proof (takeWhile_length isIdentPart (char :: skipn (S position) formula)) as L2.
    rewrite <- Hrest, length_skipn in L2. rewrite <- Hrest in L1 |- *.
    apply push_outcome; lia. }
  apply emit_outcome. lia.
Qed.

(** ** The main loop *)

Lemma tokenizeLoop_total fuel :
  forall formula position tokens,
    length formula - position <= fuel ->
    exists toks, tokenizeLoop fuel formula position tokens = Some toks.
Proof.
  induction fuel as [|fuel IH]; intros formula position tokens Hf.
  - cbn [tokenizeLoop]. destruct (nth_error formula position) as [char|] eqn:Hc.
    + apply nth_error_lt in Hc. lia.
    + now exists tokens.
  - cbn [tokenizeLoop]. destruct (nth_error formula position) as [char|] eqn:Hc.
    + pose proof (scanToken_outcome formula position tokens char Hc) as [Hp _].
      destruct (scanToken formula position tokens char) as [p' toks']. simpl in Hp.
      apply IH. lia.
    + now exists tokens.
Qed.

Lemma Chain_app formula cur pf ts mid mf ts2 fin ff :
  Chain formula cur pf ts mid mf ->
  Chain formula mid mf ts2 fin ff ->
  Chain formula cur pf (ts ++ ts2) fin ff.
Proof.
  induction 1 as [|cur pf t ts mid mf Hs Hlt Hc IH]; intros H2; simpl.
  - exact H2.
  - econstructor; eauto.
Qed.

Lemma last_some_app (ts : list Token) t :
  last (map Some (ts ++ [t])) None = Some t.
Proof.
  rewrite map_app. simpl. apply last_last.
Qed.

Lemma Chain_last formula cur pf ts fin ff lastToken :
  Chain formula cur pf ts fin ff ->
  last (map Some ts) None = Some lastToken ->
  ff = isFieldToken lastToken /\ fin = end_ lastToken.
Proof.
  induction 1 as [|cur pf t ts fin ff Hs Hlt Hc IH]; intros Hl.
  - discriminate.
  - destruct ts as [|t2 ts'].
    + simpl in Hl. inversion Hl; subst. inversion Hc; subst. now split.
    + apply IH. exact Hl.
Qed.

Lemma loopInv_step formula position tokens char :
  nth_error formula position = Some char ->
  loopInv formula position tokens ->
  loopInv formula (fst (scanToken formula position tokens char))
                  (snd (scanToken formula position tokens char)).
Proof.
  intros Hc [Hle (e & ff & Hch & Hcur)].
  pose proof (scanToken_outcome formula position tokens char Hc) as [Hp Hout].
  destruct (scanToken formula position tokens char) as [p' toks']. simpl in *.
  split; [lia|].
  destruct Hout as [(t & -> & Hs & He) | (-> & -> & Hdot & (lt & Hl & Hf) & Hb)].
  - (* a token was pushed *)
    exists (end_ t), (isFieldToken t). split; [|left; exact He].
    eapply Chain_app; [exact Hch|].
    econstructor; [| lia | constructor].
    destruct Hcur as [-> | (-> & H0 & Hd & Hpos & _)].
    + now left.
    + right. repeat split; try assumption. lia.
  - (* the dot rule pushed nothing *)
    exists e, ff. split; [exact Hch|].
    destruct Hcur as [-> | (_ & _ & _ & _ & Hb')].
    + right. destruct (Chain_last _ _ _ _ _ _ _ Hch Hl) as [-> _].
      rewrite Nat2Z.id. repeat split; try assumption; lia.
    + (* a second dot cannot follow: a bracket or whitespace is at the cursor *)
      exfalso. apply charIs_nth in Hdot.
      rewrite (skipSpaces_nonspace formula position (ch ".") Hdot eq_refl) in Hb'.
      apply charIs_nth in Hb'. rewrite Hdot in Hb'. discriminate.
Qed.

Lemma tokenizeLoop_chain fuel :
  forall formula position tokens toks,
    loopInv formula position tokens ->
    tokenizeLoop fuel formula position tokens = Some toks ->
    exists ff, Chain formula 0 false toks (Z.of_nat (length formula)) ff.
Proof.
  induction fuel as [|fuel IH]; intros formula position tokens toks Hinv H;
    cbn [tokenizeLoop] in H;
    destruct (nth_error formula position) as [char|] eqn:Hc; try discriminate.
  1, 3: (* the loop is left: the cursor is at the end of the input *)
    inversion H; subst; apply nth_error_None in Hc;
    destruct Hinv as [Hle (e & ff & Hch & Hcur)];
    assert (position = length formula) by lia; subst position;
    destruct Hcur as [-> | (_ & _ & _ & _ & Hb)];
    [ now exists ff
    | apply charIs_lt in Hb; pose proof (skipSpaces_ge formula (length formula)); lia ].
  pose proof (loopInv_step formula position tokens char Hc Hinv) as Hinv'.
  destruct (scanToken formula position tokens char) as [p' toks'].
  eapply IH; eauto.
Qed.

Lemma loopInv_init formula : loopInv formula 0 [].
Proof.
  split; [lia|]. exists 0%Z, false. split; [constructor|now left].
Qed.

Lemma tokenizeString_total formula : exists toks, tokenizeString formula = Some toks.
Proof. apply tokenizeLoop_total. lia. Qed.

Lemma tokenizeFormula_chain formula :
  exists ff, Chain formula 0 false (tokenizeFormula (VString formula))
                   (Z.of_nat (length formula)) ff.
Proof.
  unfold tokenizeFormula.
  destruct formula as [|c s]; [exists false; constructor|].
  cbn [usable].
  destruct (tokenizeString_total (c :: s)) as [toks Ht]. rewrite Ht.
  eapply tokenizeLoop_chain; [apply loopInv_init|exact Ht].
Qed.

(** ** What a chain of tokens says about spans *)

Lemma Chain_bounds formula cur pf ts fin ff :
  Chain formula cur pf ts fin ff ->
  (cur <= fin)%Z /\ Forall (fun t => (cur <= start t < end_ t /\ end_ t <= fin)%Z) ts.
Proof.
  induction 1 as [|cur pf t ts fin ff Hs Hlt Hc [IH1 IH2]].
  - split; [lia|constructor].
  - split; [destruct Hs as [Hs|(_ & _ & _ & Hs)]; lia|].
    constructor.
    + destruct Hs as [Hs|(_ & _ & _ & Hs)]; lia.
    + eapply Forall_impl; [|exact IH2]. simpl. intros a Ha.
      destruct Hs as [Hs|(_ & _ & _ & Hs)]; lia.
Qed.

Lemma Chain_ordered formula cur pf ts fin ff :
  Chain formula cur pf ts fin ff ->
  forall i j a b, i < j -> nth_error ts i = Some a -> nth_error ts j = Some b ->
                  (start a < start b /\ end_ a <= start b)%Z.
Proof.
  induction 1 as [|cur pf t ts fin ff Hs Hlt Hc IH]; intros i j a b Hij Ha Hb.
  - destruct i; discriminate.
  - destruct j as [|j]; [lia|]. simpl in Hb.
    destruct i as [|i].
    + simpl in Ha. inversion Ha; subst a.
      apply Chain_bounds in Hc. destruct Hc as [_ Hall].
      rewrite Forall_forall in Hall.
      specialize (Hall b (nth_error_In _ _ Hb)). lia.
    + simpl in Ha. apply (IH i j a b); [lia|assumption|assumption].
Qed.

Lemma Chain_cover formula cur pf ts fin ff :
  Chain formula cur pf ts fin ff ->
  forall k, (cur <= Z.of_nat k < fin)%Z ->
    (exists t, In t ts /\ inSpan (Z.of_nat k) t)
    \/ (charIs formula k (ch ".") = true
        /\ ((pf = true /\ cur = Z.of_nat k)
            \/ exists t, In t ts /\ isFieldToken t = true /\ end_ t = Z.of_nat k)).
Proof.
  induction 1 as [|cur pf t ts fin ff Hs Hlt Hc IH]; intros k Hk.
  - lia.
  - destruct (Z_lt_le_dec (Z.of_nat k) (start t)) as [Hbefore|Hge].
    + (* before the token: the dot that was left out *)
      destruct Hs as [Hs|(Hpf & H0 & Hd & Hs)]; [lia|].
      assert (cur = Z.of_nat k) by lia. subst cur. rewrite Nat2Z.id in Hd.
      right. split; [exact Hd|]. left. now split.
    + destruct (Z_lt_le_dec (Z.of_nat k) (end_ t)) as [Hin|Hafter].
      * left. exists t. split; [now left|]. unfold inSpan. lia.
      * destruct (IH k ltac:(lia)) as [(t' & Hin' & Hsp) | (Hd & [(Hf & He) | (t' & Hin' & Hf & He)])].
        -- left. exists t'. split; [now right|exact Hsp].
        -- right. split; [exact Hd|]. right. exists t. repeat split; [now left|assumption..].
        -- right. split; [exact Hd|]. right. exists t'. repeat split; [now right|assumption..].
Qed.

Lemma ordered_unique (tokens : list Token) :
  (forall i j a b, i < j -> nth_error tokens i = Some a -> nth_error tokens j = Some b ->
                   (start a < start b /\ end_ a <= start b)%Z) ->
  forall k i j a b, nth_error tokens i = Some a -> nth_error tokens j = Some b ->
                    inSpan k a -> inSpan k b -> j = i.
Proof.
  intros Hord k i j a b Ha Hb Hka Hkb. unfold inSpan in *.
  destruct (Nat.lt_trichotomy i j) as [Hlt|[Heq|Hgt]]; [|now symmetry|].
  - pose proof (Hord i j a b Hlt Ha Hb). lia.
  - pose proof (Hord j i b a Hgt Hb Ha). lia.
Qed.

(** Tokens with the same start offset are the same token. *)
Lemma tokenize_start_unique formula a b :
  In a (tokenizeFormula (VString formula)) ->
  In b (tokenizeFormula (VString formula)) ->
  start a = start b -> a = b.
Proof.
  intros Ha Hb Hs.
  destruct (tokenizeFormula_chain formula) as [ff Hch].
  pose proof (Chain_ordered _ _ _ _ _ _ Hch) as Hord.
  apply In_nth_error in Ha, Hb. destruct Ha as [i Ha], Hb as [j Hb].
  destruct (Nat.lt_trichotomy i j) as [Hlt|[Heq|Hgt]].
  - pose proof (Hord i j a b Hlt Ha Hb). lia.
  - subst j. congruence.
  - pose proof (Hord j i b a Hgt Hb Ha). lia.
Qed.

(** * The claims *)

(** ** C1 *)

(** C1, as stated, fails: the pretty-printer does not return
    ["IF(a = 1, TRUE, FALSE)"] for ["if(a=1,true,false)"]. *)
Lemma prettify_example_no_space_fails :
  prettifySalesforceFormula (VString (js "if(a=1,true,false)"))
  <> VString (js "IF(a = 1, TRUE, FALSE)").
Proof. vm_compute. discriminate. Qed.

(** C1 (amended): [prettify("if(a=1,true,false)")] is exactly
    ["IF (a = 1, TRUE, FALSE)"]: function name and constants uppercased,
    operator and commas spaced, and one space before the opening
    parenthesis, which the last pass writes as [" ("]. *)
Theorem prettify_example :
  prettifySalesforceFormula (VString (js "if(a=1,true,false)"))
  = VString (js "IF (a = 1, TRUE, FALSE)").
Proof. vm_compute. reflexivity. Qed.

(** ** C2 *)

(** C2, as stated, fails: on ["[a].[b]..[c]"] the nested-field token ends
    at offset 8, the dot at offset 8 is left out by the dot rule, and the
    next token starts at offset 9. *)
Lemma partition_broken_by_dropped_dot :
  ~ totalPartition (js "[a].[b]..[c]") (tokenizeFormula (VString (js "[a].[b]..[c]"))).
Proof.
  assert (E : tokenizeFormula (VString (js "[a].[b]..[c]"))
              = [mkToken NESTED_FIELD (js "[a].[b]") 0 8; mkToken FIELD (js "[c]") 9 12])
    by (vm_compute; reflexivity).
  rewrite E. intros [_ H].
  destruct (H 8) as (i & (t & Ht & Hs) & _).
  - apply Nat.ltb_lt. reflexivity.
  - unfold inSpan in Hs.
    destruct i as [|[|[|i]]]; simpl in Ht; inversion Ht; subst t; simpl in Hs; lia.
Qed.

(** C2 (amended): for every input string the tokens have strictly
    increasing starts and non-overlapping, non-empty spans inside the
    input, and every code unit of the input lies in the span of exactly
    one token, except that a [.] directly after the end of a field or
    nested-field token may lie in none. *)
Theorem tokenize_partition_up_to_dots :
  forall formula : jsstring,
    let tokens := tokenizeFormula (VString formula) in
    (forall i j a b, i < j -> nth_error tokens i = Some a -> nth_error tokens j = Some b ->
                     (start a < start b /\ end_ a <= start b)%Z)
    /\ Forall (fun t => (0 <= start t < end_ t /\ end_ t <= Z.of_nat (length formula))%Z) tokens
    /\ forall k, k < length formula ->
         (exists i, (exists t, nth_error tokens i = Some t /\ inSpan (Z.of_nat k) t)
                    /\ forall j t, nth_error tokens j = Some t -> inSpan (Z.of_nat k) t -> j = i)
         \/ dotAfterField formula tokens k.
Proof.
  intros formula tokens. subst tokens.
  destruct (tokenizeFormula_chain formula) as [ff Hch].
  pose proof (Chain_ordered _ _ _ _ _ _ Hch) as Hord.
  split; [exact Hord|]. split; [apply (Chain_bounds _ _ _ _ _ _ Hch)|].
  intros k Hk.
  destruct (Chain_cover _ _ _ _ _ _ Hch k ltac:(lia))
    as [(t & Hin & Hsp) | (Hd & [(Hf & _) | Hex])].
  - left. apply In_nth_error in Hin. destruct Hin as [i Hi].
    exists i. split; [now exists t|].
    intros j t' Hj Hsp'. eapply ordered_unique; eauto.
  - discriminate.
  - right. now split.
Qed.

Lemma tokenize_partition_up_to_dots_witness :
  (exists i, (exists t, nth_error (tokenizeFormula (VString (js "[a].[b]..[c]"))) i = Some t
                        /\ inSpan 8 t)
             /\ forall j t, nth_error (tokenizeFormula (VString (js "[a].[b]..[c]"))) j = Some t ->
                            inSpan 8 t -> j = i)
  \/ dotAfterField (js "[a].[b]..[c]") (tokenizeFormula (VString (js "[a].[b]..[c]"))) 8.
Proof.
  apply (proj2 (proj2 (tokenize_partition_up_to_dots (js "[a].[b]..[c]"))) 8).
  apply Nat.ltb_lt. reflexivity.
Defined.

(** ** C3 *)

(** C3: chained bracketed references give one [nested_field] token, a
    bracketed reference with a dot inside gives one [nested_field] token,
    and a plain bracketed reference gives one [field] token. *)
Theorem tokenize_field_examples :
  tokenizeFormula (VString (js "[Account].[Owner].[Name]"))
  = [mkToken NESTED_FIELD (js "[Account].[Owner].[Name]") 0 24]
  /\ tokenizeFormula (VString (js "[Account.Name]"))
     = [mkToken NESTED_FIELD (js "[Account.Name]") 0 14]
  /\ tokenizeFormula (VString (js "[Name]")) = [mkToken FIELD (js "[Name]") 0 6].
Proof. repeat split; vm_compute; reflexivity. Qed.

(** ** C4 *)

(** C4: one unmatched opening parenthesis is reported once, as a syntax
    error at [length - 1]; an extra closing parenthesis is reported once,
    as a syntax error at the start of that [)] token. *)
Theorem detectErrors_parenthesis_examples :
  forall U : jsstring -> jsstring,
    detectFormulaErrors U (VString (js "IF(1,2,3"))
    = [mkError (Z.of_nat (length (js "IF(1,2,3")) - 1)
               (js "1 unmatched opening parenthesis") syntax]
    /\ detectFormulaErrors U (VString (js "IF(1,2,3))"))
       = [mkError 9 (js "Unmatched closing parenthesis") syntax]
    /\ nth_error (tokenizeFormula (VString (js "IF(1,2,3))"))) 8
       = Some (mkToken PARENTHESIS (js ")") 9 10)
    /\ length (tokenizeFormula (VString (js "IF(1,2,3))"))) = 9.
Proof. intros U. repeat split; vm_compute; reflexivity. Qed.

(** ** C9 *)



(** ** C10 *)

(** C10: every turn of the main loop moves the cursor strictly forward
    and not past the end of the input; hence a number of turns equal to
    the remaining length is always enough, and the tokenizer returns on
    every string. *)
Theorem tokenize_terminates :
  forall formula : jsstring,
    (forall position tokens char,
        nth_error formula position = Some char ->
        position < fst (scanToken formula position tokens char) <= length formula)
    /\ (forall fuel position tokens,
           length formula - position <= fuel ->
           exists toks, tokenizeLoop fuel formula position tokens = Some toks)
    /\ exists toks, tokenizeString formula = Some toks.
Proof.
  intros formula. split; [|split].
  - intros position tokens char Hc.
    apply (scanToken_outcome formula position tokens char Hc).
  - intros fuel position tokens Hf. now apply tokenizeLoop_total.
  - apply tokenizeString_total.
Qed.

Lemma tokenize_terminates_witness :
  0 < fst (scanToken (js "[a] .[b]+1") 0 [] (ch "[")) <= length (js "[a] .[b]+1")
  /\ exists toks, tokenizeLoop 10 (js "[a] .[b]+1") 0 [] = Some toks.
Proof.
  destruct (tokenize_terminates (js "[a] .[b]+1")) as (H1 & H2 & _).
  split.
  - apply H1. reflexivity.
  - apply H2. apply Nat.leb_le. reflexivity.
Defined.

(** ** Classifier lemmas *)

Lemma kind_eqb_eq a b : kind_eqb a b = true <-> a = b.
Proof. split; [destruct a, b; simpl; congruence | intros ->; destruct b; reflexivity]. Qed.

Lemma jseq_eq a b : jseq a b = true -> a = b.
Proof.
  revert b. induction a as [|x a IH]; intros [|y b] H; simpl in H; try discriminate.
  - reflexivity.
  - apply andb_prop in H. destruct H as [Hx Hr]. apply N.eqb_eq in Hx.
    f_equal; [assumption|now apply IH].
Qed.

Lemma includes_In l x : includes l x = true -> In x l.
Proof.
  unfold includes. intros H. apply existsb_exists in H.
  destruct H as (y & Hin & Hy). apply jseq_eq in Hy. now subst.
Qed.

(** The keyword tables hold upper-case ASCII names only. *)
Lemma keyword_upper U name :
  In name (allFunctions ++ SF_KEYWORDS.constants) -> toUpperCase U name = name.
Proof.
  assert (H : forallb (fun y => isAscii y && jseq (asciiToUpperCase y) y)%bool
                      (allFunctions ++ SF_KEYWORDS.constants) = true)
    by (vm_compute; reflexivity).
  rewrite forallb_forall in H. intros Hin. apply H in Hin.
  apply andb_prop in Hin. destruct Hin as [Ha He].
  unfold toUpperCase. rewrite Ha. now apply jseq_eq.
Qed.

Lemma mapFrom_length {A B} (f : A -> nat -> B) l : forall k, length (mapFrom f k l) = length l.
Proof. induction l as [|x l IH]; intros k; simpl; [reflexivity|now rewrite IH]. Qed.

Lemma mapFrom_nth_error {A B} (f : A -> nat -> B) l :
  forall k i, nth_error (mapFrom f k l) i = option_map (fun x => f x (k + i)) (nth_error l i).
Proof.
  induction l as [|x l IH]; intros k [|i]; simpl; try reflexivity.
  - now rewrite Nat.add_0_r.
  - rewrite IH. now rewrite Nat.add_succ_r.
Qed.

Lemma mapFrom_skipn {A B} (f : A -> nat -> B) l :
  forall k n, skipn n (mapFrom f k l) = mapFrom f (k + n) (skipn n l).
Proof.
  induction l as [|x l IH]; intros k [|n]; simpl; try reflexivity.
  - now rewrite Nat.add_0_r.
  - rewrite IH. now rewrite Nat.add_succ_r.
Qed.

(** What the classifier does to one token. *)
Lemma classifyToken_cases U tokens token index :
  let token' := classifyToken U tokens token index in
  (token' = token
   \/ (type token = IDENTIFIER
       /\ ((token' = setTypeValue token FUNCTION (toUpperCase U (value token))
            /\ In (toUpperCase U (value token)) allFunctions)
           \/ (token' = setTypeValue token CONSTANT (toUpperCase U (value token))
               /\ In (toUpperCase U (value token)) SF_KEYWORDS.constants)
           \/ token' = setType token CUSTOM_FUNCTION
           \/ token' = setType token FORMULA_FIELD))).
Proof.
  unfold classifyToken.
  destruct (kind_eqb (type token) IDENTIFIER) eqn:Hk; [|now left].
  apply kind_eqb_eq in Hk.
  destruct (includes allFunctions (toUpperCase U (value token))) eqn:Hf.
  { right. split; [assumption|]. left. split; [reflexivity|now apply includes_In]. }
  destruct (includes SF_KEYWORDS.constants (toUpperCase U (value token))) eqn:Hc.
  { right. split; [assumption|]. right. left. split; [reflexivity|now apply includes_In]. }
  destruct (startsLower (value token) && followedByParen (skipn (index + 1) tokens))%bool.
  { right. split; [assumption|]. right. right. now left. }
  destruct (includesChar (value token) (ch "_") && looksLikeFieldName (value token))%bool.
  { right. split; [assumption|]. right. right. now right. }
  now left.
Qed.

Lemma classifyToken_frame U tokens token index :
  let token' := classifyToken U tokens token index in
  start token' = start token /\ end_ token' = end_ token
  /\ (type token <> IDENTIFIER -> token' = token)
  /\ sameIgnoringCase U (value token') (value token).
Proof.
  intros token'. subst token'.
  destruct (classifyToken_cases U tokens token index)
    as [-> | (Hk & [(-> & Hin) | [(-> & Hin) | [-> | ->]]])];
    unfold sameIgnoringCase; simpl; repeat split; try reflexivity; try congruence.
  - apply keyword_upper. apply in_or_app. now left.
  - apply keyword_upper. apply in_or_app. now right.
Qed.

(** Classification never makes or unmakes a whitespace token or an
    opening parenthesis, so the look-ahead sees the same thing before and
    after. *)
Lemma classifyToken_lookahead U tokens token index :
  let token' := classifyToken U tokens token index in
  kind_eqb (type token') WHITESPACE = kind_eqb (type token) WHITESPACE
  /\ isOpenParen token' = isOpenParen token.
Proof.
  intros token'. subst token'.
  destruct (classifyToken_cases U tokens token index)
    as [-> | (Hk & [(-> & _) | [(-> & _) | [-> | ->]]])];
    unfold isOpenParen; simpl; try rewrite Hk; split; reflexivity.
Qed.

Lemma followedByParen_classified U tokens l :
  forall k, followedByParen (mapFrom (classifyToken U tokens) k l) = followedByParen l.
Proof.
  induction l as [|t l IH]; intros k; simpl; [reflexivity|].
  destruct (classifyToken_lookahead U tokens t k) as [-> ->].
  now rewrite IH.
Qed.

Lemma classifyToken_again U tokens token index :
  classifyToken U (classifyTokens U tokens) (classifyToken U tokens token index) index
  = classifyToken U tokens token index.
Proof.
  assert (Hla : followedByParen (skipn (index + 1) (classifyTokens U tokens))
                = followedByParen (skipn (index + 1) tokens)).
  { unfold classifyTokens, mapIndexed. rewrite mapFrom_skipn.
    apply followedByParen_classified. }
  destruct (classifyToken_cases U tokens token index)
    as [E | (Hk & [(E & _) | [(E & _) | [E | E]]])];
    rewrite E; try reflexivity.
  (* the token was left as it was: the same tests fail again *)
  unfold classifyToken in E |- *. rewrite Hla.
  destruct (kind_eqb (type token) IDENTIFIER); [|reflexivity].
  destruct (includes allFunctions (toUpperCase U (value token))); [exact E|].
  destruct (includes SF_KEYWORDS.constants (toUpperCase U (value token))); [exact E|].
  destruct (startsLower (value token) && followedByParen (skipn (index + 1) tokens))%bool;
    [exact E|].
  destruct (includesChar (value token) (ch "_") && looksLikeFieldName (value token))%bool;
    [exact E|].
  reflexivity.
Qed.

Lemma mapFrom_classify_again U tokens l :
  forall k,
    mapFrom (classifyToken U (classifyTokens U tokens)) k (mapFrom (classifyToken U tokens) k l)
    = mapFrom (classifyToken U tokens) k l.
Proof.
  induction l as [|t l IH]; intros k; simpl; [reflexivity|].
  rewrite classifyToken_again. f_equal. apply IH.
Qed.

(** ** C6 *)

(** C6: the classifier returns as many tokens as it is given; every token
    keeps its start and end offsets; a token whose kind is not identifier
    is returned unchanged; and the value of every token is the original
    one up to letter case. *)
Theorem classify_frame :
  forall (U : jsstring -> jsstring) (tokens : list Token),
    length (classifyTokens U tokens) = length tokens
    /\ forall i t t',
         nth_error tokens i = Some t ->
         nth_error (classifyTokens U tokens) i = Some t' ->
         start t' = start t /\ end_ t' = end_ t
         /\ (type t <> IDENTIFIER -> t' = t)
         /\ sameIgnoringCase U (value t') (value t).
Proof.
  intros U tokens. split; [apply mapFrom_length|].
  intros i t t' Ht Ht'.
  unfold classifyTokens, mapIndexed in Ht'.
  rewrite mapFrom_nth_error, Ht in Ht'. simpl in Ht'. inversion Ht'; subst t'.
  apply classifyToken_frame.
Qed.

Lemma classify_frame_witness :
  let tokens := tokenizeFormula (VString (js "if(x)")) in
  let t := mkToken IDENTIFIER (js "if") 0 2 in
  let t' := mkToken FUNCTION (js "IF") 0 2 in
  start t' = start t /\ end_ t' = end_ t
  /\ (type t <> IDENTIFIER -> t' = t)
  /\ sameIgnoringCase (fun s => s) (value t') (value t).
Proof.
  apply (proj2 (classify_frame (fun s => s) (tokenizeFormula (VString (js "if(x)")))) 0);
    vm_compute; reflexivity.
Defined.

(** ** C7 *)

(** C7: classifying an already classified sequence changes nothing. *)
Theorem classify_idempotent :
  forall (U : jsstring -> jsstring) (tokens : list Token),
    classifyTokens U (classifyTokens U tokens) = classifyTokens U tokens.
Proof.
  intros U tokens.
  change (mapFrom (classifyToken U (classifyTokens U tokens)) 0
                  (mapFrom (classifyToken U tokens) 0 tokens)
          = mapFrom (classifyToken U tokens) 0 tokens).
  apply mapFrom_classify_again.
Qed.

(** ** Error detector lemmas *)

Lemma followedByParen_next rest :
  followedByParen rest
  = match nextNonWhitespace rest with Some n => isOpenParen n | None => false end.
Proof.
  induction rest as [|t rest IH]; simpl; [reflexivity|].
  destruct (kind_eqb (type t) WHITESPACE); [exact IH|reflexivity].
Qed.

Lemma filter_snoc_syntax l p m :
  filter isFunctionError (l ++ [mkError p m syntax]) = filter isFunctionError l.
Proof. rewrite filter_app. simpl. apply app_nil_r. Qed.

(** One turn of the detector's loop adds the function error that the
    specification's rule asks for, and no other function error. *)
Lemma detectStep_function_errors U tokens st i token :
  filter isFunctionError (errors (detectStep U tokens st i token))
  = filter isFunctionError (errors st)
    ++ (if flaggedBySpec U token (skipn (i + 1) tokens) then [invalidFunction token] else []).
Proof.
  unfold detectStep, flaggedBySpec. rewrite <- followedByParen_next.
  destruct (kind_eqb (type token) IDENTIFIER) eqn:Hid.
  - (* an identifier is neither a parenthesis nor a bracket *)
    apply kind_eqb_eq in Hid. rewrite Hid. cbn [kind_eqb andb].
    rewrite <- !andb_assoc. 
    destruct (followedByParen (skipn (i + 1) tokens)
              && (negb (includes allFunctions (toUpperCase U (value token)))
                  && startsUpper (value token)))%bool.
    + cbn [errors]. rewrite filter_app. reflexivity.
    + now rewrite app_nil_r.
  - cbn [andb]. rewrite app_nil_r.
    destruct (kind_eqb (type token) PARENTHESIS), (kind_eqb (type token) BRACKET),
      (jseq (value token) (js "(")), (jseq (value token) (js ")")),
      (jseq (value token) (js "[")), (jseq (value token) (js "]"));
      cbn [errors openParens openBrackets];
      repeat match goal with |- context [if ?c then _ else _] => destruct c end;
      rewrite ?filter_snoc_syntax; reflexivity.
Qed.

Lemma skipn_tail {A} (l : list A) i x rest : skipn i l = x :: rest -> skipn (i + 1) l = rest.
Proof.
  revert i. induction l as [|y l IH]; intros [|i] H; simpl in *; try discriminate.
  - now inversion H.
  - now apply IH.
Qed.

Lemma detectLoop_function_errors U tokens todo :
  forall st i,
    skipn i tokens = todo ->
    filter isFunctionError (errors (detectLoop U tokens st i todo))
    = filter isFunctionError (errors st) ++ invalidFunctionErrors U todo.
Proof.
  induction todo as [|token todo IH]; intros st i Hs; simpl.
  - now rewrite app_nil_r.
  - rewrite IH by (rewrite <- Nat.add_1_r; eapply skipn_tail; eauto).
    rewrite detectStep_function_errors, (skipn_tail _ _ _ _ Hs), <- app_assoc. reflexivity.
Qed.

Lemma detect_function_errors U formula :
  filter isFunctionError (detectFormulaErrors U formula)
  = invalidFunctionErrors U (tokenizeFormula formula).
Proof.
  unfold detectFormulaErrors.
  destruct (usable formula) as [s|] eqn:Hu.
  - pose proof (detectLoop_function_errors U (tokenizeFormula formula)
                  (tokenizeFormula formula) (mkDetect 0 0 []) 0 eq_refl) as H.
    simpl in H.
    repeat match goal with |- context [if ?c then _ else _] => destruct c end;
      rewrite ?filter_snoc_syntax; exact H.
  - unfold tokenizeFormula. rewrite Hu. reflexivity.
Qed.

Lemma invalidFunctionErrors_In U e tokens :
  In e (invalidFunctionErrors U tokens) <->
  exists i t, nth_error tokens i = Some t
              /\ flaggedBySpec U t (skipn (S i) tokens) = true
              /\ e = invalidFunction t.
Proof.
  induction tokens as [|t rest IH]; simpl.
  - split; [contradiction|]. intros (i & t & H & _). destruct i; discriminate.
  - rewrite in_app_iff, IH. split.
    + intros [H | (i & t' & Hn & Hf & He)].
      * destruct (flaggedBySpec U t rest) eqn:Hf; [|contradiction].
        destruct H as [<-|[]]. exists 0, t. now repeat split.
      * exists (S i), t'. now repeat split.
    + intros ([|i] & t' & Hn & Hf & He); simpl in Hn, Hf.
      * inversion Hn; subst t'. left. rewrite Hf. now left.
      * right. exists i, t'. now repeat split.
Qed.

Lemma upper_not_lower s : startsUpper s = true -> startsLower s = true -> False.
Proof.
  destruct s as [|c s]; simpl; [discriminate|].
  unfold isUpper, isLower, inRange. intros H1 H2.
  apply andb_prop in H1, H2. destruct H1 as [_ H1], H2 as [H2 _].
  apply N.leb_le in H1, H2. lia.
Qed.

Lemma flaggedBySpec_upper U t rest : flaggedBySpec U t rest = true -> startsUpper (value t) = true.
Proof. unfold flaggedBySpec. intros H. now apply andb_prop in H. Qed.

(** ** C5 *)

(** C5: the function-kind errors of the detector are, in order, exactly
    the errors "Invalid function: <value>" of the identifier tokens whose
    next non-whitespace token is [(], whose upper-case form is not in the
    function table and whose first character is an upper-case letter;
    ["FOO(1)"] gives exactly one such error; and an identifier that
    starts with a lower-case letter is never flagged. *)
Theorem detectErrors_invalid_function :
  forall U : jsstring -> jsstring,
    (forall formula : JSValue,
        filter isFunctionError (detectFormulaErrors U formula)
        = invalidFunctionErrors U (tokenizeFormula formula))
    /\ (forall (s : jsstring) i t,
           nth_error (tokenizeFormula (VString s)) i = Some t ->
           (In (invalidFunction t) (detectFormulaErrors U (VString s))
            <-> flaggedBySpec U t (skipn (S i) (tokenizeFormula (VString s))) = true))
    /\ detectFormulaErrors U (VString (js "FOO(1)"))
       = [mkError 0 (js "Invalid function: FOO") function]
    /\ (forall (s : jsstring) t e,
           In t (tokenizeFormula (VString s)) ->
           type t = IDENTIFIER ->
           startsLower (value t) = true ->
           In e (detectFormulaErrors U (VString s)) ->
           err_type e = function ->
           err_position e <> start t).
Proof.
  intros U.
  assert (Hmem : forall s e, err_type e = function ->
            (In e (detectFormulaErrors U (VString s))
             <-> In e (invalidFunctionErrors U (tokenizeFormula (VString s))))).
  { intros s e He. rewrite <- detect_function_errors, filter_In.
    unfold isFunctionError. rewrite He. tauto. }
  split; [apply detect_function_errors|]. split; [|split].
  - intros s i t Ht. rewrite (Hmem s (invalidFunction t) eq_refl), invalidFunctionErrors_In. split.
    + intros (j & t' & Hj & Hf & He).
      assert (t' = t).
      { apply (tokenize_start_unique s); [eapply nth_error_In; eauto..|].
        now inversion He. }
      subst t'.
      assert (j = i); [|now subst j].
      destruct (tokenizeFormula_chain s) as [ff Hch].
      pose proof (Chain_ordered _ _ _ _ _ _ Hch) as Hord.
      destruct (Nat.lt_trichotomy i j) as [Hlt|[Heq|Hgt]]; [|now symmetry|].
      * pose proof (Hord i j t t Hlt Ht Hj). lia.
      * pose proof (Hord j i t t Hgt Hj Ht). lia.
    + intros Hf. exists i, t. now repeat split.
  - vm_compute. reflexivity.
  - intros s t e Hin Hty Hlow He Hk Hpos.
    apply (Hmem s e Hk) in He. apply invalidFunctionErrors_In in He.
    destruct He as (j & t' & Hj & Hf & ->). simpl in Hpos.
    assert (t' = t) by (apply (tokenize_start_unique s); [eapply nth_error_In; eauto| |]; auto).
    subst t'. apply flaggedBySpec_upper in Hf.
    exact (upper_not_lower _ Hf Hlow).
Qed.

Lemma detectErrors_invalid_function_witness :
  (In (invalidFunction (mkToken IDENTIFIER (js "Foo") 0 3))
      (detectFormulaErrors (fun s => s) (VString (js "Foo (bar(1))")))
   <-> flaggedBySpec (fun s => s) (mkToken IDENTIFIER (js "Foo") 0 3)
         (skipn 1 (tokenizeFormula (VString (js "Foo (bar(1))")))) = true)
  /\ forall e,
       In e (detectFormulaErrors (fun s => s) (VString (js "Foo (bar(1))"))) ->
       err_type e = function ->
       err_position e <> start (mkToken IDENTIFIER (js "bar") 5 8).
Proof.
  destruct (detectErrors_invalid_function (fun s => s)) as (_ & H2 & _ & H4).
  split.
  - apply (H2 (js "Foo (bar(1))") 0). vm_compute. reflexivity.
  - intros e. apply (H4 (js "Foo (bar(1))")).
    + vm_compute. right. right. right. left. reflexivity.
    + reflexivity.
    + reflexivity.
Defined.

(** ** Pretty-printer lemmas *)

(** *** Engine *)

Lemma replaceFrom_scan m skip prev s :
  replaceFrom (fun _ => m) skip prev s = scan m skip s.
Proof.
  revert skip prev. induction s as [|c s IH]; intros skip prev; simpl.
  - reflexivity.
  - destruct skip; [|apply IH].
    destruct (m (c :: s)) as [[[|n] r]|]; now rewrite IH.
Qed.

Lemma scan_skip m xs ys : scan m (length xs) (xs ++ ys) = scan m 0 ys.
Proof. induction xs as [|x xs IH]; simpl; [reflexivity|exact IH]. Qed.

(** *** Reps *)

Lemma gapOk_app g h : gapOk g -> gapOk h -> gapOk (g ++ h).
Proof. unfold gapOk. intros Hg Hh. now rewrite forallb_app, Hg, Hh. Qed.

Lemma gapOk_cons c g : gapOk (c :: g) <-> isHSpace c = true /\ gapOk g.
Proof. unfold gapOk. simpl. now rewrite andb_true_iff. Qed.

Lemma parseFrom_render g s : render (parseFrom g s) = g ++ s.
Proof.
  revert g. induction s as [|c s IH]; intros g; simpl.
  - now rewrite app_nil_r.
  - destruct (isHSpace c).
    + rewrite IH, <- app_assoc. reflexivity.
    + unfold render in *. simpl. specialize (IH []). simpl in IH. now rewrite IH.
Qed.

Lemma parseFrom_ok g s : gapOk g -> repOk (parseFrom g s).
Proof.
  revert g. induction s as [|c s IH]; intros g Hg; simpl.
  - split; [constructor|exact Hg].
  - destruct (isHSpace c) eqn:Hc.
    + apply IH. apply gapOk_app; [exact Hg|]. apply gapOk_cons. now split.
    + destruct (IH [] eq_refl) as [H1 H2]. split; simpl; [|exact H2].
      constructor; [now split|exact H1].
Qed.

Lemma parse_render s : render (parse s) = s.
Proof. apply parseFrom_render. Qed.

Lemma parse_ok s : repOk (parse s).
Proof. now apply parseFrom_ok. Qed.

Lemma hspaces_gap g c rest :
  gapOk g -> isHSpace c = false -> hspaces (g ++ c :: rest) = length g.
Proof.
  unfold hspaces. induction g as [|h g IH]; intros Hg Hc; simpl.
  - now rewrite Hc.
  - apply gapOk_cons in Hg. destruct Hg as [Hh Hg]. rewrite Hh. simpl. now rewrite IH.
Qed.

Lemma hspaces_all g : gapOk g -> hspaces g = length g.
Proof.
  unfold hspaces. induction g as [|h g IH]; intros Hg; simpl; [reflexivity|].
  apply gapOk_cons in Hg. destruct Hg as [Hh Hg]. rewrite Hh. simpl. now rewrite IH.
Qed.

Lemma render_head items tail :
  renderItems items tail = headGap items tail ++ afterGap items tail.
Proof. destruct items as [|[g c] r]; simpl; [now rewrite app_nil_r|reflexivity]. Qed.

Lemma hspaces_render items tail :
  Forall itemOk items -> gapOk tail ->
  hspaces (renderItems items tail) = length (headGap items tail).
Proof.
  intros Hi Ht. destruct items as [|[g c] r]; simpl.
  - now apply hspaces_all.
  - inversion Hi as [|? ? [Hg Hc] Hr]; subst. now apply hspaces_gap.
Qed.

(** *** The pass [/[ \t]*c[ \t]*/g] *)

Section Around.
Variable p : N -> bool.
Variables pre suf : jsstring.
Hypothesis p_not_space : forall c, p c = true -> isHSpace c = false.

Let m := reAround p (fun c => pre ++ c :: suf) None.

Lemma around_at g c rest :
  gapOk g -> isHSpace c = false ->
  m (g ++ c :: rest)
  = if p c then Some (length g + 1 + hspaces rest, pre ++ c :: suf) else None.
Proof.
  intros Hg Hc. unfold m, reAround. rewrite (hspaces_gap g c rest Hg Hc).
  rewrite skipn_app, skipn_all, Nat.sub_diag. reflexivity.
Qed.

Lemma around_miss_gap g c rest :
  gapOk g -> isHSpace c = false -> p c = false ->
  scan m 0 (g ++ c :: rest) = g ++ c :: scan m 0 rest.
Proof.
  intros Hg Hc Hp. induction g as [|h g IH].
  - pose proof (around_at [] c rest eq_refl Hc) as Hm. rewrite Hp in Hm.
    cbn [app] in Hm |- *. cbn [scan]. now rewrite Hm.
  - pose proof (around_at (h :: g) c rest Hg Hc) as Hm. rewrite Hp in Hm.
    apply gapOk_cons in Hg. destruct Hg as [Hh Hg].
    cbn [app] in Hm |- *. cbn [scan]. rewrite Hm. now rewrite IH.
Qed.

Lemma around_hit g c items tail :
  gapOk g -> isHSpace c = false -> p c = true ->
  Forall itemOk items -> gapOk tail ->
  scan m 0 (g ++ c :: renderItems items tail)
  = pre ++ c :: suf ++ scan m 0 (afterGap items tail).
Proof.
  intros Hg Hc Hp Hi Ht.
  pose proof (around_at g c (renderItems items tail) Hg Hc) as Hm.
  rewrite Hp, (hspaces_render items tail Hi Ht) in Hm.
  rewrite render_head in Hm |- *.
  destruct g as [|h g]; cbn [app] in Hm |- *; cbn [scan]; rewrite Hm.
  - cbn [length Nat.add]. rewrite scan_skip.
    rewrite <- app_assoc. reflexivity.
  - replace (length (h :: g) + 1 + length (headGap items tail))
      with (S (length (g ++ c :: headGap items tail)))
      by (rewrite length_app; simpl; lia).
    replace (g ++ c :: headGap items tail ++ afterGap items tail)
      with ((g ++ c :: headGap items tail) ++ afterGap items tail)
      by (rewrite <- app_assoc; reflexivity).
    rewrite scan_skip. rewrite <- app_assoc. reflexivity.
Qed.

Lemma around_tail tail : gapOk tail -> scan m 0 tail = tail.
Proof.
  intros Ht. induction tail as [|h t IH]; simpl.
  - unfold m, reAround. reflexivity.
  - pose proof Ht as Ht'. apply gapOk_cons in Ht'. destruct Ht' as [Hh Ht'].
    unfold m at 1, reAround. rewrite (hspaces_all (h :: t) Ht).
    rewrite skipn_all. now rewrite IH.
Qed.

Lemma around_items items tail :
  Forall itemOk items -> gapOk tail ->
  forall prev,
    (holds p prev = false ->
     scan m 0 (renderItems items tail)
     = renderItems (mapGaps (fst (aroundPass p pre suf)) prev items)
                   (snd (aroundPass p pre suf) (lastChar prev items) tail))
    /\ (holds p prev = true ->
        suf ++ scan m 0 (afterGap items tail)
        = renderItems (mapGaps (fst (aroundPass p pre suf)) prev items)
                      (snd (aroundPass p pre suf) (lastChar prev items) tail)).
Proof.
  intros Hi Ht. induction Hi as [|[g c] r [Hg Hc] Hr IH]; intros prev.
  - simpl. split; intros Hprev; rewrite Hprev.
    + now apply around_tail.
    + unfold m, reAround. simpl. now rewrite app_nil_r.
  - simpl in Hg, Hc. cbn [mapGaps lastChar renderItems afterGap aroundPass fst snd].
    destruct (IH (Some c)) as [IHa IHb]. cbn [aroundPass fst snd] in IHa, IHb.
    destruct (p c) eqn:Hp.
    + (* the code unit is matched *)
      specialize (IHb Hp).
      split; intros Hprev; rewrite Hprev.
      * rewrite (around_hit g c r tail Hg Hc Hp Hr Ht).
        rewrite <- IHb. cbn [app]. reflexivity.
      * pose proof (around_hit [] c r tail eq_refl Hc Hp Hr Ht) as H. cbn [app] in H.
        cbn [afterGap]. rewrite H. rewrite <- IHb. rewrite <- !app_assoc. reflexivity.
    + specialize (IHa Hp).
      split; intros Hprev; rewrite Hprev.
      * rewrite (around_miss_gap g c _ Hg Hc Hp). now rewrite IHa.
      * pose proof (around_miss_gap [] c (renderItems r tail) eq_refl Hc Hp) as H.
        cbn [app] in H. cbn [afterGap]. rewrite H. now rewrite IHa.
Qed.

Lemma around_rep r :
  repOk r ->
  scan m 0 (render r) = render (mapRep (aroundPass p pre suf) r).
Proof.
  intros [Hi Ht]. destruct r as [items tail]. simpl in *.
  apply (around_items items tail Hi Ht None). reflexivity.
Qed.

End Around.

(** *** The pass [/[ \t]+/g] *)

Lemma collapse_at g c rest :
  gapOk g -> isHSpace c = false ->
  reHSpaces (js " ") None (g ++ c :: rest)
  = match g with [] => None | _ => Some (length g, js " ") end.
Proof.
  intros Hg Hc. unfold reHSpaces. rewrite (hspaces_gap g c rest Hg Hc).
  destruct g; reflexivity.
Qed.

Lemma collapse_gap g c rest :
  gapOk g -> isHSpace c = false ->
  scan (reHSpaces (js " ") None) 0 (g ++ c :: rest)
  = collapseGap g ++ c :: scan (reHSpaces (js " ") None) 0 rest.
Proof.
  intros Hg Hc. pose proof (collapse_at g c rest Hg Hc) as Hm.
  destruct g as [|h g]; cbn [app] in Hm |- *; cbn [scan]; rewrite Hm.
  - reflexivity.
  - cbn [length collapseGap].
    pose proof (scan_skip (reHSpaces (js " ") None) g (c :: rest)) as Hs.
    rewrite Hs.
    pose proof (collapse_at [] c rest eq_refl Hc) as Hm0. cbn [app] in Hm0.
    cbn [scan]. rewrite Hm0. reflexivity.
Qed.

Lemma collapse_tail tail :
  gapOk tail -> scan (reHSpaces (js " ") None) 0 tail = collapseGap tail.
Proof.
  intros Ht. destruct tail as [|h t]; [reflexivity|].
  cbn [scan]. unfold reHSpaces at 1. rewrite (hspaces_all (h :: t) Ht).
  cbn [length collapseGap].
  pose proof (scan_skip (reHSpaces (js " ") None) t []) as Hs.
  rewrite app_nil_r in Hs. rewrite Hs. reflexivity.
Qed.

Lemma mapGaps_collapse prev items :
  mapGaps (fst collapsePass) prev items = map (fun i => (collapseGap (fst i), snd i)) items.
Proof.
  revert prev. induction items as [|[g c] r IH]; intros prev; simpl; [reflexivity|].
  now rewrite IH.
Qed.

Lemma collapse_items items tail :
  Forall itemOk items -> gapOk tail ->
  forall prev,
    scan (reHSpaces (js " ") None) 0 (renderItems items tail)
    = renderItems (mapGaps (fst collapsePass) prev items) (collapseGap tail).
Proof.
  intros Hi Ht. induction Hi as [|[g c] r [Hg Hc] Hr IH]; intros prev; simpl.
  - now apply collapse_tail.
  - simpl in Hg, Hc. rewrite (collapse_gap g c _ Hg Hc). now rewrite (IH (Some c)).
Qed.

Lemma collapse_rep r :
  repOk r ->
  scan (reHSpaces (js " ") None) 0 (render r) = render (mapRep collapsePass r).
Proof.
  intros [Hi Ht]. destruct r as [items tail]. apply (collapse_items items tail Hi Ht).
Qed.

(** *** [trim] *)

Lemma isHSpace_isSpace c : isHSpace c = true -> isSpace c = true.
Proof.
  unfold isHSpace, isSpace. intros H. apply orb_prop in H.
  destruct H as [H|H]; apply N.eqb_eq in H; subst; reflexivity.
Qed.

Lemma dropWhile_gap g c rest :
  gapOk g -> isSpace c = false -> dropWhile isSpace (g ++ c :: rest) = c :: rest.
Proof.
  intros Hg Hc. induction g as [|h g IH]; simpl.
  - now rewrite Hc.
  - apply gapOk_cons in Hg. destruct Hg as [Hh Hg].
    rewrite (isHSpace_isSpace h Hh). now apply IH.
Qed.

Lemma gapOk_rev g : gapOk g -> gapOk (rev g).
Proof.
  unfold gapOk. rewrite !forallb_forall. intros H x Hx. apply H. now apply in_rev.
Qed.

Lemma dropEnd_gap body c tail :
  gapOk tail -> isSpace c = false ->
  rev (dropWhile isSpace (rev (body ++ c :: tail))) = body ++ [c].
Proof.
  intros Ht Hc. rewrite rev_app_distr. simpl. rewrite <- app_assoc. simpl.
  rewrite (dropWhile_gap (rev tail) c (rev body) (gapOk_rev _ Ht) Hc).
  simpl. now rewrite rev_involutive.
Qed.

Lemma renderItems_tail items tail : renderItems items tail = renderItems items [] ++ tail.
Proof.
  induction items as [|[g c] r IH]; simpl; [reflexivity|].
  rewrite IH, <- app_assoc. reflexivity.
Qed.

Lemma renderItems_last items :
  forall prev c, lastChar prev items = Some c -> items <> [] ->
  exists body, renderItems items [] = body ++ [c].
Proof.
  induction items as [|[g d] r IH]; intros prev c Hl Hne; [contradiction|].
  simpl in Hl |- *. destruct r as [|i r'].
  - simpl in Hl. inversion Hl; subst. exists g. reflexivity.
  - destruct (IH (Some d) c Hl ltac:(discriminate)) as [body Hb].
    exists (g ++ d :: body). rewrite Hb. rewrite <- app_assoc. reflexivity.
Qed.

Lemma mapGaps_trim_id d items : mapGaps (fst trimPass) (Some d) items = items.
Proof.
  revert d. induction items as [|[g c] r IH]; intros d; simpl; [reflexivity|].
  now rewrite IH.
Qed.

Lemma trim_rep r :
  repOk r -> endsOk (fst r) ->
  trim (render r) = render (mapRep trimPass r).
Proof.
  intros [Hi Ht] [Hf Hl]. destruct r as [items tail]. unfold render, mapRep. simpl in *.
  destruct items as [|[g c] r]; [simpl in Hf; contradiction|].
  simpl in Hf. inversion Hi as [|? ? [Hg Hc] Hr]; subst. simpl in Hg.
  cbn [mapGaps renderItems trimPass fst snd]. rewrite mapGaps_trim_id.
  unfold trim. rewrite (dropWhile_gap g c _ Hg Hf).
  destruct (lastChar None ((g, c) :: r)) as [cl|] eqn:El;
    pose proof El as El'; simpl in El', Hl; rewrite El' in Hl; [|contradiction].
  simpl in Hl.
  assert (Hx : exists body, c :: renderItems r [] = body ++ [cl]).
  { destruct (renderItems_last (([], c) :: r) None cl El ltac:(discriminate)) as [b Hb].
    exists b. exact Hb. }
  destruct Hx as [body Hb].
  rewrite renderItems_tail, app_comm_cons, Hb, <- app_assoc. simpl.
  now apply dropEnd_gap.
Qed.

(** *** Passes that find nothing *)

Lemma scan_noMatch m s : noMatch m s -> scan m 0 s = s.
Proof.
  induction s as [|c s IH]; intros [Hm Hr]; simpl.
  - now rewrite Hm.
  - rewrite Hm. now rewrite IH.
Qed.

Lemma noMatch_absent lit0 lit repl s :
  ~ In lit0 s -> noMatch (reLiteral (lit0 :: lit) repl None) s.
Proof.
  induction s as [|c s IH]; intros Hn; simpl.
  - now split.
  - split.
    + unfold reLiteral. simpl.
      destruct (N.eqb lit0 c) eqn:E; [|reflexivity].
      apply N.eqb_eq in E. subst. exfalso. apply Hn. now left.
    + apply IH. intros H. apply Hn. now right.
Qed.

Lemma opchar_not_hspace c : opchar c = true -> isHSpace c = false.
Proof.
  unfold opchar, eqc. intros H.
  repeat (apply orb_prop in H; destruct H as [H|H]);
    apply N.eqb_eq in H; subst; reflexivity.
Qed.

Lemma noMatch_gap m g X :
  (forall h s, isHSpace h = true -> m (h :: s) = None) ->
  gapOk g -> noMatch m X -> noMatch m (g ++ X).
Proof.
  intros Hm Hg HX. induction g as [|h g IH]; [exact HX|].
  apply gapOk_cons in Hg. destruct Hg as [Hh Hg]. simpl. split; [now apply Hm|now apply IH].
Qed.

Lemma noMatch_render m items tail :
  (forall h s, isHSpace h = true -> m (h :: s) = None) ->
  m [] = None ->
  (forall c r, isHSpace c = false -> Forall itemOk r ->
               adjFree opchar (c :: map snd r) = true ->
               m (c :: renderItems r tail) = None) ->
  Forall itemOk items -> gapOk tail ->
  adjFree opchar (map snd items) = true ->
  noMatch m (renderItems items tail).
Proof.
  intros Hgap Hnil Hitem Hi Ht. induction Hi as [|[g c] r [Hg Hc] Hr IH]; intros Hadj.
  - simpl. rewrite <- (app_nil_r tail). apply noMatch_gap; [assumption..|].
    simpl. now split.
  - simpl in Hg, Hc. cbn [renderItems]. apply noMatch_gap; [assumption..|].
    cbn [noMatch]. split.
    + apply Hitem; assumption.
    + apply IH. cbn [map snd] in Hadj. destruct (map snd r); [reflexivity|].
      cbn [adjFree] in Hadj. now apply andb_prop in Hadj.
Qed.

(** The code unit after the gap at the head of a rendered rep. *)
Lemma adjFree_next c r tail d rest :
  Forall itemOk r ->
  adjFree opchar (c :: map snd r) = true ->
  afterGap r tail = d :: rest ->
  opchar c = true -> opchar d = true -> False.
Proof.
  intros Hr Hadj Ha Hc Hd. destruct r as [|[g2 c2] r2]; [discriminate|].
  simpl in Ha. inversion Ha; subst d rest.
  cbn [map snd adjFree] in Hadj. apply andb_prop in Hadj. destruct Hadj as [H _].
  rewrite Hc, Hd in H. discriminate.
Qed.

Lemma skipn_headGap items tail :
  skipn (length (headGap items tail)) (renderItems items tail) = afterGap items tail.
Proof.
  rewrite render_head, skipn_app, skipn_all, Nat.sub_diag. reflexivity.
Qed.

Lemma headGap_ok items tail : Forall itemOk items -> gapOk tail -> gapOk (headGap items tail).
Proof.
  intros Hi Ht. destruct items as [|[g c] r]; simpl; [exact Ht|].
  inversion Hi as [|? ? [Hg _] _]; subst. exact Hg.
Qed.

(** A two-character operator is not found where no two operator
    characters are neighbours. *)
Lemma noMatch_double a b repl items tail :
  opchar a = true -> opchar b = true ->
  Forall itemOk items -> gapOk tail ->
  adjFree opchar (map snd items) = true ->
  noMatch (reLiteral [a; b] repl None) (renderItems items tail).
Proof.
  intros Ha Hb Hi Ht Hadj. apply noMatch_render; try assumption.
  - intros h s Hh. unfold reLiteral. cbn [startsWith].
    destruct (N.eqb a h) eqn:E; [|reflexivity].
    apply N.eqb_eq in E. subst h. rewrite (opchar_not_hspace a Ha) in Hh. discriminate.
  - reflexivity.
  - intros c r Hc Hr Hadj'. unfold reLiteral. cbn [startsWith].
    destruct (N.eqb a c) eqn:E; [|reflexivity]. apply N.eqb_eq in E. subst c.
    rewrite render_head. pose proof (headGap_ok r tail Hr Ht) as Hg.
    destruct (headGap r tail) as [|h g].
    + cbn [app]. destruct (afterGap r tail) as [|d rest] eqn:Ea; [reflexivity|].
      destruct (N.eqb b d) eqn:E2; [|reflexivity]. apply N.eqb_eq in E2. subst d.
      exfalso. eapply adjFree_next; eauto.
    + cbn [app]. destruct (N.eqb b h) eqn:E2; [|reflexivity]. apply N.eqb_eq in E2. subst h.
      apply gapOk_cons in Hg. destruct Hg as [Hh _].
      rewrite (opchar_not_hspace b Hb) in Hh. discriminate.
Qed.

(** Nor is an operator whose two characters were split by spaces. *)
Lemma noMatch_split a b repl items tail :
  opchar a = true -> opchar b = true ->
  Forall itemOk items -> gapOk tail ->
  adjFree opchar (map snd items) = true ->
  noMatch (reSplit a b repl None) (renderItems items tail).
Proof.
  intros Ha Hb Hi Ht Hadj. apply noMatch_render; try assumption.
  - intros h s Hh. unfold reSplit.
    destruct (N.eqb h a) eqn:E; [|reflexivity].
    apply N.eqb_eq in E. subst h. rewrite (opchar_not_hspace a Ha) in Hh. discriminate.
  - reflexivity.
  - intros c r Hc Hr Hadj'. unfold reSplit.
    destruct (N.eqb c a) eqn:E; [|reflexivity]. apply N.eqb_eq in E. subst c.
    rewrite (hspaces_render r tail Hr Ht), skipn_headGap.
    destruct (afterGap r tail) as [|d rest] eqn:Ea; [reflexivity|].
    destruct (N.eqb d b) eqn:E2; [|reflexivity]. apply N.eqb_eq in E2. subst d.
    exfalso. eapply adjFree_next; eauto.
Qed.

(** *** Strings as words and separators *)

Lemma takeWhile_dropWhile p s : s = takeWhile p s ++ dropWhile p s.
Proof.
  induction s as [|c s IH]; simpl; [reflexivity|].
  destruct (p c); simpl; [now rewrite <- IH|reflexivity].
Qed.

Lemma takeWhile_all p s : Forall (fun c => p c = true) (takeWhile p s).
Proof.
  induction s as [|c s IH]; simpl; [constructor|].
  destruct (p c) eqn:E; [now constructor|constructor].
Qed.

Lemma dropWhile_head p s :
  dropWhile p s = [] \/ exists d r, dropWhile p s = d :: r /\ p d = false.
Proof.
  induction s as [|c s IH]; simpl; [now left|].
  destruct (p c) eqn:E; [exact IH|]. right. now exists c, s.
Qed.

Lemma dropWhile_length p s : length (dropWhile p s) <= length s.
Proof.
  induction s as [|c s IH]; simpl; [lia|]. destruct (p c); simpl; lia.
Qed.

Lemma word_ind (P : jsstring -> Prop) :
  P [] ->
  (forall d s, isIdentPart d = false -> P s -> P (d :: s)) ->
  (forall u, wordy u -> P u) ->
  (forall u d s, wordy u -> isIdentPart d = false -> P s -> P (u ++ d :: s)) ->
  forall s, P s.
Proof.
  intros Hnil Hsep Hword Hboth s.
  assert (H : forall n s, length s <= n -> P s).
  { clear s. induction n as [|n IH]; intros s Hn.
    - destruct s; [exact Hnil|simpl in Hn; lia].
    - destruct s as [|c s']; [exact Hnil|].
      destruct (isIdentPart c) eqn:Hc.
      + pose proof (takeWhile_dropWhile isIdentPart (c :: s')) as Hs.
        pose proof (takeWhile_all isIdentPart (c :: s')) as Hu.
        pose proof (dropWhile_length isIdentPart s') as Hl.
        simpl in Hs, Hu, Hn. rewrite Hc in Hs, Hu.
        assert (Hw : wordy (c :: takeWhile isIdentPart s')) by (split; [discriminate|exact Hu]).
        destruct (dropWhile_head isIdentPart s') as [E|(d & r & E & Hd)].
        * rewrite Hs, E, app_nil_r. now apply Hword.
        * rewrite Hs, E.
          apply (Hboth (c :: takeWhile isIdentPart s') d r Hw Hd).
          apply IH. rewrite E in Hl. simpl in Hl. lia.
      + apply Hsep; [exact Hc|]. apply IH. simpl in Hn. lia. }
  now apply (H (length s)).
Qed.

Lemma mapWords_run g u : 
  Forall (fun c => isIdentPart c = true) u ->
  forall cur s, mapWords g cur (u ++ s) = mapWords g (cur ++ u) s.
Proof.
  induction 1 as [|c u Hc Hu IH]; intros cur s; simpl.
  - now rewrite app_nil_r.
  - rewrite Hc, IH, <- app_assoc. reflexivity.
Qed.

Lemma flushWord_wordy g u : wordy u -> flushWord g u = g u.
Proof. intros [Hne _]. destruct u; [contradiction|reflexivity]. Qed.

Lemma mapWords_sep g d s :
  isIdentPart d = false -> mapWords g [] (d :: s) = d :: mapWords g [] s.
Proof. intros Hd. simpl. now rewrite Hd. Qed.

Lemma mapWords_word g u : wordy u -> mapWords g [] u = g u.
Proof.
  intros Hu. rewrite <- (app_nil_r u) at 1.
  rewrite (mapWords_run g u (proj2 Hu)). simpl. now apply flushWord_wordy.
Qed.

Lemma mapWords_both g u d s :
  wordy u -> isIdentPart d = false ->
  mapWords g [] (u ++ d :: s) = g u ++ d :: mapWords g [] s.
Proof.
  intros Hu Hd. rewrite (mapWords_run g u (proj2 Hu)). simpl. rewrite Hd.
  now rewrite flushWord_wordy.
Qed.

Lemma words_run u :
  Forall (fun c => isIdentPart c = true) u ->
  forall cur s, words cur (u ++ s) = words (cur ++ u) s.
Proof.
  induction 1 as [|c u Hc Hu IH]; intros cur s; simpl.
  - now rewrite app_nil_r.
  - rewrite Hc, IH, <- app_assoc. reflexivity.
Qed.

Lemma flushList_wordy u : wordy u -> flushList u = [u].
Proof. intros [Hne _]. destruct u; [contradiction|reflexivity]. Qed.

Lemma words_sep d s : isIdentPart d = false -> words [] (d :: s) = words [] s.
Proof. intros Hd. simpl. now rewrite Hd. Qed.

Lemma words_word u : wordy u -> words [] u = [u].
Proof.
  intros Hu. rewrite <- (app_nil_r u) at 1.
  rewrite (words_run u (proj2 Hu)). simpl. now apply flushList_wordy.
Qed.

Lemma words_both u d s :
  wordy u -> isIdentPart d = false -> words [] (u ++ d :: s) = u :: words [] s.
Proof.
  intros Hu Hd. rewrite (words_run u (proj2 Hu)). simpl. rewrite Hd.
  now rewrite flushList_wordy.
Qed.

(** Mapping the words maps the list of words, when [g] sends words to
    words. *)
Lemma words_mapWords g :
  (forall u, wordy u -> wordy (g u)) ->
  forall s, words [] (mapWords g [] s) = map g (words [] s).
Proof.
  intros Hg. apply word_ind.
  - reflexivity.
  - intros d s Hd IH. now rewrite mapWords_sep, !words_sep.
  - intros u Hu. rewrite mapWords_word, !words_word; auto.
  - intros u d s Hu Hd IH. rewrite mapWords_both, !words_both; auto.
    simpl. now rewrite IH.
Qed.

Lemma mapWords_fixed g :
  forall s, Forall (fun u => g u = u) (words [] s) -> mapWords g [] s = s.
Proof.
  apply (word_ind (fun s => Forall (fun u => g u = u) (words [] s) -> mapWords g [] s = s)).
  - reflexivity.
  - intros d s Hd IH H. rewrite words_sep in H by assumption.
    rewrite mapWords_sep by assumption. now rewrite IH.
  - intros u Hu H. rewrite words_word in H by assumption.
    rewrite mapWords_word by assumption. now inversion H.
  - intros u d s Hu Hd IH H. rewrite words_both in H by assumption.
    rewrite mapWords_both by assumption. inversion H; subst. now rewrite IH, H2.
Qed.

(** *** The pass [\bw\b] *)

Lemma last_cons {A} (l : list A) : forall a d, last (a :: l) d = last l a.
Proof.
  induction l as [|b l IH]; intros a d; [reflexivity|].
  change (last (a :: b :: l) d) with (last (b :: l) d).
  now rewrite (IH b d), (IH b a).
Qed.

Lemma replaceFrom_skip M xs :
  forall prev ys,
    replaceFrom M (length xs) prev (xs ++ ys) = replaceFrom M 0 (last (map Some xs) prev) ys.
Proof.
  induction xs as [|x xs IH]; intros prev ys; [reflexivity|].
  cbn [length app map replaceFrom]. rewrite IH. now rewrite last_cons.
Qed.

Lemma last_word u prev :
  Forall (fun c => isIdentPart c = true) u -> isWordChar prev = true ->
  isWordChar (last (map Some u) prev) = true.
Proof.
  intros Hu. revert prev. induction Hu as [|c u Hc Hu IH]; intros prev Hp; [exact Hp|].
  cbn [map]. rewrite last_cons. now apply IH.
Qed.

Lemma last_wordy u prev : wordy u -> isWordChar (last (map Some u) prev) = true.
Proof.
  intros [Hne Hu]. destruct u as [|c u]; [contradiction|].
  inversion Hu; subst. cbn [map]. rewrite last_cons. now apply last_word.
Qed.

Lemma upper_char_word x c :
  (isUpper x || N.eqb x 95)%bool = true -> N.eqb x (asciiUpper c) = true ->
  isIdentPart c = true.
Proof.
  intros Hx He. apply N.eqb_eq in He. unfold asciiUpper in He. unfold isIdentPart.
  destruct (isLower c) eqn:Hl; [reflexivity|]. subst x.
  apply orb_prop in Hx. destruct Hx as [Hx|Hx]; rewrite Hx; simpl;
    now rewrite ?orb_true_r.
Qed.

Section Word.
Variable w : jsstring.
Variable repl : jsstring.
Hypothesis w_table : tableWord w = true.

Let M := reWord w repl.

Lemma w_cons : exists x w', w = x :: w' /\ (isUpper x || N.eqb x 95)%bool = true
                           /\ forallb (fun c => isUpper c || N.eqb c 95)%bool w' = true.
Proof.
  unfold tableWord in w_table. destruct w as [|x w']; [discriminate|].
  simpl in w_table. apply andb_prop in w_table. now exists x, w'.
Qed.

Lemma reWord_nil prev : M prev [] = None.
Proof.
  destruct w_cons as (x & w' & -> & _). unfold M, reWord. cbn [startsWithIgnoreCase].
  now rewrite andb_false_r.
Qed.

Lemma reWord_sep prev d s : isIdentPart d = false -> M prev (d :: s) = None.
Proof.
  intros Hd. destruct w_cons as (x & w' & E & Hx & _). unfold M, reWord. rewrite E.
  cbn [startsWithIgnoreCase].
  destruct (N.eqb x (asciiUpper d)) eqn:Ex.
  - rewrite (upper_char_word x d Hx Ex) in Hd. discriminate.
  - cbn [andb]. now rewrite andb_false_r.
Qed.

Lemma reWord_inside prev c s :
  isWordChar prev = true -> isIdentPart c = true -> M prev (c :: s) = None.
Proof.
  intros Hp Hc. unfold M, reWord, wordBoundary. cbn [hd_error isWordChar].
  rewrite Hp, Hc. reflexivity.
Qed.

Lemma sw_word :
  forall v u rest,
    v <> [] -> forallb (fun c => isUpper c || N.eqb c 95)%bool v = true ->
    wordy u -> wordEnd rest ->
    (startsWithIgnoreCase v (u ++ rest)
     && wordBoundary (nth_error (u ++ rest) (length v - 1)) (nth_error (u ++ rest) (length v)))%bool
    = jseq (asciiToUpperCase u) v.
Proof.
  induction v as [|x v IH]; intros u rest Hne Hv [Hune Hu] Hrest; [contradiction|].
  destruct u as [|c u]; [contradiction|]. inversion Hu as [|? ? Hc Hu']; subst.
  simpl in Hv. apply andb_prop in Hv. destruct Hv as [Hx Hv].
  cbn [app startsWithIgnoreCase asciiToUpperCase map jseq length].
  rewrite Nat.sub_succ, Nat.sub_0_r. rewrite (N.eqb_sym (asciiUpper c) x).
  destruct (N.eqb x (asciiUpper c)); [|reflexivity]. cbn [andb].
  destruct v as [|y v].
  - (* the last character of the keyword *)
    cbn [startsWithIgnoreCase length nth_error andb]. unfold wordBoundary.
    cbn [isWordChar]. rewrite Hc.
    destruct u as [|d u].
    + simpl. destruct rest as [|e rest]; [reflexivity|]. simpl in Hrest |- *.
      now rewrite Hrest.
    + inversion Hu'; subst. simpl. now rewrite H1.
  - destruct u as [|d u].
    + (* the word ends before the keyword does *)
      cbn [app map jseq]. destruct rest as [|e rest]; [reflexivity|].
      simpl in Hrest. cbn [startsWithIgnoreCase].
      simpl in Hv. apply andb_prop in Hv. destruct Hv as [Hy _].
      destruct (N.eqb y (asciiUpper e)) eqn:Ey; [|reflexivity].
      rewrite (upper_char_word y e Hy Ey) in Hrest. discriminate.
    + assert (Hne1 : y :: v <> []) by discriminate.
      assert (Hw1 : wordy (d :: u)) by (split; [discriminate|exact Hu']).
      pose proof (IH (d :: u) rest Hne1 Hv Hw1 Hrest) as IH1.
      cbn [length] in IH1. rewrite Nat.sub_succ, Nat.sub_0_r in IH1.
      cbn [nth_error length]. exact IH1.
Qed.

Lemma reWord_start prev u rest :
  isWordChar prev = false -> wordy u -> wordEnd rest ->
  M prev (u ++ rest)
  = if jseq (asciiToUpperCase u) w then Some (length w, repl) else None.
Proof.
  intros Hp Hu Hrest. unfold M, reWord.
  assert (Hb : wordBoundary prev (hd_error (u ++ rest)) = true).
  { destruct Hu as [Hne Hu]. destruct u as [|c u]; [contradiction|].
    inversion Hu; subst. unfold wordBoundary. cbn [app hd_error isWordChar].
    now rewrite Hp, H1. }
  rewrite Hb. cbn [andb].
  destruct w_cons as (x & w' & E & Hx & Hw').
  rewrite (sw_word w u rest); [reflexivity| | |assumption..].
  - rewrite E. discriminate.
  - rewrite E. simpl. now rewrite Hx, Hw'.
Qed.

Lemma replaceFrom_inside u :
  Forall (fun c => isIdentPart c = true) u ->
  forall prev rest,
    isWordChar prev = true ->
    replaceFrom M 0 prev (u ++ rest) = u ++ replaceFrom M 0 (last (map Some u) prev) rest.
Proof.
  induction 1 as [|c u Hc Hu IH]; intros prev rest Hp; [reflexivity|].
  cbn [app]. cbn [replaceFrom]. rewrite (reWord_inside prev c _ Hp Hc).
  cbn [map]. rewrite last_cons. rewrite IH by (simpl; exact Hc). reflexivity.
Qed.

Lemma jseq_length a b : jseq a b = true -> length a = length b.
Proof. intros H. apply jseq_eq in H. now subst. Qed.

Lemma replaceFrom_word prev u rest :
  isWordChar prev = false -> wordy u -> wordEnd rest ->
  replaceFrom M 0 prev (u ++ rest)
  = (if jseq (asciiToUpperCase u) w then repl else u)
    ++ replaceFrom M 0 (last (map Some u) prev) rest.
Proof.
  intros Hp Hu Hrest. pose proof (reWord_start prev u rest Hp Hu Hrest) as Hm.
  destruct Hu as [Hne Hu]. destruct u as [|c u]; [contradiction|].
  inversion Hu as [|? ? Hc Hu']; subst.
  cbn [app] in Hm |- *. cbn [replaceFrom]. rewrite Hm.
  destruct (jseq (asciiToUpperCase (c :: u)) w) eqn:Ej.
  - apply jseq_length in Ej. unfold asciiToUpperCase in Ej. rewrite length_map in Ej.
    rewrite <- Ej. cbn [length]. rewrite replaceFrom_skip. cbn [map]. now rewrite last_cons.
  - rewrite (replaceFrom_inside u Hu' (Some c) rest) by (simpl; exact Hc).
    cbn [map]. now rewrite last_cons.
Qed.

Lemma replaceFrom_sep prev d s :
  isIdentPart d = false ->
  replaceFrom M 0 prev (d :: s) = d :: replaceFrom M 0 (Some d) s.
Proof. intros Hd. cbn [replaceFrom]. now rewrite (reWord_sep prev d s Hd). Qed.

Lemma replaceFrom_nil prev : replaceFrom M 0 prev [] = [].
Proof. cbn [replaceFrom]. now rewrite reWord_nil. Qed.

(** The pass replaces each word that is [w] up to case, and nothing
    else. *)
Lemma reWord_mapWords :
  forall s prev,
    isWordChar prev = false ->
    replaceFrom M 0 prev s
    = mapWords (fun u => if jseq (asciiToUpperCase u) w then repl else u) [] s.
Proof.
  apply (word_ind (fun s => forall prev, isWordChar prev = false ->
           replaceFrom M 0 prev s
           = mapWords (fun u => if jseq (asciiToUpperCase u) w then repl else u) [] s)).
  - intros prev _. now rewrite replaceFrom_nil.
  - intros d s Hd IH prev _. rewrite replaceFrom_sep, mapWords_sep by assumption.
    f_equal. apply IH. simpl. exact Hd.
  - intros u Hu prev Hp. rewrite mapWords_word by assumption.
    rewrite <- (app_nil_r u) at 1.
    rewrite (replaceFrom_word prev u [] Hp Hu I), replaceFrom_nil. apply app_nil_r.
  - intros u d s Hu Hd IH prev Hp. rewrite mapWords_both by assumption.
    rewrite (replaceFrom_word prev u (d :: s) Hp Hu Hd).
    rewrite replaceFrom_sep by assumption. f_equal. f_equal. apply IH. simpl. exact Hd.
Qed.

End Word.

(** *** Letter case *)

Lemma lower_range c : isLower c = true -> (97 <= c <= 122)%N.
Proof.
  unfold isLower, inRange. intros H. apply andb_prop in H. destruct H as [H1 H2].
  apply N.leb_le in H1, H2. lia.
Qed.

Lemma asciiUpper_idem c : asciiUpper (asciiUpper c) = asciiUpper c.
Proof.
  unfold asciiUpper. destruct (isLower c) eqn:E; [|now rewrite E].
  apply lower_range in E.
  assert (H : isLower (c - 32) = false).
  { unfold isLower, inRange. apply andb_false_iff. left. apply N.leb_gt. lia. }
  now rewrite H.
Qed.

Lemma upper_idem u : asciiToUpperCase (asciiToUpperCase u) = asciiToUpperCase u.
Proof.
  unfold asciiToUpperCase. rewrite map_map. apply map_ext. intros c. apply asciiUpper_idem.
Qed.

Lemma caseBlind_eq x :
  isLower x = false -> isUpper x = false -> caseBlind (fun c => N.eqb c x).
Proof.
  intros Hl Hu c. unfold asciiUpper. destruct (isLower c) eqn:E; [|reflexivity].
  pose proof (lower_range c E) as R.
  assert (H1 : N.eqb c x = false).
  { apply N.eqb_neq. intros ->. rewrite E in Hl. discriminate. }
  assert (H2 : N.eqb (c - 32) x = false).
  { apply N.eqb_neq. intros <-. unfold isUpper, inRange in Hu.
    apply andb_false_iff in Hu. destruct Hu as [Hu|Hu]; apply N.leb_gt in Hu; lia. }
  now rewrite H1, H2.
Qed.

Lemma caseBlind_eqc a :
  isLower (ch a) = false -> isUpper (ch a) = false -> caseBlind (eqc a).
Proof. intros Hl Hu. apply (caseBlind_eq (ch a) Hl Hu). Qed.

Lemma caseBlind_or p q : caseBlind p -> caseBlind q -> caseBlind (fun c => p c || q c)%bool.
Proof. intros Hp Hq c. now rewrite Hp, Hq. Qed.

Lemma caseBlind_range lo hi :
  (hi < 65 \/ 122 < lo \/ (90 < lo /\ hi < 97))%N -> caseBlind (inRange lo hi).
Proof.
  intros Hr c. unfold asciiUpper. destruct (isLower c) eqn:E; [|reflexivity].
  pose proof (lower_range c E) as R. unfold inRange.
  assert (H1 : (N.leb lo c && N.leb c hi)%bool = false).
  { apply andb_false_iff. destruct Hr as [Hr|[Hr|Hr]];
      [right|left|right]; apply N.leb_gt; lia. }
  assert (H2 : (N.leb lo (c - 32) && N.leb (c - 32) hi)%bool = false).
  { apply andb_false_iff. destruct Hr as [Hr|[Hr|Hr]];
      [right|left|left]; apply N.leb_gt; lia. }
  now rewrite H1, H2.
Qed.

Lemma caseBlind_isHSpace : caseBlind isHSpace.
Proof.
  unfold isHSpace. apply caseBlind_or; apply caseBlind_eq; reflexivity.
Qed.

Lemma caseBlind_isSpace : caseBlind isSpace.
Proof.
  unfold isSpace.
  repeat apply caseBlind_or;
    first [ apply caseBlind_range; lia | apply caseBlind_eq; reflexivity ].
Qed.

Lemma caseBlind_opchar : caseBlind opchar.
Proof. unfold opchar. repeat apply caseBlind_or; apply caseBlind_eqc; reflexivity. Qed.

Lemma caseBlind_isIdentPart : caseBlind isIdentPart.
Proof.
  intros c. unfold asciiUpper. destruct (isLower c) eqn:E; [|reflexivity].
  pose proof (lower_range c E) as R. unfold isIdentPart. rewrite E. simpl.
  assert (H : isUpper (c - 32) = true).
  { unfold isUpper, inRange. apply andb_true_iff. split; apply N.leb_le; lia. }
  rewrite H. now rewrite orb_true_r.
Qed.

Lemma caseBlind_rel p a b : caseBlind p -> caseRel a b -> p b = p a.
Proof. intros Hp [->| ->]; [reflexivity|apply Hp]. Qed.

Lemma caseRel_refl a : caseRel a a.
Proof. now left. Qed.

Lemma caseRel_trans a b c : caseRel a b -> caseRel b c -> caseRel a c.
Proof.
  intros [->| ->] [->| ->]; try (now left); try (now right).
  right. apply asciiUpper_idem.
Qed.

(** *** One capitalisation pass *)

Lemma table_upper w : tableWord w = true -> asciiToUpperCase w = w.
Proof.
  unfold tableWord. intros H. apply andb_prop in H. destruct H as [_ H].
  rewrite forallb_forall in H. unfold asciiToUpperCase.
  rewrite <- (map_id w) at 2. apply map_ext_in. intros c Hc. specialize (H c Hc).
  unfold asciiUpper. destruct (isLower c) eqn:E; [|reflexivity].
  apply lower_range in E. exfalso.
  apply orb_prop in H. destruct H as [H|H].
  - unfold isUpper, inRange in H. apply andb_prop in H. destruct H as [_ H].
    apply N.leb_le in H. lia.
  - apply N.eqb_eq in H. lia.
Qed.

Lemma table_wordy w : tableWord w = true -> wordy w.
Proof.
  unfold tableWord. intros H. apply andb_prop in H. destruct H as [Hne H].
  split; [destruct w; [discriminate|discriminate]|].
  rewrite forallb_forall in H. apply Forall_forall. intros c Hc. specialize (H c Hc).
  unfold isIdentPart. apply orb_prop in H. destruct H as [H|H]; rewrite H;
    now rewrite ?orb_true_r.
Qed.

Lemma caps_pass w s :
  tableWord w = true ->
  replaceAll (reWord w (asciiToUpperCase w)) s = mapWords (wordFix w) [] s.
Proof.
  intros Hw. unfold replaceAll. now apply reWord_mapWords.
Qed.

Lemma wordFix_cases w u : wordFix w u = u \/ wordFix w u = asciiToUpperCase u.
Proof.
  unfold wordFix. destruct (jseq (asciiToUpperCase u) w) eqn:E; [|now left].
  right. apply jseq_eq in E. rewrite <- E. apply upper_idem.
Qed.

Lemma wordFix_wordy w u : tableWord w = true -> wordy u -> wordy (wordFix w u).
Proof.
  intros Hw Hu. unfold wordFix. destruct (jseq (asciiToUpperCase u) w); [|exact Hu].
  rewrite (table_upper w Hw). now apply table_wordy.
Qed.

Lemma wordFix_idem w u : wordFix w (wordFix w u) = wordFix w u.
Proof.
  unfold wordFix at 2. destruct (jseq (asciiToUpperCase u) w) eqn:E.
  - unfold wordFix. rewrite upper_idem. apply jseq_eq in E.
    rewrite <- E, upper_idem.
    assert (H : jseq (asciiToUpperCase u) (asciiToUpperCase u) = true).
    { clear. induction (asciiToUpperCase u) as [|x l IH]; [reflexivity|].
      simpl. now rewrite N.eqb_refl, IH. }
    now rewrite H.
  - unfold wordFix. now rewrite E.
Qed.

Lemma jseq_refl a : jseq a a = true.
Proof. induction a as [|x l IH]; [reflexivity|]. simpl. now rewrite N.eqb_refl, IH. Qed.

(** A word that one pass has settled stays settled by every later
    pass. *)
Lemma wordFix_keeps w w' x :
  tableWord w = true -> tableWord w' = true ->
  wordFix w' x = x -> wordFix w' (wordFix w x) = wordFix w x.
Proof.
  intros Hw Hw' Hx. unfold wordFix at 2 3.
  destruct (jseq (asciiToUpperCase x) w) eqn:E; [|exact Hx].
  rewrite (table_upper w Hw). unfold wordFix. rewrite (table_upper w Hw).
  destruct (jseq w w') eqn:E2; [|reflexivity].
  apply jseq_eq in E2. subst w'. apply (table_upper w Hw).
Qed.

Lemma capsList_words L :
  Forall (fun w => tableWord w = true) L ->
  forall s, capsList L s = mapWords (fun u => fold_left (fun x w => wordFix w x) L u) [] s
            /\ words [] (capsList L s)
               = map (fun u => fold_left (fun x w => wordFix w x) L u) (words [] s).
Proof.
  intros HL. unfold capsList.
  induction HL as [|w L Hw HL IH]; intros s.
  - simpl. split.
    + symmetry. apply mapWords_fixed. apply Forall_forall. reflexivity.
    + now rewrite map_id.
  - cbn [fold_left]. rewrite (caps_pass w s Hw).
    destruct (IH (mapWords (wordFix w) [] s)) as [IH1 IH2]. split.
    + rewrite IH1. clear IH IH1 IH2. revert s.
      apply word_ind.
      * reflexivity.
      * intros d s Hd IHs. rewrite !mapWords_sep by assumption. now rewrite IHs.
      * intros u Hu. rewrite (mapWords_word _ u Hu).
        rewrite (mapWords_word _ _ (wordFix_wordy w u Hw Hu)).
        now rewrite (mapWords_word _ u Hu).
      * intros u d s Hu Hd IHs. rewrite (mapWords_both _ u d s Hu Hd).
        rewrite (mapWords_both _ _ d _ (wordFix_wordy w u Hw Hu) Hd).
        rewrite (mapWords_both _ u d s Hu Hd). now rewrite IHs.
    + rewrite IH2. rewrite (words_mapWords (wordFix w) (fun u => wordFix_wordy w u Hw)).
      now rewrite map_map.
Qed.

(** After all the passes every word is settled for every keyword. *)
Lemma fold_wordFix_settled L :
  Forall (fun w => tableWord w = true) L ->
  forall u w, In w L -> wordFix w (fold_left (fun x w => wordFix w x) L u)
                        = fold_left (fun x w => wordFix w x) L u.
Proof.
  intros HL.
  assert (H : forall done,
             Forall (fun w => tableWord w = true) done ->
             forall x, (forall w, In w done -> wordFix w x = x) ->
             forall w, In w (done ++ L) ->
                       wordFix w (fold_left (fun x w => wordFix w x) L x)
                       = fold_left (fun x w => wordFix w x) L x).
  { induction HL as [|w0 L Hw0 HL IH]; intros done Hd x Hx w Hin.
    - simpl. apply Hx. now rewrite app_nil_r in Hin.
    - cbn [fold_left]. apply (IH (done ++ [w0])).
      + apply Forall_app. split; [exact Hd|]. now constructor.
      + intros w1 Hin1. apply in_app_or in Hin1. destruct Hin1 as [Hin1|[<-|[]]].
        * apply wordFix_keeps; auto.
          rewrite Forall_forall in Hd. now apply Hd.
        * apply wordFix_idem.
      + rewrite <- app_assoc. exact Hin. }
  intros u w Hin. apply (H [] (Forall_nil _) u); [intros ? []|exact Hin].
Qed.


(** *** Letter case and reps *)

Lemma Forall2_caseRel_trans a b c :
  Forall2 caseRel a b -> Forall2 caseRel b c -> Forall2 caseRel a c.
Proof.
  intros H. revert c. induction H as [|x y a b Hxy Hab IH]; intros c Hbc.
  - inversion Hbc. constructor.
  - inversion Hbc; subst. constructor; [eapply caseRel_trans; eauto|now apply IH].
Qed.

Lemma Forall2_caseRel_refl a : Forall2 caseRel a a.
Proof. induction a; constructor; [apply caseRel_refl|assumption]. Qed.

Lemma Forall2_caseRel_upper a : Forall2 caseRel a (asciiToUpperCase a).
Proof. induction a; constructor; [now right|assumption]. Qed.

Lemma mapWords_caseRel g :
  (forall u, wordy u -> Forall2 caseRel u (g u)) ->
  forall s, Forall2 caseRel s (mapWords g [] s).
Proof.
  intros Hg. apply word_ind.
  - constructor.
  - intros d s Hd IH. rewrite mapWords_sep by assumption.
    constructor; [apply caseRel_refl|exact IH].
  - intros u Hu. rewrite mapWords_word by assumption. now apply Hg.
  - intros u d s Hu Hd IH. rewrite mapWords_both by assumption.
    apply Forall2_app; [now apply Hg|]. constructor; [apply caseRel_refl|exact IH].
Qed.

Lemma capsList_caseRel L s :
  Forall (fun w => tableWord w = true) L -> Forall2 caseRel s (capsList L s).
Proof.
  intros HL. revert s. unfold capsList.
  induction HL as [|w L Hw HL IH]; intros s; [apply Forall2_caseRel_refl|].
  cbn [fold_left]. eapply Forall2_caseRel_trans; [|apply IH].
  rewrite (caps_pass w s Hw). apply mapWords_caseRel. intros u _.
  destruct (wordFix_cases w u) as [-> | ->];
    [apply Forall2_caseRel_refl|apply Forall2_caseRel_upper].
Qed.

Lemma caseRel_gap g g' : gapOk g -> Forall2 caseRel g g' -> g' = g.
Proof.
  intros Hg H. induction H as [|x y g g' Hxy H IH]; [reflexivity|].
  apply gapOk_cons in Hg. destruct Hg as [Hx Hg]. rewrite (IH Hg). f_equal.
  destruct Hxy as [->| ->]; [reflexivity|].
  unfold asciiUpper. destruct (isLower x) eqn:E; [|reflexivity].
  pose proof (caseBlind_isHSpace x) as Hb. unfold asciiUpper in Hb. rewrite E in Hb.
  apply lower_range in E. unfold isHSpace in Hx.
  apply orb_prop in Hx. destruct Hx as [Hx|Hx]; apply N.eqb_eq in Hx; lia.
Qed.

Lemma Forall2_app_inv_l' {A B} (R : A -> B -> Prop) l1 l2 l' :
  Forall2 R (l1 ++ l2) l' ->
  exists l1' l2', l' = l1' ++ l2' /\ Forall2 R l1 l1' /\ Forall2 R l2 l2'.
Proof.
  intros H. apply Forall2_app_inv_l in H. destruct H as (l1' & l2' & H1 & H2 & ->).
  now exists l1', l2'.
Qed.

(** A string that differs from a rendered rep in letter case only is
    the rendering of a rep with the same gaps. *)
Lemma render_caseRel items tail s' :
  Forall itemOk items -> gapOk tail ->
  Forall2 caseRel (renderItems items tail) s' ->
  exists items', s' = renderItems items' tail /\ Forall2 itemRel items items'.
Proof.
  intros Hi Ht. revert s'. induction Hi as [|[g c] r [Hg Hc] Hr IH]; intros s' H.
  - simpl in H. exists []. split; [|constructor]. simpl. now apply caseRel_gap.
  - simpl in Hg, Hc, H. apply Forall2_app_inv_l' in H.
    destruct H as (g' & rest' & -> & Hgg & Hrest).
    inversion Hrest as [|? c' ? rest'' Hcc Hrr]; subst.
    destruct (IH rest'' Hrr) as (items' & -> & Hrel).
    exists ((g, c') :: items'). split.
    + simpl. now rewrite (caseRel_gap g g' Hg Hgg).
    + constructor; [now split|exact Hrel].
Qed.

Lemma itemRel_ok items items' :
  Forall2 itemRel items items' -> Forall itemOk items -> Forall itemOk items'.
Proof.
  induction 1 as [|[g c] [g' c'] r r' [Hg Hc] Hr IH]; intros H; [constructor|].
  inversion H as [|? ? [Hg1 Hc1] Hr1]; subst. simpl in *. subst g'.
  constructor; [|now apply IH]. split; [exact Hg1|]. simpl.
  now rewrite (caseBlind_rel isHSpace c c' caseBlind_isHSpace Hc).
Qed.

Lemma itemRel_chars p items items' :
  caseBlind p -> Forall2 itemRel items items' ->
  map p (map snd items') = map p (map snd items).
Proof.
  intros Hp. induction 1 as [|[g c] [g' c'] r r' [Hg Hc] Hr IH]; [reflexivity|].
  simpl in *. now rewrite IH, (caseBlind_rel p c c' Hp Hc).
Qed.

Lemma itemRel_gaps items items' :
  Forall2 itemRel items items' -> map fst items' = map fst items.
Proof.
  induction 1 as [|[g c] [g' c'] r r' [Hg Hc] Hr IH]; [reflexivity|].
  simpl in *. now rewrite IH, Hg.
Qed.

(** *** Gap passes in general *)

Lemma mapGaps_chars phi items : forall prev, map snd (mapGaps phi prev items) = map snd items.
Proof.
  induction items as [|[g c] r IH]; intros prev; simpl; [reflexivity|]. now rewrite IH.
Qed.

Lemma mapGaps_lastChar phi items :
  forall prev prev', lastChar prev' (mapGaps phi prev items) = lastChar prev' items.
Proof.
  induction items as [|[g c] r IH]; intros prev prev'; simpl; [reflexivity|]. apply IH.
Qed.

Lemma mapGaps_firstChar phi prev items :
  firstChar (mapGaps phi prev items) = firstChar items.
Proof. destruct items as [|[g c] r]; reflexivity. Qed.

Lemma mapGaps_ok P items :
  passOk P -> Forall itemOk items -> forall prev, Forall itemOk (mapGaps (fst P) prev items).
Proof.
  intros [HP _]. induction 1 as [|[g c] r [Hg Hc] Hr IH]; intros prev; simpl; constructor.
  - split; simpl; [apply HP; exact Hg|exact Hc].
  - apply IH.
Qed.

Lemma mapRep_ok P r : passOk P -> repOk r -> repOk (mapRep P r).
Proof.
  intros HP [Hi Ht]. split; simpl.
  - now apply mapGaps_ok.
  - apply (proj2 HP). exact Ht.
Qed.



Lemma mapGaps_ext phi1 phi2 items :
  Forall itemOk items ->
  (forall p c g, gapOk g -> phi1 p c g = phi2 p c g) ->
  forall prev, mapGaps phi1 prev items = mapGaps phi2 prev items.
Proof.
  intros Hi He. induction Hi as [|[g c] r [Hg Hc] Hr IH]; intros prev; simpl; [reflexivity|].
  simpl in Hg. now rewrite IH, (He prev c g Hg).
Qed.

Lemma mapGaps_rel P items items' :
  passBlind P -> Forall2 itemRel items items' ->
  forall prev prev', relOpt prev prev' ->
    Forall2 itemRel (mapGaps (fst P) prev items) (mapGaps (fst P) prev' items').
Proof.
  intros [HP _]. induction 1 as [|[g c] [g' c'] r r' [Hg Hc] Hr IH]; intros prev prev' Hp.
  - constructor.
  - simpl in *. subst g'. constructor.
    + split; simpl; [now apply HP|exact Hc].
    + apply IH. exact Hc.
Qed.

Lemma lastChar_rel items items' :
  Forall2 itemRel items items' ->
  forall prev prev', relOpt prev prev' -> relOpt (lastChar prev items) (lastChar prev' items').
Proof.
  induction 1 as [|[g c] [g' c'] r r' [Hg Hc] Hr IH]; intros prev prev' Hp; [exact Hp|].
  simpl. apply IH. exact Hc.
Qed.

(** *** Gap passes and words *)

Lemma hspace_not_word h : isHSpace h = true -> isIdentPart h = false.
Proof.
  unfold isHSpace. intros H. apply orb_prop in H.
  destruct H as [H|H]; apply N.eqb_eq in H; subst; reflexivity.
Qed.

Lemma words_gap g X cur :
  gapOk g ->
  words cur (g ++ X) = match g with [] => words cur X | _ => flushList cur ++ words [] X end.
Proof.
  intros Hg. destruct g as [|h g]; [reflexivity|].
  apply gapOk_cons in Hg. destruct Hg as [Hh Hg].
  cbn [app words]. rewrite (hspace_not_word h Hh). f_equal.
  clear Hh. induction g as [|k g IH]; [reflexivity|].
  apply gapOk_cons in Hg. destruct Hg as [Hk Hg].
  cbn [app words]. rewrite (hspace_not_word k Hk). simpl. now apply IH.
Qed.

Lemma words_tail tail cur : gapOk tail -> words cur tail = flushList cur.
Proof.
  intros Ht. rewrite <- (app_nil_r tail). rewrite (words_gap tail [] cur Ht).
  destruct tail; [reflexivity|]. simpl. apply app_nil_r.
Qed.

Lemma words_mapGaps P items tail tail' :
  wordSafe P -> passOk P -> Forall itemOk items -> gapOk tail -> gapOk tail' ->
  forall prev cur,
    (isWordChar prev = false -> cur = []) ->
    words cur (renderItems (mapGaps (fst P) prev items) tail')
    = words cur (renderItems items tail).
Proof.
  intros Hs [Hok _] Hi Ht Ht'.
  induction Hi as [|[g c] r [Hg Hc] Hr IH]; intros prev cur Hcur.
  - simpl. now rewrite !words_tail.
  - simpl in Hg, Hc. cbn [mapGaps renderItems].
    rewrite (words_gap (fst P prev c g) _ cur (Hok prev c g Hg)).
    rewrite (words_gap g _ cur Hg).
    assert (Hstep : forall cur0 X Y,
               (forall cur1, (isIdentPart c = false -> cur1 = []) -> words cur1 X = words cur1 Y) ->
               words cur0 (c :: X) = words cur0 (c :: Y)).
    { intros cur0 X Y HXY. cbn [words]. destruct (isIdentPart c) eqn:Ec.
      - apply HXY. discriminate.
      - f_equal. now apply HXY. }
    assert (Hrest : forall cur1, (isIdentPart c = false -> cur1 = []) ->
               words cur1 (renderItems (mapGaps (fst P) (Some c) r) tail')
               = words cur1 (renderItems r tail)).
    { intros cur1 H1. apply IH. exact H1. }
    destruct (Hs prev c g) as [Hiff | [Hp | Hcw]].
    + destruct g as [|h g].
      * rewrite (proj2 Hiff eq_refl). now apply Hstep.
      * destruct (fst P prev c (h :: g)) as [|h' g'] eqn:E.
        -- destruct Hiff as [Hiff _]. specialize (Hiff eq_refl). discriminate.
        -- f_equal. now apply Hstep.
    + rewrite (Hcur Hp). 
      destruct (fst P prev c g), g; cbn [flushList app]; now apply Hstep.
    + assert (Hc0 : forall cur0 X, words cur0 (c :: X) = flushList cur0 ++ words [] X).
      { intros cur0 X. cbn [words]. now rewrite Hcw. }
      rewrite !Hc0.
      rewrite (Hrest [] (fun _ => eq_refl)).
      destruct (fst P prev c g), g; cbn [flushList app]; rewrite ?app_nil_r; reflexivity.
Qed.

Lemma words_mapRep P r :
  wordSafe P -> passOk P -> repOk r ->
  words [] (render (mapRep P r)) = words [] (render r).
Proof.
  intros Hs Hok [Hi Ht]. destruct r as [items tail]. unfold render, mapRep. simpl in *.
  apply words_mapGaps; auto. apply (proj2 Hok). exact Ht.
Qed.

(** *** Passes on rendered reps *)

Lemma prettify_stages s :
  prettifyString s = stage2 (capsList capsWords (stage1 (trim s))).
Proof.
  unfold prettifyString, stage2, stage1, capsList, capsWords.
  cbv zeta. rewrite fold_left_app. reflexivity.
Qed.

Lemma scan_ext m1 m2 :
  (forall s, m1 s = m2 s) -> forall s skip, scan m1 skip s = scan m2 skip s.
Proof.
  intros He. induction s as [|c s IH]; intros skip; simpl.
  - now rewrite He.
  - destruct skip; [|apply IH]. rewrite He.
    destruct (m2 (c :: s)) as [[[|n] r]|]; now rewrite IH.
Qed.

Lemma RA_around p repl pre suf r :
  (forall c, p c = true -> isHSpace c = false) ->
  (forall c, p c = true -> repl c = pre ++ c :: suf) ->
  repOk r ->
  replaceAll (reAround p repl) (render r) = render (mapRep (aroundPass p pre suf) r).
Proof.
  intros Hp Hr Hok. unfold replaceAll.
  change (reAround p repl) with (fun _ : option N => reAround p repl None).
  rewrite replaceFrom_scan.
  rewrite (scan_ext _ (reAround p (fun c => pre ++ c :: suf) None)).
  - now apply around_rep.
  - intros s. unfold reAround. destruct (skipn (hspaces s) s) as [|c rest]; [reflexivity|].
    destruct (p c) eqn:E; [|reflexivity]. now rewrite (Hr c E).
Qed.

Lemma RA_collapse r :
  repOk r ->
  replaceAll (reHSpaces (js " ")) (render r) = render (mapRep collapsePass r).
Proof.
  intros Hok. unfold replaceAll.
  change (reHSpaces (js " ")) with (fun _ : option N => reHSpaces (js " ") None).
  rewrite replaceFrom_scan. now apply collapse_rep.
Qed.

Lemma RA_double lit repl r :
  isDoubleOp lit = true -> Good r ->
  replaceAll (reLiteral lit repl) (render r) = render r.
Proof.
  intros Hl [[Hi Ht] (_ & Hadj & _)].
  destruct lit as [|a [|b [|]]]; try discriminate.
  simpl in Hl. apply andb_prop in Hl. destruct Hl as [Ha Hb].
  unfold replaceAll.
  change (reLiteral [a; b] repl) with (fun _ : option N => reLiteral [a; b] repl None).
  rewrite replaceFrom_scan. apply scan_noMatch.
  destruct r as [items tail]. now apply noMatch_double.
Qed.

Lemma RA_split a b repl r :
  opchar a = true -> opchar b = true -> Good r ->
  replaceAll (reSplit a b repl) (render r) = render r.
Proof.
  intros Ha Hb [[Hi Ht] (_ & Hadj & _)]. unfold replaceAll.
  change (reSplit a b repl) with (fun _ : option N => reSplit a b repl None).
  rewrite replaceFrom_scan. apply scan_noMatch.
  destruct r as [items tail]. now apply noMatch_split.
Qed.

Lemma run_mono s : forall n m,
  (m <= n)%nat -> underscoreRun n s = true -> underscoreRun m s = true.
Proof.
  induction s as [|c s IH]; intros n m Hle H; simpl in *; [reflexivity|].
  destruct (eqc "_" c); [|exact H].
  apply andb_prop in H. destruct H as [H1 H2]. apply Nat.ltb_lt in H1.
  apply andb_true_intro. split; [apply Nat.ltb_lt; lia|].
  apply (IH (S n) (S m)); [lia|exact H2].
Qed.

Lemma run_gap g s n :
  gapOk g ->
  underscoreRun n (g ++ s) = underscoreRun (match g with [] => n | _ => 0%nat end) s.
Proof.
  intros Hg. destruct g as [|h g]; [reflexivity|].
  revert h n Hg. induction g as [|k g IH]; intros h n Hg.
  - unfold gapOk in Hg. simpl in Hg. rewrite andb_true_r in Hg.
    cbn [app underscoreRun].
    assert (E : eqc "_" h = false).
    { unfold isHSpace in Hg. unfold eqc.
      destruct (N.eqb_spec h (ch "_")) as [->|]; [discriminate|reflexivity]. }
    now rewrite E.
  - unfold gapOk in Hg. cbn [forallb] in Hg. apply andb_prop in Hg. destruct Hg as [Hh Hg].
    change ((h :: k :: g) ++ s) with (h :: (k :: g) ++ s). cbn [underscoreRun].
    assert (E : eqc "_" h = false).
    { unfold isHSpace in Hh. unfold eqc.
      destruct (N.eqb_spec h (ch "_")) as [->|]; [discriminate|reflexivity]. }
    rewrite E. now apply IH.
Qed.

Lemma run_tail t n : gapOk t -> underscoreRun n t = true.
Proof.
  intros Ht. rewrite <- (app_nil_r t), (run_gap t [] n Ht). reflexivity.
Qed.

Lemma run_noMatch lit repl s :
  tripleStart lit = true ->
  forall n, underscoreRun n s = true -> noMatch (reLiteral lit repl None) s.
Proof.
  intros Hl. destruct lit as [|a [|b [|c lit]]]; try discriminate.
  simpl in Hl. apply andb_prop in Hl. destruct Hl as [Hl Hc].
  apply andb_prop in Hl. destruct Hl as [Ha Hb].
  apply N.eqb_eq in Ha, Hb, Hc. subst a b c.
  induction s as [|x s IH]; intros n H.
  - split; [reflexivity|exact I].
  - split.
    + unfold reLiteral. cbn [startsWith].
      destruct (N.eqb (ch "_") x) eqn:Ex; [|reflexivity]. rewrite N.eqb_sym in Ex.
      cbn [underscoreRun] in H. unfold eqc in H. rewrite Ex in H.
      apply andb_prop in H. destruct H as [H1 H].
      destruct s as [|y s]; [reflexivity|].
      cbn [startsWith]. destruct (N.eqb (ch "_") y) eqn:Ey; [|reflexivity]. rewrite N.eqb_sym in Ey.
      cbn [underscoreRun] in H. unfold eqc in H. rewrite Ey in H.
      apply andb_prop in H. destruct H as [H2 H].
      destruct s as [|z s]; [reflexivity|].
      cbn [startsWith]. destruct (N.eqb (ch "_") z) eqn:Ez; [|reflexivity]. rewrite N.eqb_sym in Ez.
      cbn [underscoreRun] in H. unfold eqc in H. rewrite Ez in H.
      apply andb_prop in H. destruct H as [H3 H].
      apply Nat.ltb_lt in H3. lia.
    + cbn [underscoreRun] in H. destruct (eqc "_" x).
      * apply andb_prop in H. destruct H as [_ H]. exact (IH _ H).
      * exact (IH _ H).
Qed.

Lemma RA_restore lit repl r :
  tripleStart lit = true ->
  Good r ->
  replaceAll (reLiteral lit repl) (render r) = render r.
Proof.
  intros Hl (_ & _ & _ & Hu). unfold replaceAll.
  change (reLiteral lit repl) with (fun _ : option N => reLiteral lit repl None).
  rewrite replaceFrom_scan. apply scan_noMatch.
  exact (run_noMatch lit repl (render r) Hl 0%nat Hu).
Qed.

Lemma RA_trim r : Good r -> trim (render r) = render (mapRep trimPass r).
Proof. intros [Hok (He & _)]. now apply trim_rep. Qed.

(** *** The passes are well behaved *)

Lemma gapOk_space : gapOk (js " ").
Proof. reflexivity. Qed.

Lemma passOk_around p pre suf : gapOk pre -> gapOk suf -> passOk (aroundPass p pre suf).
Proof.
  intros Hpre Hsuf. split; simpl.
  - intros prev c g Hg.
    destruct (p c), (holds p prev); try assumption;
      try (apply gapOk_app; assumption).
  - intros prev t Ht. now destruct (holds p prev).
Qed.

Lemma gapOk_collapse g : gapOk (collapseGap g).
Proof. destruct g; reflexivity. Qed.

Lemma passOk_collapse : passOk collapsePass.
Proof. split; simpl; intros; apply gapOk_collapse. Qed.

Lemma passOk_trim : passOk trimPass.
Proof.
  split; simpl.
  - intros [d|] c g Hg; [exact Hg|reflexivity].
  - reflexivity.
Qed.

Lemma passOk_all1 : Forall passOk passes1.
Proof.
  unfold passes1.
  repeat constructor; simpl;
    first [ apply passOk_around; reflexivity | apply passOk_collapse | apply passOk_trim ]
    || (intros; try apply gapOk_collapse;
        repeat match goal with |- context [if ?b then _ else _] => destruct b end;
        auto; reflexivity).
Qed.

Lemma passOk_all2 : Forall passOk passes2.
Proof.
  unfold passes2.
  repeat constructor; simpl;
    first [ apply passOk_around; reflexivity | apply passOk_collapse | apply passOk_trim ]
    || (intros; try apply gapOk_collapse;
        repeat match goal with |- context [if ?b then _ else _] => destruct b end;
        auto; reflexivity).
Qed.

(** *** The passes keep words *)

Lemma wordSafe_around p pre suf :
  (forall c, p c = true -> isIdentPart c = false) -> wordSafe (aroundPass p pre suf).
Proof.
  intros Hp prev c g. simpl. destruct (p c) eqn:Ec.
  - right. right. now apply Hp.
  - destruct prev as [d|]; simpl.
    + destruct (p d) eqn:Ed.
      * right. left. simpl. now apply Hp.
      * now left.
    + now left.
Qed.

Lemma wordSafe_collapse : wordSafe collapsePass.
Proof. intros prev c g. left. simpl. destruct g; split; intros H; try discriminate; reflexivity. Qed.

Lemma wordSafe_trim : wordSafe trimPass.
Proof. intros [d|] c g; simpl; [now left|right; now left]. Qed.

Ltac not_word :=
  let c := fresh "c" in let H := fresh "H" in
  intros c H; cbv beta in H; try unfold isPunct in H; unfold eqc in H;
  repeat (apply orb_prop in H; destruct H as [H|H]);
  apply N.eqb_eq in H; subst; reflexivity.

Lemma wordSafe_all1 : Forall wordSafe passes1.
Proof.
  unfold passes1.
  repeat (apply Forall_cons;
    [first [ apply wordSafe_around; not_word | apply wordSafe_collapse | apply wordSafe_trim ]|]).
  apply Forall_nil.
Qed.

Lemma wordSafe_all2 : Forall wordSafe passes2.
Proof.
  unfold passes2.
  repeat (apply Forall_cons;
    [first [ apply wordSafe_around; not_word | apply wordSafe_collapse | apply wordSafe_trim ]|]).
  apply Forall_nil.
Qed.

Lemma run_mapGaps phi tail tail' items :
  (forall prev c g, gapOk g -> gapOk (phi prev c g)) ->
  (forall prev c g, eqc "_" c = true -> holds (eqc "_") prev = true ->
                    phi prev c g = [] -> g = []) ->
  Forall itemOk items -> gapOk tail -> gapOk tail' ->
  forall n prev,
    (n <> 0%nat -> holds (eqc "_") prev = true) ->
    underscoreRun n (renderItems items tail) = true ->
    underscoreRun n (renderItems (mapGaps phi prev items) tail') = true.
Proof.
  intros Hok Hkeep Hi Ht Ht'.
  induction Hi as [|[g c] r [Hg Hc] Hr IH]; intros n prev Hn H.
  - simpl. now apply run_tail.
  - simpl in Hg. cbn [mapGaps renderItems] in *.
    rewrite (run_gap _ _ _ (Hok prev c g Hg)). rewrite (run_gap _ _ _ Hg) in H.
    cbn [underscoreRun] in *.
    destruct (eqc "_" c) eqn:Ec.
    + apply andb_prop in H. destruct H as [H1 H2]. apply Nat.ltb_lt in H1.
      assert (Hle : (match phi prev c g with [] => n | _ => 0%nat end
                     <= match g with [] => n | _ => 0%nat end)%nat).
      { destruct (phi prev c g) eqn:Ep; [|lia].
        destruct (Nat.eq_dec n 0) as [->|Hz]; [destruct g; lia|].
        rewrite (Hkeep prev c g Ec (Hn Hz) Ep). lia. }
      apply andb_true_intro. split; [apply Nat.ltb_lt; lia|].
      apply IH; [intros _; exact Ec|].
      apply (run_mono _ (S (match g with [] => n | _ => 0%nat end))); [lia|exact H2].
    + apply IH; [intros Hz; now elim Hz|exact H].
Qed.

Lemma wordSafe_keeps P :
  wordSafe P ->
  forall prev c g, eqc "_" c = true -> holds (eqc "_") prev = true ->
                   fst P prev c g = [] -> g = [].
Proof.
  intros HP prev c g Hc Hp He.
  apply N.eqb_eq in Hc. subst c.
  destruct prev as [d|]; [|discriminate]. simpl in Hp. apply N.eqb_eq in Hp. subst d.
  destruct (HP (Some (ch "_")) (ch "_") g) as [H|[H|H]];
    [now apply H|discriminate|discriminate].
Qed.

Lemma Good_mapRep P r : passOk P -> wordSafe P -> Good r -> Good (mapRep P r).
Proof.
  intros HP HW (Hok & [Hf Hl] & Hadj & Hu). unfold Good, chars, endsOk, render in *.
  destruct r as [items tail]. simpl in *.
  rewrite mapGaps_chars, mapGaps_firstChar, mapGaps_lastChar.
  repeat split; try assumption.
  - apply mapGaps_ok; [exact HP|apply Hok].
  - apply (proj2 HP). apply Hok.
  - apply (run_mapGaps (fst P) tail); try apply Hok.
    + apply HP.
    + now apply wordSafe_keeps.
    + apply (proj2 HP). apply Hok.
    + intros Hz. now elim Hz.
    + exact Hu.
Qed.

Lemma Good_applyPasses Ps :
  Forall passOk Ps -> Forall wordSafe Ps -> forall r, Good r -> Good (applyPasses Ps r).
Proof.
  unfold applyPasses. induction 1 as [|P Ps HP HPs IH]; intros HW r Hr; [exact Hr|].
  inversion HW; subst. simpl. apply IH; [assumption|]. now apply Good_mapRep.
Qed.

Lemma gapOk_nil : gapOk [].
Proof. reflexivity. Qed.

Lemma Good_repOk r : Good r -> repOk r.
Proof. intros H. apply H. Qed.

Create HintDb good.
#[local] Hint Resolve Good_mapRep passOk_around passOk_collapse passOk_trim
  wordSafe_collapse wordSafe_trim gapOk_space gapOk_nil : good.
#[local] Hint Extern 1 (wordSafe (aroundPass _ _ _)) =>
  apply wordSafe_around; not_word : good.

Ltac char_cases H :=
  cbv beta in H; try unfold isPunct in H; unfold eqc in H;
  repeat (apply orb_prop in H; destruct H as [H|H]);
  apply N.eqb_eq in H; subst; reflexivity.

Ltac around_step pre suf :=
  match goal with
  | |- context [replaceAll (reAround ?P ?R) (render ?X)] =>
      rewrite (RA_around P R pre suf X);
      [ | let c := fresh "c" in let H := fresh "H" in
          intros c H; char_cases H
        | let c := fresh "c" in let H := fresh "H" in
          intros c H; char_cases H
        | apply Good_repOk; auto 20 with good ]
  end.

Ltac collapse_step :=
  match goal with
  | |- context [replaceAll (reHSpaces (js " ")) (render ?X)] =>
      rewrite (RA_collapse X);
      [ | apply Good_repOk; auto 20 with good ]
  end.

Lemma stage1_rep r : Good r -> stage1 (render r) = render (applyPasses passes1 r).
Proof.
  intros Hr. unfold stage1. cbv zeta. unfold multiCharOps. cbn [fold_left].
  rewrite !(fun lit repl => RA_double lit repl r) by (first [reflexivity | exact Hr]).
  do 7 around_step (js " ") (js " ").
  around_step (@nil N) (js " ").
  collapse_step.
  repeat match goal with
  | |- context [replaceAll (reLiteral (js ?l) ?repl) (render ?X)] =>
      rewrite (RA_restore (js l) repl X) by (first [reflexivity | auto 20 with good])
  end.
  repeat match goal with
  | |- context [replaceAll (reSplit ?a ?b ?repl) (render ?X)] =>
      rewrite (RA_split a b repl X) by (first [reflexivity | auto 20 with good])
  end.
  collapse_step.
  rewrite RA_trim by (auto 20 with good).
  reflexivity.
Qed.

Lemma stage2_rep r : Good r -> stage2 (render r) = render (applyPasses passes2 r).
Proof.
  intros Hr. unfold stage2. cbv zeta.
  around_step (js " ") (@nil N).
  around_step (@nil N) (js " ").
  collapse_step.
  rewrite RA_trim by (auto 20 with good).
  reflexivity.
Qed.

(** *** The passes seen through the classes *)















(** *** Letter case *)




(** *** Words *)

Lemma wordSafe_all : Forall wordSafe (passes1 ++ passes2).
Proof. apply Forall_app. split; [apply wordSafe_all1|apply wordSafe_all2]. Qed.

Lemma passOk_all : Forall passOk (passes1 ++ passes2).
Proof. apply Forall_app. split; [apply passOk_all1|apply passOk_all2]. Qed.


(** *** Segments of a string *)

Lemma trim_segment s : exists a b, s = a ++ trim s ++ b.
Proof.
  exists (takeWhile isSpace s),
         (rev (takeWhile isSpace (rev (dropWhile isSpace s)))).
  unfold trim. rewrite <- rev_app_distr, <- takeWhile_dropWhile, rev_involutive.
  apply takeWhile_dropWhile.
Qed.

Lemma trim_last s :
  trim s = [] \/ exists body z, trim s = body ++ [z] /\ isSpace z = false.
Proof.
  unfold trim.
  destruct (dropWhile_head isSpace (rev (dropWhile isSpace s))) as [->|(z & r & -> & Hz)].
  - now left.
  - right. exists (rev r), z. split; [reflexivity|exact Hz].
Qed.

Lemma trim_first s :
  trim s = [] \/ exists c m, trim s = c :: m /\ isSpace c = false.
Proof.
  destruct (trim s) as [|c m] eqn:E; [now left|right].
  exists c, m. split; [reflexivity|].
  assert (Hd : exists b, dropWhile isSpace s = trim s ++ b).
  { exists (rev (takeWhile isSpace (rev (dropWhile isSpace s)))).
    unfold trim. rewrite <- rev_app_distr, <- takeWhile_dropWhile. now rewrite rev_involutive. }
  destruct Hd as [b Hb]. rewrite E in Hb. simpl in Hb.
  destruct (dropWhile_head isSpace s) as [H|(d & r & H & Hd)]; rewrite H in Hb.
  - discriminate.
  - now inversion Hb; subst.
Qed.

Lemma adjFree_suffix p a m : adjFree p (a ++ m) = true -> adjFree p m = true.
Proof.
  induction a as [|x a IH]; intros H; [exact H|].
  apply IH. cbn [app] in H. cbn [adjFree] in H.
  destruct (a ++ m) as [|y t]; [reflexivity|].
  apply andb_prop in H. apply H.
Qed.

Lemma adjFree_prefix p m b : adjFree p (m ++ b) = true -> adjFree p m = true.
Proof.
  induction m as [|x m IH]; intros H; [reflexivity|].
  destruct m as [|y m]; [reflexivity|].
  change (adjFree p ((x :: y :: m) ++ b))
    with (negb (p x && p y) && adjFree p ((y :: m) ++ b))%bool in H.
  change (adjFree p (x :: y :: m)) with (negb (p x && p y) && adjFree p (y :: m))%bool.
  apply andb_prop in H. destruct H as [H1 H2].
  rewrite H1. apply IH. exact H2.
Qed.

Lemma adjFree_map p l : forall l', map p l = map p l' -> adjFree p l = adjFree p l'.
Proof.
  induction l as [|x l IH]; intros [|x' l'] H; try discriminate; [reflexivity|].
  cbn [map] in H. inversion H as [[Hx Hl]].
  destruct l as [|y l], l' as [|y' l']; try discriminate; [reflexivity|].
  change (adjFree p (x :: y :: l)) with (negb (p x && p y) && adjFree p (y :: l))%bool.
  change (adjFree p (x' :: y' :: l')) with (negb (p x' && p y') && adjFree p (y' :: l'))%bool.
  rewrite (IH (y' :: l') Hl). cbn [map] in Hl.
  assert (Hy : p y = p y') by congruence.
  now rewrite Hx, Hy.
Qed.

Lemma run_suffix a m : forall n, underscoreRun n (a ++ m) = true -> underscoreRun 0 m = true.
Proof.
  induction a as [|x a IH]; intros n H.
  - apply (run_mono m n); [lia|exact H].
  - cbn [app underscoreRun] in H. destruct (eqc "_" x).
    + apply andb_prop in H. destruct H as [_ H]. exact (IH _ H).
    + exact (IH _ H).
Qed.

Lemma run_prefix m b : forall n, underscoreRun n (m ++ b) = true -> underscoreRun n m = true.
Proof.
  induction m as [|x m IH]; intros n H; [reflexivity|].
  cbn [app underscoreRun] in H |- *. destruct (eqc "_" x).
  - apply andb_prop in H. destruct H as [H1 H]. rewrite H1. exact (IH _ H).
  - exact (IH _ H).
Qed.

Lemma run_rel s s' :
  Forall2 caseRel s s' -> forall n, underscoreRun n s' = underscoreRun n s.
Proof.
  induction 1 as [|x y s s' Hxy Hs IH]; intros n; [reflexivity|].
  cbn [underscoreRun].
  rewrite (caseBlind_rel (eqc "_") x y (caseBlind_eqc "_" eq_refl eq_refl) Hxy).
  now rewrite !IH.
Qed.

(** *** Parsing a string *)

Lemma chars_parseFrom s :
  forall g, chars (parseFrom g s) = filter (fun c => negb (isHSpace c)) s.
Proof.
  unfold chars. induction s as [|c s IH]; intros g; simpl; [reflexivity|].
  destruct (isHSpace c); simpl; [apply IH|]. now rewrite IH.
Qed.

Lemma lastChar_parseFrom s :
  forall g prev, lastChar prev (fst (parseFrom g s)) = lastSolid prev s.
Proof.
  unfold lastSolid. induction s as [|c s IH]; intros g prev; simpl; [reflexivity|].
  destruct (isHSpace c); simpl; apply IH.
Qed.

Lemma Good_parse_trim s :
  plainOperators s = true -> trim s <> [] -> Good (parse (trim s)).
Proof.
  intros Hp Hne. unfold plainOperators in Hp. apply andb_prop in Hp. destruct Hp as [Hadj Hrun].
  destruct (trim_segment s) as (a & b & Hs).
  repeat split.
  - apply parse_ok.
  - apply parse_ok.
  - destruct (trim_first s) as [H|(c & m & H & Hc)]; [contradiction|].
    rewrite H. unfold parse. simpl.
    destruct (isHSpace c) eqn:E; [|exact Hc].
    apply isHSpace_isSpace in E. congruence.
  - destruct (trim_last s) as [H|(body & z & H & Hz)]; [contradiction|].
    unfold parse. rewrite lastChar_parseFrom, H. unfold lastSolid.
    rewrite fold_left_app. simpl.
    destruct (isHSpace z) eqn:E; [|exact Hz].
    apply isHSpace_isSpace in E. congruence.
  - unfold parse. rewrite chars_parseFrom.
    rewrite Hs, !filter_app in Hadj.
    apply adjFree_suffix in Hadj. now apply adjFree_prefix in Hadj.
  - rewrite parse_render. rewrite Hs in Hrun.
    apply run_suffix in Hrun. now apply run_prefix in Hrun.
Qed.

(** *** Letter case and good reps *)

Lemma render_rel items items' tail :
  Forall2 itemRel items items' ->
  Forall2 caseRel (renderItems items tail) (renderItems items' tail).
Proof.
  induction 1 as [|[g c] [g' c'] r r' [Hg Hc] Hr IH]; simpl in *.
  - apply Forall2_caseRel_refl.
  - subst g'. apply Forall2_app; [apply Forall2_caseRel_refl|]. now constructor.
Qed.

Lemma Good_rel items items' tail :
  Forall2 itemRel items items' -> Good (items, tail) -> Good (items', tail).
Proof.
  intros Hrel ([Hi Ht] & [Hf Hl] & Hadj & Hrun). unfold Good, chars, render in *. simpl in *.
  repeat split.
  - apply (itemRel_ok items items' Hrel Hi).
  - exact Ht.
  - destruct Hrel as [|[g c] [g' c'] r r' [Hg Hc] Hr]; [exact Hf|]. simpl in *.
    now rewrite (caseBlind_rel isSpace c c' caseBlind_isSpace Hc).
  - pose proof (lastChar_rel items items' Hrel None None I) as Hr.
    destruct (lastChar None items) as [x|], (lastChar None items') as [y|];
      simpl in *; try contradiction.
    now rewrite (caseBlind_rel isSpace x y caseBlind_isSpace Hr).
  - rewrite <- Hadj. apply adjFree_map.
    apply (itemRel_chars opchar items items' caseBlind_opchar Hrel).
  - now rewrite (run_rel _ _ (render_rel items items' tail Hrel)).
Qed.




Lemma capsWords_table : Forall (fun w => tableWord w = true) capsWords.
Proof. apply Forall_forall. apply forallb_forall. vm_compute. reflexivity. Qed.

(** *** The theorem *)


(** ** C8 *)




(** The two-character operators are outside that class; on these
    formulas with [<=] and [<>] a second run changes nothing either. *)
Example prettify_idempotent_examples :
  Forall (fun s => prettifySalesforceFormula (prettifySalesforceFormula (VString s))
                   = prettifySalesforceFormula (VString s))
         [js "if(a=1,true,false)"; js "a<=b"; js "IF ( x <> 1 , y , z )"].
Proof. repeat constructor; vm_compute; reflexivity. Qed.

(** * Further properties of the code *)

(** * More of the code *)

(** ** What the scanners take from the input *)

Lemma firstn_takeWhile p (l : jsstring) : firstn (length (takeWhile p l)) l = takeWhile p l.
Proof.
  induction l as [|c l IH]; simpl; [reflexivity|].
  destruct (p c); simpl; [now rewrite IH|reflexivity].
Qed.

Lemma substring_from formula p n : substring formula p (p + n) = firstn n (skipn p formula).
Proof. unfold substring. now replace (p + n - p) with n by lia. Qed.

Lemma firstn_snoc {A} (l : list A) n x :
  nth_error l n = Some x -> firstn (n + 1) l = firstn n l ++ [x].
Proof.
  revert n. induction l as [|y l IH]; intros [|n] H; simpl in *; try discriminate.
  - now inversion H.
  - now rewrite (IH n H).
Qed.

Lemma scanStringBody_split q rest :
  rest = scanStringBody q rest
  \/ exists r, rest = scanStringBody q rest ++ q :: r.
Proof.
  assert (H : forall n rest, length rest <= n ->
            rest = scanStringBody q rest
            \/ exists r, rest = scanStringBody q rest ++ q :: r).
  { induction n as [|n IH]; intros [|c r] Hl; simpl in *; try lia; try (now left).
    destruct (N.eqb c q) eqn:Eq.
    - apply N.eqb_eq in Eq. subst c. right. now exists r.
    - destruct (N.eqb c backslash).
      + destruct r as [|c2 r2]; [now left|].
        destruct n as [|n]; [simpl in Hl; lia|].
        destruct (IH r2) as [E|[r3 E]]; [simpl in Hl; lia| |].
        * left. f_equal. f_equal. exact E.
        * right. exists r3. cbn [app]. f_equal. f_equal. exact E.
      + destruct (IH r) as [E|[r3 E]]; [lia| |].
        * left. f_equal. exact E.
        * right. exists r3. cbn [app]. f_equal. exact E. }
  apply (H (length rest)). lia.
Qed.

Lemma scanBlockComment_split rest :
  rest = scanBlockComment rest
  \/ exists r, rest = scanBlockComment rest ++ ch "*" :: ch "/" :: r.
Proof.
  induction rest as [|c r IH]; [now left|]. cbn [scanBlockComment].
  destruct (N.eqb c (ch "*") && match r with d :: _ => N.eqb d (ch "/") | [] => false end)%bool
    eqn:E.
  - right. apply andb_prop in E. destruct E as [E1 E2].
    destruct r as [|d r']; [discriminate|].
    apply N.eqb_eq in E1, E2. subst c d. now exists r'.
  - destruct IH as [IH|[r3 IH]].
    + left. f_equal. exact IH.
    + right. exists r3. cbn [app]. f_equal. exact IH.
Qed.

Lemma scanField_prefix rest :
  forall bc, firstn (length (scanField bc rest)) rest = scanField bc rest.
Proof.
  induction rest as [|c r IH]; intros bc; simpl; [reflexivity|].
  destruct (0 <? bc)%Z; simpl; [now rewrite IH|reflexivity].
Qed.

Lemma firstn_app_exact {A} (a b : list A) : firstn (length a) (a ++ b) = a.
Proof. rewrite firstn_app, Nat.sub_diag, firstn_all. simpl. apply app_nil_r. Qed.

(** ** One turn of the main loop, once more *)

Lemma push_fact formula position char tokens k v p' :
  tokenizerKind k = true ->
  v = substring formula position p' ->
  tokenFact formula position char tokens (p', pushSpan tokens k v p').
Proof. intros Hk Hv. right. eexists. split; [reflexivity|]. split; [exact Hk|now left]. Qed.

Lemma emit_fact formula position char tokens k v a b p' :
  tokenizerKind k = true ->
  v = substring formula position p' ->
  tokenFact formula position char tokens (p', tokens ++ [mkToken k v a b]).
Proof. intros Hk Hv. right. eexists. split; [reflexivity|]. split; [exact Hk|now left]. Qed.

Lemma substring_one formula position char :
  nth_error formula position = Some char ->
  [char] = substring formula position (position + 1).
Proof.
  intros H. rewrite substring_from, (skipn_nth_error _ _ _ H). reflexivity.
Qed.

Lemma scanToken_fact formula position tokens char :
  nth_error formula position = Some char ->
  tokenFact formula position char tokens (scanToken formula position tokens char).
Proof.
  intros Hc.
  pose proof (nth_error_lt _ _ _ Hc) as Hlt.
  pose proof (skipn_nth_error _ _ _ Hc) as Hrest.
  assert (Hlen : forall k, length (skipn (position + k) formula) = length formula - position - k)
    by (intros k; rewrite length_skipn; lia).
  assert (Hskip : forall k, skipn position formula
                            = firstn k (skipn position formula) ++ skipn (position + k) formula).
  { intros k. rewrite Nat.add_comm, <- skipn_skipn. symmetry. apply firstn_skipn. }
  unfold scanToken. cbv zeta.
  destruct (isSpace char) eqn:Hsp.
  { apply push_fact; [reflexivity|]. now rewrite substring_from, firstn_takeWhile. }
  destruct (N.eqb char dquote || N.eqb char squote)%bool eqn:Hq.
  { (* strings *)
    pose proof (scanStringBody_split char (skipn (position + 1) formula)) as Hb.
    set (body := scanStringBody char (skipn (position + 1) formula)) in *.
    assert (Hr1 : skipn position formula = char :: skipn (position + 1) formula)
      by (rewrite Hrest; now replace (position + 1) with (S position) by lia).
    destruct (position + 1 + length body <? length formula) eqn:Hclosed.
    - apply Nat.ltb_lt in Hclosed. apply push_fact; [reflexivity|].
      replace (position + 1 + length body + 1) with (position + (length body + 2)) by lia.
      rewrite substring_from, Hr1.
      replace (length body + 2) with (S (length body + 1)) by lia. cbn [firstn]. f_equal.
      destruct Hb as [Hb|[r Hb]].
      + apply (f_equal (@length N)) in Hb. rewrite Hlen in Hb. lia.
      + rewrite Hb. replace (length body + 1) with (length (body ++ [char])).
        * change (char :: r) with ([char] ++ r). rewrite app_assoc.
          symmetry. apply firstn_app_exact.
        * rewrite length_app. simpl. lia.
    - apply Nat.ltb_ge in Hclosed. apply push_fact; [reflexivity|].
      pose proof (scanStringBody_length char (skipn (position + 1) formula)) as L.
      rewrite Hlen in L. fold body in L.
      replace (position + 1 + length body) with (position + S (length body)) by lia.
      rewrite substring_from, Hr1. cbn [firstn]. f_equal.
      destruct Hb as [Hb|[r Hb]].
      + rewrite Hb. symmetry. apply firstn_all.
      + apply (f_equal (@length N)) in Hb. rewrite Hlen, length_app in Hb. simpl in Hb. lia. }
  destruct (N.eqb char (ch "/") && charIs formula (position + 1) (ch "*"))%bool eqn:Hblock.
  { (* block comment *)
    apply andb_prop in Hblock. destruct Hblock as [Hs1 Hstar].
    apply N.eqb_eq in Hs1. subst char.
    pose proof (charIs_lt _ _ _ Hstar) as Hlt2. apply charIs_nth in Hstar.
    assert (Hr2 : skipn position formula = ch "/" :: ch "*" :: skipn (position + 2) formula).
    { rewrite Hrest. f_equal. replace (S position) with (position + 1) by lia.
      rewrite (skipn_nth_error _ _ _ Hstar). f_equal. f_equal. lia. }
    pose proof (scanBlockComment_split (skipn (position + 2) formula)) as Hb.
    set (body := scanBlockComment (skipn (position + 2) formula)) in *.
    destruct (position + 2 + length body <? length formula) eqn:Hclosed.
    - apply Nat.ltb_lt in Hclosed. apply push_fact; [reflexivity|].
      replace (position + 2 + length body + 2) with (position + (length body + 4)) by lia.
      rewrite substring_from, Hr2.
      replace (length body + 4) with (S (S (length body + 2))) by lia. cbn [firstn].
      change (js "/*" ++ body ++ js "*/") with (ch "/" :: ch "*" :: body ++ js "*/").
      f_equal. f_equal.
      destruct Hb as [Hb|[r Hb]].
      + apply (f_equal (@length N)) in Hb. rewrite Hlen in Hb. lia.
      + rewrite Hb. replace (length body + 2) with (length (body ++ js "*/")).
        * change (ch "*" :: ch "/" :: r) with (js "*/" ++ r). rewrite app_assoc.
          symmetry. apply firstn_app_exact.
        * rewrite length_app. simpl. lia.
    - apply Nat.ltb_ge in Hclosed. apply push_fact; [reflexivity|].
      pose proof (scanBlockComment_length (skipn (position + 2) formula)) as L.
      rewrite Hlen in L. fold body in L.
      replace (position + 2 + length body) with (position + S (S (length body))) by lia.
      rewrite substring_from, Hr2. cbn [firstn].
      change (js "/*" ++ body) with (ch "/" :: ch "*" :: body). f_equal. f_equal.
      destruct Hb as [Hb|[r Hb]].
      + rewrite Hb. symmetry. apply firstn_all.
      + apply (f_equal (@length N)) in Hb. rewrite Hlen, length_app in Hb. simpl in Hb. lia. }
  destruct (N.eqb char (ch "/") && charIs formula (position + 1) (ch "/"))%bool eqn:Hline.
  { (* line comment *)
    apply andb_prop in Hline. destruct Hline as [Hs1 Hslash].
    apply N.eqb_eq in Hs1. subst char. apply charIs_nth in Hslash.
    assert (Hr2 : skipn position formula = ch "/" :: ch "/" :: skipn (position + 2) formula).
    { rewrite Hrest. f_equal. replace (S position) with (position + 1) by lia.
      rewrite (skipn_nth_error _ _ _ Hslash). f_equal. f_equal. lia. }
    apply push_fact; [reflexivity|].
    match goal with |- context [takeWhile ?p ?l] => set (body := takeWhile p l) end.
    replace (position + 2 + length body) with (position + S (S (length body))) by lia.
    rewrite substring_from, Hr2. cbn [firstn].
    change (js "//" ++ body) with (ch "/" :: ch "/" :: body). f_equal. f_equal.
    unfold body. now rewrite firstn_takeWhile. }
  destruct (findOperator formula position) as [op|] eqn:Hop.
  { (* operator *)
    apply emit_fact; [reflexivity|].
    unfold findOperator in Hop. apply find_some in Hop. destruct Hop as [_ Ht].
    apply andb_prop in Ht. destruct Ht as [_ Ht]. apply jseq_eq in Ht. now symmetry. }
  destruct (N.eqb char (ch "[")) eqn:Hbr.
  { (* field references *)
    apply N.eqb_eq in Hbr.
    destruct (extendNested (length formula) formula
                (position + length (extractField 0 (skipn position formula)))
                (extractField 0 (skipn position formula)) false)
      as [[tempPosition fullNestedField] isNestedPattern] eqn:Hext.
    destruct isNestedPattern.
    - right. eexists. split; [reflexivity|]. split; [reflexivity|]. right. now split.
    - assert (Hr1 : skipn position formula = ch "[" :: skipn (position + 1) formula)
        by (rewrite Hrest, Hbr; now replace (position + 1) with (S position) by lia).
      set (field := scanField 1 (skipn (position + 1) formula)).
      assert (Hv : ch "[" :: field
                   = substring formula position (position + length (ch "[" :: field))).
      { rewrite substring_from, Hr1. cbn [length firstn]. f_equal.
        unfold field. now rewrite scanField_prefix. }
      destruct (includesChar (ch "[" :: field) (ch ".")); now apply push_fact. }
  destruct (N.eqb char (ch "(") || N.eqb char (ch ")"))%bool.
  { apply emit_fact; [reflexivity|]. now apply substring_one. }
  destruct (N.eqb char (ch ",")).
  { apply emit_fact; [reflexivity|]. now apply substring_one. }
  destruct (isDigit char) eqn:Hd.
  { apply push_fact; [reflexivity|]. now rewrite substring_from, firstn_takeWhile. }
  destruct (N.eqb char (ch ".")) eqn:Hdot.
  { (* dot *)
    destruct (last (map Some tokens) None) as [lastToken|].
    - destruct (isFieldToken lastToken
                && charIs formula (skipSpaces formula (position + 1)) (ch "["))%bool.
      + now left.
      + apply emit_fact; [reflexivity|]. now apply substring_one.
    - apply emit_fact; [reflexivity|]. now apply substring_one. }
  destruct (isIdentStart char) eqn:Hid.
  { apply push_fact; [reflexivity|]. now rewrite substring_from, firstn_takeWhile. }
  apply emit_fact; [reflexivity|]. now apply substring_one.
Qed.

(** ** Invariants of the main loop *)

Lemma tokenizeLoop_inv formula (I : nat -> list Token -> Prop) :
  (forall position tokens char,
     nth_error formula position = Some char -> I position tokens ->
     I (fst (scanToken formula position tokens char))
       (snd (scanToken formula position tokens char))) ->
  forall fuel position tokens toks,
    tokenizeLoop fuel formula position tokens = Some toks ->
    I position tokens ->
    exists p, length formula <= p /\ I p toks.
Proof.
  intros Hstep. induction fuel as [|fuel IH]; intros position tokens toks H Hi;
    cbn [tokenizeLoop] in H;
    destruct (nth_error formula position) as [char|] eqn:Hc; try discriminate.
  1, 3: inversion H; subst; apply nth_error_None in Hc; now exists position.
  pose proof (Hstep position tokens char Hc Hi) as Hi'.
  destruct (scanToken formula position tokens char) as [p' toks'].
  now apply (IH p' toks' toks).
Qed.

Lemma tokenizeFormula_inv formula (I : nat -> list Token -> Prop) :
  (forall position tokens char,
     nth_error formula position = Some char -> I position tokens ->
     I (fst (scanToken formula position tokens char))
       (snd (scanToken formula position tokens char))) ->
  I 0 [] ->
  exists p, length formula <= p /\ I p (tokenizeFormula (VString formula)).
Proof.
  intros Hstep H0. unfold tokenizeFormula.
  destruct formula as [|c s]; [now exists 0|]. cbn [usable].
  destruct (tokenizeString_total (c :: s)) as [toks Ht]. rewrite Ht.
  now apply (tokenizeLoop_inv (c :: s) I Hstep _ _ _ _ Ht).
Qed.

(** The token one turn pushes, with its span and its text. *)
Lemma scanToken_pushed formula position tokens char :
  nth_error formula position = Some char ->
  let res := scanToken formula position tokens char in
  position < fst res <= length formula
  /\ (snd res = tokens
      \/ exists t, snd res = tokens ++ [t]
                   /\ start t = Z.of_nat position /\ end_ t = Z.of_nat (fst res)
                   /\ tokenizerKind (type t) = true
                   /\ (value t = substring formula position (fst res)
                       \/ (type t = NESTED_FIELD /\ char = ch "["))).
Proof.
  intros Hc res.
  pose proof (scanToken_outcome formula position tokens char Hc) as [Hp Hout].
  pose proof (scanToken_fact formula position tokens char Hc) as Hf.
  fold res in Hp, Hout, Hf. split; [exact Hp|].
  destruct Hout as [(t & Ht & Hs & He) | (Ht & _)]; [|now left].
  right. exists t. destruct Hf as [Hf|(t' & Ht' & Hk & Hv)].
  - rewrite Ht in Hf. apply (f_equal (@length Token)) in Hf.
    rewrite length_app in Hf. simpl in Hf. lia.
  - rewrite Ht in Ht'. apply app_inj_tail in Ht'. destruct Ht' as [_ <-].
    repeat split; assumption.
Qed.

Lemma tokenize_facts formula :
  Forall (fun t => tokenizerKind (type t) = true
                   /\ (type t = NESTED_FIELD \/ value t = sourceText formula t))
         (tokenizeFormula (VString formula)).
Proof.
  destruct (tokenizeFormula_inv formula
              (fun _ tokens =>
                 Forall (fun t => tokenizerKind (type t) = true
                                  /\ (type t = NESTED_FIELD \/ value t = sourceText formula t))
                        tokens)) as (p & _ & H); [|constructor|exact H].
  intros position tokens char Hc Hi.
  destruct (scanToken_pushed formula position tokens char Hc) as [_ [-> | (t & -> & Hs & He & Hk & Hv)]];
    [exact Hi|].
  apply Forall_app. split; [exact Hi|]. constructor; [|constructor].
  split; [exact Hk|]. destruct Hv as [Hv|[Hv _]]; [right|now left].
  unfold sourceText. now rewrite Hs, He, !Nat2Z.id.
Qed.

Lemma tokens_of_unusable formula :
  usable formula = None -> tokenizeFormula formula = [].
Proof. unfold tokenizeFormula. now intros ->. Qed.

Lemma usable_string formula s : usable formula = Some s -> formula = VString s.
Proof. destruct formula as [| | | |[|c r]|]; simpl; intros H; now inversion H. Qed.

(** ** X1 *)

(** X1: every token of the tokenizer has one of the types whitespace,
    string, comment, operator, field, nested_field, parenthesis, comma,
    number, dot, identifier; the tokenizer never gives a bracket token,
    whatever the input. *)
Theorem tokenize_kinds (formula : JSValue) (t : Token) :
  In t (tokenizeFormula formula) ->
  tokenizerKind (type t) = true /\ type t <> BRACKET.
Proof.
  intros Hin.
  assert (Hk : tokenizerKind (type t) = true).
  { destruct (usable formula) as [s|] eqn:E.
    - apply usable_string in E. subst formula.
      pose proof (tokenize_facts s) as H. rewrite Forall_forall in H. now apply H.
    - rewrite (tokens_of_unusable formula E) in Hin. contradiction. }
  split; [exact Hk|]. intros E. rewrite E in Hk. discriminate.
Qed.

Lemma tokenize_kinds_witness :
  In (mkToken FIELD (js "[a]") 0 3) (tokenizeFormula (VString (js "[a]+1")))
  /\ tokenizerKind FIELD = true /\ FIELD <> BRACKET.
Proof.
  split; [vm_compute; now left|].
  apply (tokenize_kinds (VString (js "[a]+1")) (mkToken FIELD (js "[a]") 0 3)).
  vm_compute. now left.
Defined.

(** ** X2 *)

(** X2: the value of a token is the text of the formula between its
    start and its end, for every token but a nested field (whose value
    leaves out the white space around the dots). *)
Theorem tokenize_values_are_source (formula : jsstring) (t : Token) :
  In t (tokenizeFormula (VString formula)) ->
  type t <> NESTED_FIELD ->
  value t = sourceText formula t.
Proof.
  intros Hin Hn. pose proof (tokenize_facts formula) as H. rewrite Forall_forall in H.
  destruct (H t Hin) as [_ [E|E]]; [contradiction|exact E].
Qed.

Lemma tokenize_values_are_source_witness :
  In (mkToken STRING (js "'a b'") 2 7) (tokenizeFormula (VString (js "x='a b'")))
  /\ value (mkToken STRING (js "'a b'") 2 7)
     = sourceText (js "x='a b'") (mkToken STRING (js "'a b'") 2 7).
Proof.
  split; [vm_compute; tauto|].
  apply (tokenize_values_are_source (js "x='a b'") (mkToken STRING (js "'a b'") 2 7)).
  - vm_compute. tauto.
  - discriminate.
Defined.

(** ** X3 *)

Lemma charIs_includes formula k c : charIs formula k c = true -> includesChar formula c = true.
Proof.
  intros H. apply charIs_nth in H. apply nth_error_In in H.
  unfold includesChar. apply existsb_exists. exists c. split; [exact H|apply N.eqb_refl].
Qed.

Lemma firstn_substring formula a b :
  a <= b -> firstn a formula ++ substring formula a b = firstn b formula.
Proof.
  unfold substring. revert formula b. induction a as [|a IH]; intros formula b H.
  - simpl. now rewrite Nat.sub_0_r.
  - destruct b as [|b]; [lia|]. destruct formula as [|c l]; [now rewrite !firstn_nil|].
    simpl. f_equal. apply IH. lia.
Qed.

Lemma tokens_spell_formula (formula : jsstring) :
  includesChar formula (ch "[") = false ->
  concat (map value (tokenizeFormula (VString formula))) = formula.
Proof.
  intros Hno.
  destruct (tokenizeFormula_inv formula
              (fun position tokens =>
                 position <= length formula
                 /\ concat (map value tokens) = firstn position formula))
    as (p & Hp & Hle & H).
  - intros position tokens char Hc [Hle Hi].
    pose proof (scanToken_outcome formula position tokens char Hc) as [_ Hout].
    destruct (scanToken_pushed formula position tokens char Hc) as [Hp Hpush].
    split; [lia|].
    destruct Hpush as [Hsame | (t & -> & Hs & He & Hk & Hv)].
    + exfalso. destruct Hout as [(t & Ht & _) | (_ & _ & _ & _ & Hb)].
      * rewrite Ht in Hsame. apply (f_equal (@length Token)) in Hsame.
        rewrite length_app in Hsame. simpl in Hsame. lia.
      * apply charIs_includes in Hb. congruence.
    + destruct Hv as [Hv|[_ Hb]].
      * rewrite map_app, concat_app, Hi. simpl. rewrite app_nil_r, Hv.
        apply firstn_substring. lia.
      * exfalso. subst char. apply nth_error_In in Hc.
        assert (E : includesChar formula (ch "[") = true).
        { unfold includesChar. apply existsb_exists. exists (ch "["). now split. }
        congruence.
  - split; [lia|reflexivity].
  - rewrite H. apply firstn_all2. lia.
Qed.

(** X3: for a formula without [[], the values of the tokens, one after
    the other, are the formula: nothing is lost and nothing is added. *)
Theorem tokenize_round_trip (formula : jsstring) :
  includesChar formula (ch "[") = false ->
  concat (map value (tokenizeFormula (VString formula))) = formula.
Proof. apply tokens_spell_formula. Qed.

Lemma tokenize_round_trip_witness :
  includesChar (js "IF(a <= 1, 'x', b) // c") (ch "[") = false
  /\ concat (map value (tokenizeFormula (VString (js "IF(a <= 1, 'x', b) // c"))))
     = js "IF(a <= 1, 'x', b) // c".
Proof.
  split; [reflexivity|].
  apply (tokenize_round_trip (js "IF(a <= 1, 'x', b) // c")). reflexivity.
Defined.

(** ** X4 *)

Lemma tokenizeLoop_end fuel formula position tokens :
  length formula <= position -> tokenizeLoop fuel formula position tokens = Some tokens.
Proof.
  intros H. apply nth_error_None in H. destruct fuel; cbn [tokenizeLoop]; now rewrite H.
Qed.

(** A formula that is read as one token. *)
Lemma tokenize_single c s p t :
  scanToken (c :: s) 0 [] c = (p, [t]) -> length (c :: s) <= p ->
  tokenizeFormula (VString (c :: s)) = [t].
Proof.
  intros H Hp. unfold tokenizeFormula, tokenizeString. cbn [usable length tokenizeLoop nth_error].
  cbn [length] in H. rewrite H. now rewrite tokenizeLoop_end.
Qed.

Lemma scanStringBody_body q body :
  q <> backslash ->
  StringBody q body ->
  forall rest, scanStringBody q (body ++ rest) = body ++ scanStringBody q rest.
Proof.
  intros Hqb. induction 1 as [|c body Hq Hb _ IH|c body _ IH]; intros rest; [reflexivity| |].
  - cbn [app scanStringBody].
    destruct (N.eqb_spec c q) as [E|_]; [contradiction|].
    destruct (N.eqb_spec c backslash) as [E|_]; [contradiction|]. now rewrite IH.
  - cbn [app scanStringBody].
    destruct (N.eqb_spec backslash q) as [E|_]; [now elim Hqb|].
    rewrite N.eqb_refl. now rewrite IH.
Qed.

Lemma scanToken_string formula position tokens q :
  q = dquote \/ q = squote ->
  scanToken formula position tokens q
  = let body := scanStringBody q (skipn (position + 1) formula) in
    let p := position + 1 + length body in
    if p <? length formula
    then (p + 1, pushSpan tokens STRING (q :: body ++ [q]) (p + 1))
    else (p, pushSpan tokens STRING (q :: body) p).
Proof. intros [-> | ->]; reflexivity. Qed.

(** X4: a formula that is one quoted string, closed by the quote it
    starts with, is one string token: what stands between the quotes
    (operators, brackets, the other quote, a quote after a backslash) is
    not tokenized.  Without the closing quote the string token runs to
    the end of the formula. *)
Theorem tokenize_string_literal (q : N) (body : jsstring) :
  q = dquote \/ q = squote ->
  StringBody q body ->
  tokenizeFormula (VString (q :: body ++ [q]))
  = [mkToken STRING (q :: body ++ [q]) 0 (Z.of_nat (length body) + 2)]
  /\ tokenizeFormula (VString (q :: body))
     = [mkToken STRING (q :: body) 0 (Z.of_nat (length body) + 1)].
Proof.
  intros Hq Hb.
  assert (Hqb : q <> backslash) by (destruct Hq as [-> | ->]; discriminate).
  split.
  - apply (tokenize_single q (body ++ [q]) (length body + 2)).
    + rewrite (scanToken_string _ 0 [] q Hq). cbv zeta. cbn [Nat.add skipn].
      rewrite (scanStringBody_body q body Hqb Hb [q]). cbn [scanStringBody].
      rewrite N.eqb_refl, app_nil_r.
      assert (E : (S (length body) <? length (q :: body ++ [q])) = true)
        by (apply Nat.ltb_lt; cbn [length]; rewrite length_app; simpl; lia).
      rewrite E. unfold pushSpan. cbn [app]. f_equal; [lia|]. f_equal.
      f_equal; cbn [length]; rewrite ?length_app; cbn [length]; lia.
    + cbn [length]. rewrite length_app. simpl. lia.
  - apply (tokenize_single q body (length body + 1)).
    + rewrite (scanToken_string _ 0 [] q Hq). cbv zeta. cbn [Nat.add skipn].
      assert (Hsb : scanStringBody q body = body).
      { pose proof (scanStringBody_body q body Hqb Hb []) as H.
        now rewrite !app_nil_r in H. }
      rewrite !Hsb.
      assert (E : (S (length body) <? length (q :: body)) = false)
        by (apply Nat.ltb_ge; cbn [length]; lia).
      rewrite E. unfold pushSpan. cbn [app]. f_equal; [lia|]. f_equal.
      f_equal; cbn [length]; lia.
    + cbn [length]. lia.
Qed.

Lemma tokenize_string_literal_witness :
  StringBody dquote (js "a<=b [c]" ++ backslash :: dquote :: js "'")
  /\ tokenizeFormula (VString (dquote :: (js "a<=b [c]" ++ backslash :: dquote :: js "'")
                                       ++ [dquote]))
     = [mkToken STRING (dquote :: (js "a<=b [c]" ++ backslash :: dquote :: js "'")
                               ++ [dquote]) 0 13].
Proof.
  assert (H : StringBody dquote (js "a<=b [c]" ++ backslash :: dquote :: js "'")).
  { repeat first [ apply SB_nil
                 | apply SB_unit; [discriminate|discriminate|]
                 | apply SB_escape ]. }
  split; [exact H|].
  exact (proj1 (tokenize_string_literal dquote _ (or_introl eq_refl) H)).
Defined.

(** ** X5 *)

Lemma find_split {A} (f : A -> bool) (l : list A) x :
  find f l = Some x ->
  exists l1 l2, l = l1 ++ x :: l2 /\ (forall y, In y l1 -> f y = false) /\ f x = true.
Proof.
  induction l as [|a l IH]; intros H; [discriminate|]. simpl in H.
  destruct (f a) eqn:E.
  - inversion H; subst. exists [], l. repeat split; [intros y []|exact E].
  - destruct (IH H) as (l1 & l2 & -> & Hl1 & Hx). exists (a :: l1), l2.
    repeat split; [|exact Hx]. intros y [<-|Hy]; [exact E|now apply Hl1].
Qed.

Lemma longestFirst_after table :
  longestFirst table = true ->
  forall l1 x l2 y, table = l1 ++ x :: l2 -> In y l2 -> length y <= length x.
Proof.
  induction table as [|a table IH]; intros H l1 x l2 y E Hy.
  - now destruct l1.
  - cbn [longestFirst] in H. apply andb_prop in H. destruct H as [Ha Ht].
    destruct l1 as [|b l1]; cbn [app] in E; inversion E; subst.
    + rewrite forallb_forall in Ha. apply Nat.leb_le. now apply Ha.
    + now apply (IH Ht l1 x l2 y).
Qed.

(** X5: the operator the tokenizer reads at a position stands there, and
    no operator of the table that stands there is longer: [<=] is never
    read as [<] followed by [=]. *)
Theorem findOperator_longest (formula : jsstring) (position : nat) (op : jsstring) :
  findOperator formula position = Some op ->
  In op OPERATORS /\ operatorAt formula position op
  /\ forall op', In op' OPERATORS -> operatorAt formula position op' ->
                 length op' <= length op.
Proof.
  unfold findOperator. intros H.
  pose proof (find_some _ _ H) as [Hin Ht].
  apply andb_prop in Ht. destruct Ht as [Hle Heq].
  apply Nat.leb_le in Hle. apply jseq_eq in Heq.
  split; [exact Hin|]. split; [now split|].
  intros op' Hin' [Hle' Heq'].
  destruct (find_split _ _ _ H) as (l1 & l2 & E & Hl1 & _).
  rewrite E in Hin'. apply in_app_or in Hin'. destruct Hin' as [Hin'|[<-|Hin']].
  - specialize (Hl1 _ Hin'). cbv beta in Hl1.
    apply Nat.leb_le in Hle'. rewrite Hle', Heq', jseq_refl in Hl1. discriminate.
  - lia.
  - apply (longestFirst_after OPERATORS eq_refl l1 op l2 op' E Hin').
Qed.

Lemma findOperator_longest_witness :
  findOperator (js "a<=b") 1 = Some (js "<=")
  /\ (In (js "<") OPERATORS -> operatorAt (js "a<=b") 1 (js "<") ->
      length (js "<") <= length (js "<=")).
Proof.
  split; [reflexivity|].
  exact (proj2 (proj2 (findOperator_longest (js "a<=b") 1 (js "<=") eq_refl)) (js "<")).
Defined.

(** ** X6 *)

Lemma findOperator_none formula position c :
  nth_error formula position = Some c ->
  forallb (fun op => match op with x :: _ => negb (N.eqb x c) | [] => true end) OPERATORS = true ->
  findOperator formula position = None.
Proof.
  intros Hc Hall. destruct (findOperator formula position) as [op|] eqn:H; [|reflexivity].
  exfalso. unfold findOperator in H. apply find_some in H. destruct H as [Hin Ht].
  apply andb_prop in Ht. destruct Ht as [_ Heq]. apply jseq_eq in Heq.
  rewrite forallb_forall in Hall. specialize (Hall _ Hin).
  pose proof (operators_nonempty _ Hin) as Hne.
  destruct op as [|x op]; [simpl in Hne; lia|].
  rewrite substring_from, (skipn_nth_error _ _ _ Hc) in Heq. cbn [length firstn] in Heq.
  inversion Heq; subst. now rewrite N.eqb_refl in Hall.
Qed.

Lemma digit_range d : isDigit d = true -> (48 <= d <= 57)%N.
Proof.
  unfold isDigit, inRange. intros H. apply andb_prop in H. destruct H as [H1 H2].
  apply N.leb_le in H1, H2. lia.
Qed.

Lemma digit_neq a d : isDigit d = true -> isDigit a = false -> N.eqb a d = false.
Proof. intros Hd Ha. destruct (N.eqb_spec a d) as [->|]; [congruence|reflexivity]. Qed.

Lemma digit_neq' a d : isDigit d = true -> isDigit a = false -> N.eqb d a = false.
Proof. intros Hd Ha. rewrite N.eqb_sym. now apply digit_neq. Qed.

Lemma digit_not_space d : isDigit d = true -> isSpace d = false.
Proof.
  intros Hd. pose proof (digit_range d Hd) as Hr. unfold isSpace, inRange.
  rewrite !(digit_neq' _ d Hd) by reflexivity.
  rewrite (proj2 (N.leb_gt d 13)) by lia.
  rewrite (proj2 (N.leb_gt 8192 d)) by lia.
  now rewrite andb_false_r.
Qed.

Lemma scanToken_digit formula position tokens d :
  nth_error formula position = Some d -> isDigit d = true ->
  scanToken formula position tokens d
  = let number := takeWhile (fun c => isDigit c || N.eqb c (ch "."))%bool
                            (skipn position formula) in
    (position + length number, pushSpan tokens NUMBER number (position + length number)).
Proof.
  intros Hc Hd.
  assert (Hop : findOperator formula position = None).
  { apply (findOperator_none formula position d Hc).
    unfold OPERATORS. cbn [forallb js map list_ascii_of_string].
    now rewrite !(digit_neq _ d Hd) by reflexivity. }
  unfold scanToken. cbv zeta. rewrite Hop, Hd, (digit_not_space d Hd).
  now rewrite !(digit_neq' _ d Hd) by reflexivity.
Qed.

Lemma takeWhile_whole p (l : jsstring) : forallb p l = true -> takeWhile p l = l.
Proof.
  induction l as [|c l IH]; simpl; [reflexivity|]. intros H.
  apply andb_prop in H. destruct H as [Hc Hl]. now rewrite Hc, IH.
Qed.

(** X6: a formula that starts with a digit and holds digits and dots
    only is one number token, however many dots it holds. *)
Theorem tokenize_number (d : N) (rest : jsstring) :
  isDigit d = true ->
  forallb (fun c => isDigit c || N.eqb c (ch "."))%bool rest = true ->
  tokenizeFormula (VString (d :: rest))
  = [mkToken NUMBER (d :: rest) 0 (Z.of_nat (length rest) + 1)].
Proof.
  intros Hd Hrest.
  apply (tokenize_single d rest (length rest + 1)).
  - rewrite (scanToken_digit (d :: rest) 0 [] d eq_refl Hd). cbv zeta. cbn [skipn].
    rewrite (takeWhile_whole _ (d :: rest)) by (cbn [forallb]; now rewrite Hd, Hrest).
    unfold pushSpan. cbn [app length Nat.add]. f_equal; [lia|]. f_equal. f_equal; lia.
  - cbn [length]. lia.
Qed.

Lemma tokenize_number_witness :
  isDigit (ch "1") = true
  /\ tokenizeFormula (VString (js "1.2.3")) = [mkToken NUMBER (js "1.2.3") 0 5].
Proof.
  split; [reflexivity|].
  exact (tokenize_number (ch "1") (js ".2.3") eq_refl eq_refl).
Defined.

(** ** The detector's loop *)

Lemma followedByParen_In rest :
  followedByParen rest = true -> exists t, In t rest /\ isOpenParen t = true.
Proof.
  induction rest as [|t rest IH]; simpl; [discriminate|].
  destruct (kind_eqb (type t) WHITESPACE).
  - intros H. destruct (IH H) as (t' & Hin & Ht'). exists t'. split; [now right|exact Ht'].
  - intros H. exists t. split; [now left|exact H].
Qed.

Lemma skipn_In {A} (l : list A) n x : In x (skipn n l) -> In x l.
Proof.
  revert n. induction l as [|y l IH]; intros [|n] H; simpl in *; try contradiction; auto.
  right. now apply (IH n).
Qed.

Lemma detectStep_shape U tokens st i token :
  type token <> BRACKET ->
  let st' := detectStep U tokens st i token in
  openBrackets st' = openBrackets st
  /\ openParens st'
     = (openParens st
        + (if isOpenParen token then 1 else if isCloseParen token then -1 else 0))%Z
  /\ (errors st' = errors st
      \/ exists e, errors st' = errors st ++ [e] /\ loopError U tokens token e).
Proof.
  intros Hb. unfold detectStep, isOpenParen, isCloseParen, loopError.
  destruct (type token) eqn:Ek; try contradiction; cbn [kind_eqb andb];
    try (split; [reflexivity|]; split; [lia|now left]).
  - (* a parenthesis *)
    destruct (jseq (value token) (js "(")) eqn:Eo.
    + cbn [openParens openBrackets errors]. split; [reflexivity|]. split; [reflexivity|now left].
    + destruct (jseq (value token) (js ")")) eqn:Ec.
      * cbn [openParens openBrackets errors]. split; [reflexivity|]. split; [lia|].
        destruct (openParens st - 1 <? 0)%Z; [|now left].
        right. eexists. split; [reflexivity|]. left.
        split; [|reflexivity]. unfold isCloseParen. now rewrite Ek, Ec.
      * split; [reflexivity|]. split; [lia|now left].
  - (* an identifier *)
    destruct (followedByParen (skipn (i + 1) tokens)
              && negb (includes allFunctions (toUpperCase U (value token)))
              && startsUpper (value token))%bool eqn:E.
    + cbn [openParens openBrackets errors]. split; [reflexivity|]. split; [lia|].
      right. eexists. split; [reflexivity|]. right. split; [reflexivity|].
      apply andb_prop in E. destruct E as [E E3]. apply andb_prop in E. destruct E as [E E2].
      apply negb_true_iff in E2.
      split; [|split; [exact E2|split; [exact E3|reflexivity]]].
      destruct (followedByParen_In _ E) as (t' & Hin & Ht').
      exists t'. split; [now apply (skipn_In tokens (i + 1))|exact Ht'].
    + split; [reflexivity|]. split; [lia|now left].
Qed.

Lemma detectLoop_shape U tokens todo :
  Forall (fun t => type t <> BRACKET) todo ->
  forall st i,
    let st' := detectLoop U tokens st i todo in
    openBrackets st' = openBrackets st
    /\ openParens st' = (openParens st + parenBalance todo)%Z
    /\ exists new, errors st' = errors st ++ new
                   /\ Forall (fun e => exists t, In t todo /\ loopError U tokens t e) new.
Proof.
  induction 1 as [|token todo Hb Htodo IH]; intros st i; cbn [detectLoop parenBalance].
  - split; [reflexivity|]. split; [lia|].
    exists []. split; [now rewrite app_nil_r|constructor].
  - destruct (detectStep_shape U tokens st i token Hb) as (B1 & P1 & E1).
    destruct (IH (detectStep U tokens st i token) (S i)) as (B2 & P2 & new & E2 & Hnew).
    cbv zeta in *. split; [congruence|]. split; [lia|].
    assert (Hnew' : Forall (fun e => exists t, In t (token :: todo) /\ loopError U tokens t e) new).
    { eapply Forall_impl; [|exact Hnew]. intros e (t & Hin & Ht). exists t. split; [now right|exact Ht]. }
    destruct E1 as [E1|(e & E1 & He)].
    + exists new. split; [congruence|exact Hnew'].
    + exists (e :: new). split.
      * rewrite E2, E1, <- app_assoc. reflexivity.
      * constructor; [|exact Hnew']. exists token. split; [now left|exact He].
Qed.

Lemma tokens_no_bracket formula :
  Forall (fun t => type t <> BRACKET) (tokenizeFormula (VString formula)).
Proof.
  eapply Forall_impl; [|apply tokenize_facts]. intros t [Hk _] E. rewrite E in Hk. discriminate.
Qed.

(** The whole detector: the errors of the loop, then the count of the
    parentheses left open. *)
Lemma detect_shape U s :
  let tokens := tokenizeFormula (VString s) in
  openBrackets (detectLoop U tokens (mkDetect 0 0 []) 0 tokens) = 0%Z
  /\ exists errs,
       detectFormulaErrors U (VString s)
       = errs ++ (if (0 <? parenBalance tokens)%Z
                  then [unmatchedOpening s (parenBalance tokens)] else [])
       /\ Forall (fun e => exists t, In t tokens /\ loopError U tokens t e) errs.
Proof.
  intros tokens.
  destruct (detectLoop_shape U tokens tokens (tokens_no_bracket s) (mkDetect 0 0 []) 0)
    as (B & P & new & E & Hnew).
  cbv zeta in *. cbn [openBrackets openParens errors app] in B, P, E.
  split; [exact B|].
  destruct s as [|c s].
  - exists []. split; [reflexivity|constructor].
  - exists new. split; [|exact Hnew].
    unfold detectFormulaErrors. cbn [usable]. fold tokens. rewrite B, P, E.
    replace (0 + parenBalance tokens)%Z with (parenBalance tokens) by lia.
    cbn [Z.ltb Z.compare]. unfold unmatchedOpening.
    destruct (0 <? parenBalance tokens)%Z; [reflexivity|now rewrite app_nil_r].
Qed.

(** ** X7 *)

(** X7: the detector's errors are, in this order, the errors of its
    loop, each an unmatched closing parenthesis at a [)] token or an
    invalid function at an identifier token, and then, exactly when the
    formula has more [(] than [)] tokens, one error that holds the
    difference.  The bracket counter stays at zero: as the tokenizer
    gives no bracket token, no bracket error is ever reported. *)
Theorem detect_errors_shape (U : jsstring -> jsstring) (s : jsstring) :
  let tokens := tokenizeFormula (VString s) in
  openBrackets (detectLoop U tokens (mkDetect 0 0 []) 0 tokens) = 0%Z
  /\ exists errs,
       detectFormulaErrors U (VString s)
       = errs ++ (if (0 <? parenBalance tokens)%Z
                  then [unmatchedOpening s (parenBalance tokens)] else [])
       /\ Forall (fun e => exists t, In t tokens
                                     /\ ((isCloseParen t = true /\ e = unmatchedClosing t)
                                         \/ (type t = IDENTIFIER /\ e = invalidFunction t)))
                 errs.
Proof.
  intros tokens. destruct (detect_shape U s) as (B & errs & E & H).
  split; [exact B|]. exists errs. split; [exact E|].
  eapply Forall_impl; [|exact H].
  intros e (t & Hin & [Hc|(Hi & _ & _ & _ & He)]); exists t; split; auto.
Qed.

(** ** X8 *)

Lemma substring_In formula a b x : In x (substring formula a b) -> In x formula.
Proof.
  unfold substring. intros H. apply (skipn_In formula a).
  revert H. generalize (skipn a formula) (b - a). clear.
  intros l n. revert l. induction n as [|n IH]; intros [|y l] H; simpl in *; try contradiction.
  destruct H as [H|H]; [now left|right; now apply IH].
Qed.

Lemma paren_in_formula s t c :
  In t (tokenizeFormula (VString s)) ->
  type t = PARENTHESIS -> value t = [c] -> includesChar s c = true.
Proof.
  intros Hin Hk Hv. pose proof (tokenize_facts s) as H. rewrite Forall_forall in H.
  destruct (H t Hin) as [_ [E|E]]; [congruence|].
  unfold includesChar. apply existsb_exists. exists c. split; [|apply N.eqb_refl].
  apply (substring_In s (Z.to_nat (start t)) (Z.to_nat (end_ t))).
  unfold sourceText in E. rewrite <- E, Hv. now left.
Qed.

Lemma isOpenParen_inv t : isOpenParen t = true -> type t = PARENTHESIS /\ value t = js "(".
Proof.
  unfold isOpenParen. intros H. apply andb_prop in H. destruct H as [H1 H2].
  apply kind_eqb_eq in H1. apply jseq_eq in H2. now split.
Qed.

Lemma isCloseParen_inv t : isCloseParen t = true -> type t = PARENTHESIS /\ value t = js ")".
Proof.
  unfold isCloseParen. intros H. apply andb_prop in H. destruct H as [H1 H2].
  apply kind_eqb_eq in H1. apply jseq_eq in H2. now split.
Qed.

Lemma parenBalance_none tokens :
  Forall (fun t => isOpenParen t = false /\ isCloseParen t = false) tokens ->
  parenBalance tokens = 0%Z.
Proof.
  induction 1 as [|t tokens [H1 H2] _ IH]; [reflexivity|].
  cbn [parenBalance]. rewrite H1, H2, IH. reflexivity.
Qed.

(** X8: a formula that holds neither [(] nor [)] has no error: both the
    parenthesis errors and the invalid-function error need a
    parenthesis. *)
Theorem detect_no_parenthesis_no_error (U : jsstring -> jsstring) (s : jsstring) :
  includesChar s (ch "(") = false ->
  includesChar s (ch ")") = false ->
  detectFormulaErrors U (VString s) = [].
Proof.
  intros Ho Hc. destruct (detect_shape U s) as (_ & errs & E & H). cbv zeta in *.
  assert (Hopen : forall t, In t (tokenizeFormula (VString s)) -> isOpenParen t = false).
  { intros t Hin. destruct (isOpenParen t) eqn:Et; [|reflexivity].
    destruct (isOpenParen_inv t Et) as [Hk Hv].
    rewrite (paren_in_formula s t (ch "(") Hin Hk Hv) in Ho. discriminate. }
  assert (Hclose : forall t, In t (tokenizeFormula (VString s)) -> isCloseParen t = false).
  { intros t Hin. destruct (isCloseParen t) eqn:Et; [|reflexivity].
    destruct (isCloseParen_inv t Et) as [Hk Hv].
    rewrite (paren_in_formula s t (ch ")") Hin Hk Hv) in Hc. discriminate. }
  rewrite E, parenBalance_none.
  - destruct errs as [|e errs]; [reflexivity|]. exfalso.
    inversion H as [|? ? (t & Hin & [[Ht _]|(_ & (t' & Hin' & Ht') & _)]) _]; subst.
    + rewrite (Hclose t Hin) in Ht. discriminate.
    + rewrite (Hopen t' Hin') in Ht'. discriminate.
  - apply Forall_forall. intros t Hin. split; [now apply Hopen|now apply Hclose].
Qed.

Lemma detect_no_parenthesis_no_error_witness :
  includesChar (js "Foo + [a].[b] <= 1") (ch "(") = false
  /\ detectFormulaErrors (fun s => s) (VString (js "Foo + [a].[b] <= 1")) = [].
Proof.
  split; [reflexivity|].
  apply (detect_no_parenthesis_no_error (fun s => s) (js "Foo + [a].[b] <= 1")); reflexivity.
Defined.

(** ** X9 *)

Lemma has_In errs e : In e errs -> has (map err_position errs) (err_position e) = true.
Proof.
  intros H. unfold has. apply existsb_exists. exists (err_position e).
  split; [now apply in_map|apply Z.eqb_refl].
Qed.

Lemma mark_In tokens errs t :
  In t tokens ->
  (has (map err_position errs) (start t)
   || has (map err_position errs) (end_ t - 1))%bool = true ->
  In (setType t ERROR) (markErrorTokens tokens errs).
Proof.
  intros Hin Hh. unfold markErrorTokens. apply in_map_iff. exists t.
  split; [|exact Hin]. cbv zeta. now rewrite Hh.
Qed.

Lemma mapFrom_In {A B} (f : A -> nat -> B) l x :
  In x l -> forall i, exists k, In (f x k) (mapFrom f i l).
Proof.
  induction l as [|y l IH]; intros Hin i; [contradiction|].
  destruct Hin as [->|Hin].
  - exists i. now left.
  - destruct (IH Hin (S i)) as [k Hk]. exists k. now right.
Qed.

Lemma classified_In U tokens t :
  In t tokens ->
  exists t', In t' (classifyTokens U tokens) /\ start t' = start t /\ end_ t' = end_ t.
Proof.
  intros Hin. destruct (mapFrom_In (classifyToken U tokens) tokens t Hin 0) as [k Hk].
  exists (classifyToken U tokens t k). split; [exact Hk|].
  destruct (classifyToken_frame U tokens t k) as (H1 & H2 & _). now split.
Qed.

Lemma last_token (tokens : list Token) :
  tokens <> [] -> exists t, last (map Some tokens) None = Some t /\ In t tokens.
Proof.
  induction tokens as [|a l IH]; intros H; [contradiction|].
  destruct l as [|b l].
  - exists a. split; [reflexivity|now left].
  - destruct IH as (t & Ht & Hin); [discriminate|].
    exists t. split; [exact Ht|now right].
Qed.

Lemma last_token_end c s :
  exists t, In t (tokenizeFormula (VString (c :: s)))
            /\ end_ t = Z.of_nat (length (c :: s)).
Proof.
  destruct (tokenizeFormula_chain (c :: s)) as [ff Hch].
  destruct (tokenizeFormula (VString (c :: s))) as [|a l] eqn:E.
  - exfalso. inversion Hch.
  - destruct (last_token (a :: l)) as (t & Ht & Hin); [discriminate|].
    exists t. split; [exact Hin|].
    destruct (Chain_last _ _ _ _ _ _ _ Hch Ht) as [_ He]. now symmetry.
Qed.

(** X9: every error the detector reports is shown by the highlighter:
    marking the classified tokens with the errors turns into an error
    token a token that starts at the error's position or ends right
    after it.  For the unmatched opening parentheses this is the last
    token of the formula, wherever the parentheses were opened. *)
Theorem detect_errors_are_marked (U : jsstring -> jsstring) (s : jsstring) (e : FormulaError) :
  let errs := detectFormulaErrors U (VString s) in
  In e errs ->
  exists t, In t (markErrorTokens (classifyTokens U (tokenizeFormula (VString s))) errs)
            /\ type t = ERROR
            /\ (start t = err_position e \/ (end_ t - 1)%Z = err_position e)
            /\ (e = unmatchedOpening s (parenBalance (tokenizeFormula (VString s))) ->
                end_ t = Z.of_nat (length s)).
Proof.
  intros errs Hin.
  assert (Hmark : forall t0,
             In t0 (tokenizeFormula (VString s)) ->
             start t0 = err_position e \/ (end_ t0 - 1)%Z = err_position e ->
             exists t, In t (markErrorTokens (classifyTokens U (tokenizeFormula (VString s))) errs)
                       /\ type t = ERROR
                       /\ (start t = err_position e \/ (end_ t - 1)%Z = err_position e)
                       /\ end_ t = end_ t0).
  { intros t0 Hin0 Hpos.
    destruct (classified_In U _ t0 Hin0) as (t1 & Hin1 & Hs & He).
    exists (setType t1 ERROR). split; [|split; [reflexivity|]].
    - apply mark_In; [exact Hin1|]. rewrite Hs, He.
      pose proof (has_In errs e Hin) as Hh.
      destruct Hpos as [-> | ->]; rewrite Hh; [reflexivity|apply orb_true_r].
    - cbn [setType start end_]. rewrite Hs, He. now split. }
  destruct s as [|c s]; [contradiction|].
  destruct (detect_shape U (c :: s)) as (_ & errs' & E & H). cbv zeta in E, H.
  destruct (last_token_end c s) as (tl & Hinl & Hendl).
  unfold errs in Hin. rewrite E in Hin. apply in_app_or in Hin. destruct Hin as [Hin'|Hin'].
  - rewrite Forall_forall in H. destruct (H e Hin') as (t0 & Hin0 & Ht0).
    assert (Hpos : start t0 = err_position e)
      by (destruct Ht0 as [[_ ->]|(_ & _ & _ & _ & ->)]; reflexivity).
    destruct (Hmark t0 Hin0 (or_introl Hpos)) as (t & H1 & H2 & H3 & _).
    destruct (Z.eq_dec (err_position e) (Z.of_nat (length (c :: s)) - 1)) as [Hlast|Hlast].
    + (* the position is also that of the last code unit *)
      destruct (Hmark tl Hinl) as (t' & H1' & H2' & H3' & H4'); [right; lia|].
      exists t'. repeat split; try assumption. intros _. congruence.
    + exists t. repeat split; try assumption.
      intros ->. now elim Hlast.
  - destruct (0 <? parenBalance (tokenizeFormula (VString (c :: s))))%Z; [|contradiction].
    destruct Hin' as [<-|[]].
    destruct (Hmark tl Hinl) as (t' & H1' & H2' & H3' & H4');
      [right; unfold unmatchedOpening; cbn [err_position]; lia|].
    exists t'. repeat split; try assumption. intros _. congruence.
Qed.

Lemma detect_errors_are_marked_witness :
  let s := js "Foo((a)" in
  let e := mkError 6 (js "1 unmatched opening parenthesis") syntax in
  In e (detectFormulaErrors (fun x => x) (VString s))
  /\ exists t, In t (markErrorTokens
                       (classifyTokens (fun x => x) (tokenizeFormula (VString s)))
                       (detectFormulaErrors (fun x => x) (VString s)))
               /\ type t = ERROR
               /\ (start t = err_position e \/ (end_ t - 1)%Z = err_position e)
               /\ (e = unmatchedOpening s (parenBalance (tokenizeFormula (VString s))) ->
                   end_ t = Z.of_nat (length s)).
Proof.
  intros s e.
  assert (H : In e (detectFormulaErrors (fun x => x) (VString s)))
    by (vm_compute; tauto).
  split; [exact H|].
  exact (detect_errors_are_marked (fun x => x) s e H).
Defined.

(** ** X10 *)




(** ** X11 *)

Lemma has_app a b p : has (a ++ b) p = (has a p || has b p)%bool.
Proof. unfold has. apply existsb_app. Qed.

(** X11: marking with two lists of errors, one after the other, is
    marking with both at once; marking with no error changes nothing. *)
Theorem mark_compose (tokens : list Token) (errs1 errs2 : list FormulaError) :
  markErrorTokens (markErrorTokens tokens errs1) errs2
  = markErrorTokens tokens (errs1 ++ errs2)
  /\ markErrorTokens tokens [] = tokens.
Proof.
  unfold markErrorTokens. cbv zeta. split.
  - rewrite map_map, map_app. apply map_ext. intros t.
    rewrite !has_app.
    assert (Hs : forall k, start (setType t k) = start t) by reflexivity.
    assert (He : forall k, end_ (setType t k) = end_ t) by reflexivity.
    destruct (has (map err_position errs1) (start t)) eqn:E1,
             (has (map err_position errs1) (end_ t - 1)) eqn:E2;
      cbn [orb]; rewrite ?Hs, ?He;
      destruct (has (map err_position errs2) (start t)),
               (has (map err_position errs2) (end_ t - 1));
      cbn [orb]; reflexivity.
  - induction tokens as [|t tokens IH]; [reflexivity|]. simpl in *. now rewrite IH.
Qed.

(** ** X12 *)

Lemma mark_values tokens errs :
  map value (markErrorTokens tokens errs) = map value tokens.
Proof.
  unfold markErrorTokens. cbv zeta. rewrite map_map. apply map_ext. intros t.
  now destruct (has _ _ || has _ _)%bool.
Qed.

Lemma isAscii_concat l : isAscii (concat l) = true -> Forall (fun v => isAscii v = true) l.
Proof.
  unfold isAscii. induction l as [|v l IH]; intros H; [constructor|].
  simpl in H. rewrite forallb_app in H. apply andb_prop in H. destruct H as [Hv Hl].
  constructor; [exact Hv|now apply IH].
Qed.

Lemma Forall2_caseRel_concat a b :
  Forall2 (Forall2 caseRel) a b -> Forall2 caseRel (concat a) (concat b).
Proof.
  induction 1 as [|x y a b Hxy _ IH]; [constructor|]. simpl. now apply Forall2_app.
Qed.

Lemma classify_values U tokens l :
  Forall (fun t => isAscii (value t) = true) l ->
  forall i, Forall2 (Forall2 caseRel) (map value l)
                    (map value (mapFrom (classifyToken U tokens) i l)).
Proof.
  induction 1 as [|t l Ht _ IH]; intros i; [constructor|].
  cbn [map mapFrom]. constructor; [|apply IH].
  assert (Hup : toUpperCase U (value t) = asciiToUpperCase (value t))
    by (unfold toUpperCase; now rewrite Ht).
  destruct (classifyToken_cases U tokens t i)
    as [-> | (_ & [(-> & _) | [(-> & _) | [-> | ->]]])];
    cbn [setType setTypeValue value]; rewrite ?Hup;
    first [apply Forall2_caseRel_refl | apply Forall2_caseRel_upper].
Qed.

(** X12: the highlighter keeps the text.  For a formula of ASCII code
    units without [[] the HTML is the rendering of tokens whose values,
    one after the other, are the formula up to the upper-casing of
    letters (function names and constants are written in upper case),
    with or without the marking of errors. *)
Theorem highlight_keeps_text (U : jsstring -> jsstring) (s : jsstring) (showErrors : bool) :
  isAscii s = true ->
  includesChar s (ch "[") = false ->
  exists tokens,
    highlightFormula U (VString s) showErrors = renderTokens tokens
    /\ Forall2 caseRel s (concat (map value tokens)).
Proof.
  intros Ha Hno.
  pose proof (tokens_spell_formula s Hno) as Hrt.
  assert (Hvals : Forall (fun t => isAscii (value t) = true) (tokenizeFormula (VString s))).
  { rewrite <- Hrt in Ha. apply isAscii_concat in Ha.
    rewrite Forall_map in Ha. exact Ha. }
  pose proof (classify_values U (tokenizeFormula (VString s)) _ Hvals 0) as Hc.
  apply Forall2_caseRel_concat in Hc. rewrite Hrt in Hc.
  unfold highlightFormula. cbv zeta.
  destruct showErrors;
    [destruct (0 <? length (detectFormulaErrors U (VString s)))|];
    eexists; (split; [reflexivity|]); rewrite ?mark_values; exact Hc.
Qed.

Lemma highlight_keeps_text_witness :
  isAscii (js "if(a, true, Foo(1)") = true
  /\ exists tokens,
       highlightFormula (fun x => x) (VString (js "if(a, true, Foo(1)")) true
       = renderTokens tokens
       /\ Forall2 caseRel (js "if(a, true, Foo(1)") (concat (map value tokens)).
Proof.
  split; [reflexivity|].
  apply (highlight_keeps_text (fun x => x) (js "if(a, true, Foo(1)") true); reflexivity.
Defined.

(** ** The pretty-printer, whatever the formula *)

Lemma prettify_string s out :
  prettifySalesforceFormula (VString s) = VString out ->
  (s = [] /\ out = []) \/ (s <> [] /\ out = prettifyString s).
Proof.
  destruct s as [|c s]; cbn [prettifySalesforceFormula usable]; intros H; inversion H.
  - now left.
  - right. split; [discriminate|reflexivity].
Qed.

Lemma stage2_collapsed x : exists y, stage2 x = trim (replaceAll (reHSpaces (js " ")) y).
Proof. unfold stage2. cbv zeta. eexists. reflexivity. Qed.

(** ** X13 *)

(** X13: the pretty-printed formula neither starts nor ends with white
    space, whatever the formula. *)
Theorem prettify_no_outer_space (s out : jsstring) :
  prettifySalesforceFormula (VString s) = VString out ->
  out = []
  \/ ((exists c m, out = c :: m /\ isSpace c = false)
      /\ (exists body z, out = body ++ [z] /\ isSpace z = false)).
Proof.
  intros H. destruct (prettify_string s out H) as [[_ ->]|[_ ->]]; [now left|].
  rewrite prettify_stages.
  destruct (stage2_collapsed (capsList capsWords (stage1 (trim s)))) as [y ->].
  destruct (trim_first (replaceAll (reHSpaces (js " ")) y)) as [E|Hf]; [now left|].
  destruct (trim_last (replaceAll (reHSpaces (js " ")) y)) as [E|Hl]; [now left|].
  right. now split.
Qed.

Lemma prettify_no_outer_space_witness :
  prettifySalesforceFormula (VString (js "  if ( a=1 ,b )  ")) = VString (js "IF (a = 1, b)")
  /\ (js "IF (a = 1, b)" = []
      \/ ((exists c m, js "IF (a = 1, b)" = c :: m /\ isSpace c = false)
          /\ (exists body z, js "IF (a = 1, b)" = body ++ [z] /\ isSpace z = false))).
Proof.
  assert (H : prettifySalesforceFormula (VString (js "  if ( a=1 ,b )  "))
              = VString (js "IF (a = 1, b)")) by (vm_compute; reflexivity).
  split; [exact H|].
  exact (prettify_no_outer_space (js "  if ( a=1 ,b )  ") (js "IF (a = 1, b)") H).
Defined.

(** ** X14 *)

Lemma adjFree_solid p c l : p c = false -> adjFree p (c :: l) = adjFree p l.
Proof.
  intros H. destruct l as [|d l]; [reflexivity|].
  change (adjFree p (c :: d :: l)) with (negb (p c && p d) && adjFree p (d :: l))%bool.
  now rewrite H.
Qed.

Lemma adjFree_gap p h c l : p c = false -> adjFree p (h :: c :: l) = adjFree p l.
Proof.
  intros H.
  change (adjFree p (h :: c :: l)) with (negb (p h && p c) && adjFree p (c :: l))%bool.
  now rewrite H, andb_false_r, (adjFree_solid p c l H).
Qed.

Lemma collapse_single items tail :
  Forall itemOk items ->
  forall prev,
    let z := renderItems (mapGaps (fst collapsePass) prev items) (collapseGap tail) in
    forallb (fun c => negb (N.eqb c 9)) z = true /\ adjFree isHSpace z = true.
Proof.
  induction 1 as [|[g c] r [Hg Hc] Hr IH]; intros prev; cbv zeta.
  - cbn [mapGaps renderItems]. now destruct tail.
  - cbn [mapGaps renderItems]. simpl in Hc.
    destruct (IH (Some c)) as [IH1 IH2]. cbv zeta in IH1, IH2.
    change (fst collapsePass prev c g) with (collapseGap g).
    assert (Hc9 : negb (N.eqb c 9) = true).
    { unfold isHSpace in Hc. apply orb_false_elim in Hc. now rewrite (proj2 Hc). }
    destruct g as [|h g]; cbn [collapseGap app js map list_ascii_of_string forallb].
    + rewrite Hc9, IH1, (adjFree_solid isHSpace c _ Hc). now split.
    + rewrite Hc9, IH1, (adjFree_gap isHSpace _ c _ Hc). now split.
Qed.

(** X14: the pretty-printed formula holds no tab and no two spaces in a
    row, whatever the formula. *)
Theorem prettify_single_spaces (s out : jsstring) :
  prettifySalesforceFormula (VString s) = VString out ->
  forallb (fun c => negb (N.eqb c 9)) out = true /\ adjFree isHSpace out = true.
Proof.
  intros H. destruct (prettify_string s out H) as [[_ ->]|[_ ->]]; [now split|].
  rewrite prettify_stages.
  destruct (stage2_collapsed (capsList capsWords (stage1 (trim s)))) as [y ->].
  rewrite <- (parse_render y), (RA_collapse _ (parse_ok y)).
  destruct (parse_ok y) as [Hi Ht].
  pose proof (collapse_single (fst (parse y)) (snd (parse y)) Hi None) as [H1 H2].
  cbv zeta in H1, H2.
  change (renderItems (mapGaps (fst collapsePass) None (fst (parse y)))
            (collapseGap (snd (parse y))))
    with (render (mapRep collapsePass (parse y))) in H1, H2.
  destruct (trim_segment (render (mapRep collapsePass (parse y)))) as (a & b & E).
  rewrite E in H1, H2. rewrite !forallb_app in H1.
  apply andb_prop in H1. destruct H1 as [_ H1]. apply andb_prop in H1. destruct H1 as [H1 _].
  split; [exact H1|].
  apply adjFree_suffix in H2. now apply adjFree_prefix in H2.
Qed.

Lemma prettify_single_spaces_witness :
  prettifySalesforceFormula (VString (js "a   +  b")) = VString (js "a + b")
  /\ forallb (fun c => negb (N.eqb c 9)) (js "a + b") = true
  /\ adjFree isHSpace (js "a + b") = true.
Proof.
  assert (H : prettifySalesforceFormula (VString (js "a   +  b")) = VString (js "a + b"))
    by (vm_compute; reflexivity).
  split; [exact H|].
  exact (prettify_single_spaces (js "a   +  b") (js "a + b") H).
Defined.

(** ** X15 *)

Lemma dropWhile_solid p c (l : jsstring) : p c = false -> dropWhile p (c :: l) = c :: l.
Proof. intros H. simpl. now rewrite H. Qed.

Lemma trim_trim s : trim (trim s) = trim s.
Proof.
  destruct (trim_first s) as [E|(c & m & E & Hc)]; [now rewrite E|].
  destruct (trim_last s) as [E'|(body & z & E' & Hz)]; [now rewrite E'|].
  unfold trim at 1. rewrite E, (dropWhile_solid isSpace c m Hc), <- E, E'.
  rewrite rev_app_distr. cbn [rev app]. rewrite (dropWhile_solid isSpace z _ Hz).
  change (z :: rev body) with ([z] ++ rev body). rewrite rev_app_distr, rev_involutive.
  reflexivity.
Qed.

Lemma prettify_of_blank s : trim s = [] -> prettifyString s = [].
Proof. intros E. rewrite prettify_stages, E. vm_compute. reflexivity. Qed.

(** X15: white space at the two ends of the formula makes no
    difference to the pretty-printer, and a formula of white space only
    is pretty-printed to the empty string. *)
Theorem prettify_ignores_outer_space (s : jsstring) :
  prettifySalesforceFormula (VString (trim s)) = prettifySalesforceFormula (VString s)
  /\ (forallb isSpace s = true -> prettifySalesforceFormula (VString s) = VString []).
Proof.
  assert (Hblank : trim s = [] -> prettifySalesforceFormula (VString s) = VString []).
  { intros E. destruct s as [|c s]; [reflexivity|].
    cbn [prettifySalesforceFormula usable]. now rewrite (prettify_of_blank _ E). }
  split.
  - destruct (trim s) as [|c m] eqn:E.
    + now rewrite (Hblank eq_refl).
    + destruct s as [|c' s']; [discriminate|].
      cbn [prettifySalesforceFormula usable]. f_equal.
      unfold prettifyString. now rewrite <- E, trim_trim.
  - intros Hall. apply Hblank. unfold trim.
    assert (Hd : dropWhile isSpace s = []).
    { clear Hblank. induction s as [|c s IH]; [reflexivity|]. simpl in *.
      apply andb_prop in Hall. destruct Hall as [-> Hs]. now apply IH. }
    now rewrite Hd.
Qed.

Lemma prettify_ignores_outer_space_witness :
  forallb isSpace (js "   ") = true
  /\ prettifySalesforceFormula (VString (js "   ")) = VString [].
Proof.
  split; [reflexivity|].
  exact (proj2 (prettify_ignores_outer_space (js "   ")) eq_refl).
Defined.

(** ** X16 *)

Ltac bool_facts H :=
  repeat match type of H with
  | (_ || _)%bool = true => apply orb_prop in H; destruct H as [H|H]
  | (_ && _)%bool = true =>
      let H2 := fresh H in apply andb_prop in H; destruct H as [H H2];
      try (apply N.leb_le in H2)
  | N.leb _ _ = true => apply N.leb_le in H
  | N.eqb _ _ = true => apply N.eqb_eq in H
  | inRange _ _ _ = true => unfold inRange in H
  end.

Lemma space_not_word c : isSpace c = true -> isIdentPart c = false.
Proof.
  intros H. destruct (isIdentPart c) eqn:E; [exfalso|reflexivity].
  unfold isIdentPart, isLower, isUpper, isDigit in E. unfold isSpace in H.
  bool_facts E; bool_facts H; lia.
Qed.

Lemma words_spaces b :
  Forall (fun c => isSpace c = true) b -> forall cur, words cur b = flushList cur.
Proof.
  induction 1 as [|c b Hc _ IH]; intros cur; [reflexivity|].
  cbn [words]. rewrite (space_not_word c Hc), (IH []). simpl. apply app_nil_r.
Qed.

Lemma words_app_spaces m b :
  Forall (fun c => isSpace c = true) b -> forall cur, words cur (m ++ b) = words cur m.
Proof.
  intros Hb. induction m as [|c m IH]; intros cur.
  - simpl. now apply words_spaces.
  - cbn [app words]. destruct (isIdentPart c); now rewrite IH.
Qed.

Lemma words_dropWhile z : words [] (dropWhile isSpace z) = words [] z.
Proof.
  induction z as [|c z IH]; [reflexivity|]. simpl.
  destruct (isSpace c) eqn:E; [|reflexivity].
  now rewrite IH, (space_not_word c E).
Qed.

Lemma words_trim z : words [] (trim z) = words [] z.
Proof.
  rewrite <- (words_dropWhile z).
  assert (E : dropWhile isSpace z
              = trim z ++ rev (takeWhile isSpace (rev (dropWhile isSpace z)))).
  { unfold trim. rewrite <- rev_app_distr, <- takeWhile_dropWhile. now rewrite rev_involutive. }
  rewrite E at 1. symmetry. apply words_app_spaces.
  apply Forall_rev. apply takeWhile_all.
Qed.

Lemma paren_open_solid c : eqc "(" c = true -> isHSpace c = false.
Proof. intros H. apply N.eqb_eq in H. now subst. Qed.

Lemma paren_close_solid c : eqc ")" c = true -> isHSpace c = false.
Proof. intros H. apply N.eqb_eq in H. now subst. Qed.

Lemma paren_open_word c : eqc "(" c = true -> isIdentPart c = false.
Proof. intros H. apply N.eqb_eq in H. now subst. Qed.

Lemma paren_close_word c : eqc ")" c = true -> isIdentPart c = false.
Proof. intros H. apply N.eqb_eq in H. now subst. Qed.

(** The last stage keeps the words of any string. *)
Lemma stage2_words B : words [] (stage2 B) = words [] B.
Proof.
  unfold stage2. cbv zeta. rewrite words_trim.
  rewrite <- (parse_render B) at 1.
  assert (P1 : passOk (aroundPass (eqc "(") (js " ") [])) by (now apply passOk_around).
  assert (P2 : passOk (aroundPass (eqc ")") [] (js " "))) by (now apply passOk_around).
  pose proof (parse_ok B) as R0.
  pose proof (mapRep_ok _ _ P1 R0) as R1.
  pose proof (mapRep_ok _ _ P2 R1) as R2.
  rewrite (RA_around (eqc "(") (spaced " (") (js " ") [] (parse B) paren_open_solid);
    [|intros c H; apply N.eqb_eq in H; now subst|exact R0].
  rewrite (RA_around (eqc ")") (spaced ") ") [] (js " ") _ paren_close_solid);
    [|intros c H; apply N.eqb_eq in H; now subst|exact R1].
  rewrite (RA_collapse _ R2).
  rewrite (words_mapRep _ _ wordSafe_collapse passOk_collapse R2).
  rewrite (words_mapRep _ _ (wordSafe_around _ _ _ paren_close_word) P2 R1).
  rewrite (words_mapRep _ _ (wordSafe_around _ _ _ paren_open_word) P1 R0).
  now rewrite parse_render.
Qed.

Lemma settled_keyword L u k :
  Forall (fun w => tableWord w = true) L ->
  In k L ->
  asciiToUpperCase (fold_left (fun x w => wordFix w x) L u) = k ->
  fold_left (fun x w => wordFix w x) L u = k.
Proof.
  intros HL Hin Hup.
  pose proof (fold_wordFix_settled L HL u k Hin) as H.
  unfold wordFix in H at 1. rewrite Hup, jseq_refl in H.
  rewrite Forall_forall in HL. rewrite (table_upper k (HL k Hin)) in H. now symmetry.
Qed.

(** X16: in the pretty-printed formula every word (a run of letters,
    digits and underscores that stands alone) that is, letter case
    apart, a function name or a constant of the tables the pretty-printer
    uses, is in upper case, whatever the formula. *)
Theorem prettify_keywords_upper (s out w : jsstring) :
  prettifySalesforceFormula (VString s) = VString out ->
  In w (words [] out) ->
  In (asciiToUpperCase w) capsWords ->
  w = asciiToUpperCase w.
Proof.
  intros H Hw Hk. destruct (prettify_string s out H) as [[_ ->]|[_ ->]]; [contradiction|].
  rewrite prettify_stages, stage2_words in Hw.
  rewrite (proj2 (capsList_words capsWords capsWords_table _)) in Hw.
  apply in_map_iff in Hw. destruct Hw as (u & <- & _).
  exact (settled_keyword capsWords u _ capsWords_table Hk eq_refl).
Qed.

Lemma prettify_keywords_upper_witness :
  prettifySalesforceFormula (VString (js "if(isblank(x),null,y)"))
  = VString (js "IF (ISBLANK (x) , NULL, y)")
  /\ js "ISBLANK" = asciiToUpperCase (js "ISBLANK").
Proof.
  assert (H : prettifySalesforceFormula (VString (js "if(isblank(x),null,y)"))
              = VString (js "IF (ISBLANK (x) , NULL, y)")) by (vm_compute; reflexivity).
  split; [exact H|].
  apply (prettify_keywords_upper (js "if(isblank(x),null,y)")
           (js "IF (ISBLANK (x) , NULL, y)") (js "ISBLANK") H).
  - vm_compute. tauto.
  - vm_compute. tauto.
Defined.

(** ** X17 *)

Lemma filter_render items tail :
  Forall itemOk items -> gapOk tail ->
  filter (fun c => negb (isHSpace c)) (renderItems items tail) = map snd items.
Proof.
  assert (Hg : forall g, gapOk g -> filter (fun c => negb (isHSpace c)) g = []).
  { induction g as [|h g IH]; intros H; [reflexivity|].
    apply gapOk_cons in H. destruct H as [Hh H]. simpl. rewrite Hh. now apply IH. }
  intros Hi Ht. induction Hi as [|[g c] r [H1 H2] _ IH]; simpl in *.
  - now apply Hg.
  - rewrite filter_app, (Hg g H1). simpl. now rewrite H2, IH.
Qed.

Lemma applyPasses_chars Ps : forall r, chars (applyPasses Ps r) = chars r.
Proof.
  unfold applyPasses, chars. induction Ps as [|P Ps IH]; intros r; [reflexivity|].
  cbn [fold_left]. rewrite IH. unfold mapRep. cbn [fst]. apply mapGaps_chars.
Qed.

Lemma itemRel_caseRel items items' :
  Forall2 itemRel items items' -> Forall2 caseRel (map snd items) (map snd items').
Proof. induction 1 as [|i i' r r' [_ H] _ IH]; simpl; constructor; assumption. Qed.

(** X17: on a formula in which no two of the characters [= < > & |]
    follow each other (spaces and tabs between them not counted) and
    which holds no three underscores in a row, the pretty-printer only
    adds and removes spaces and tabs and turns letters into upper case:
    spaces and tabs apart, the result is the formula without the white
    space at its two ends, code unit by code unit, up to upper-casing. *)
Theorem prettify_only_spacing_and_case (s out : jsstring) :
  plainOperators s = true ->
  prettifySalesforceFormula (VString s) = VString out ->
  Forall2 caseRel (filter (fun c => negb (isHSpace c)) (trim s))
                  (filter (fun c => negb (isHSpace c)) out).
Proof.
  intros Hp H. destruct (prettify_string s out H) as [[-> ->]|[_ ->]]; [constructor|].
  destruct (trim s) as [|c0 m0] eqn:Et.
  { rewrite (prettify_of_blank s Et). constructor. }
  rewrite (prettify_stages s).
  assert (G0 : Good (parse (trim s))) by (apply Good_parse_trim; [exact Hp|congruence]).
  rewrite <- Et. rewrite <- (parse_render (trim s)) at 2.
  rewrite (stage1_rep _ G0).
  assert (G1 : Good (applyPasses passes1 (parse (trim s))))
    by (apply Good_applyPasses; [apply passOk_all1|apply wordSafe_all1|exact G0]).
  set (r1 := applyPasses passes1 (parse (trim s))) in *.
  pose proof (capsList_caseRel capsWords (render r1) capsWords_table) as Hcase.
  destruct (render_caseRel (fst r1) (snd r1) _ (proj1 (proj1 G1)) (proj2 (proj1 G1)) Hcase)
    as (items1 & Hcaps & Hrel).
  assert (G1' : Good (items1, snd r1)).
  { apply (Good_rel (fst r1)); [exact Hrel|]. now destruct r1. }
  change (renderItems items1 (snd r1)) with (render (items1, snd r1)) in Hcaps.
  rewrite Hcaps, (stage2_rep _ G1').
  assert (G2 : Good (applyPasses passes2 (items1, snd r1)))
    by (apply Good_applyPasses; [apply passOk_all2|apply wordSafe_all2|exact G1']).
  destruct (Good_repOk _ G2) as [Hi2 Ht2].
  unfold render at 1. rewrite (filter_render _ _ Hi2 Ht2).
  change (map snd (fst (applyPasses passes2 (items1, snd r1))))
    with (chars (applyPasses passes2 (items1, snd r1))).
  rewrite applyPasses_chars.
  change (chars (items1, snd r1)) with (map snd items1).
  apply itemRel_caseRel in Hrel.
  change (map snd (fst r1)) with (chars r1) in Hrel.
  unfold r1 in Hrel. rewrite applyPasses_chars in Hrel.
  unfold parse in Hrel. now rewrite chars_parseFrom in Hrel.
Qed.

Lemma prettify_only_spacing_and_case_witness :
  plainOperators (js " if(a=1 ,b) ") = true
  /\ Forall2 caseRel (filter (fun c => negb (isHSpace c)) (trim (js " if(a=1 ,b) ")))
                     (filter (fun c => negb (isHSpace c)) (js "IF (a = 1, b)")).
Proof.
  split; [reflexivity|].
  apply (prettify_only_spacing_and_case (js " if(a=1 ,b) ") (js "IF (a = 1, b)"));
    vm_compute; reflexivity.
Defined.

(** ** X18 *)

Lemma scanToken_line rest :
  scanToken (ch "/" :: ch "/" :: rest) 0 [] (ch "/")
  = let body := takeWhile (fun c => negb (N.eqb c 10) && negb (N.eqb c 13))%bool rest in
    (2 + length body, pushSpan [] COMMENT (js "//" ++ body) (2 + length body)).
Proof. reflexivity. Qed.

Lemma scanToken_block rest :
  scanToken (ch "/" :: ch "*" :: rest) 0 [] (ch "/")
  = let body := scanBlockComment rest in
    if 2 + length body <? length (ch "/" :: ch "*" :: rest)
    then (2 + length body + 2,
          pushSpan [] COMMENT (js "/*" ++ body ++ js "*/") (2 + length body + 2))
    else (2 + length body, pushSpan [] COMMENT (js "/*" ++ body) (2 + length body)).
Proof. reflexivity. Qed.

Lemma scanBlockComment_plain body :
  forallb (fun c => negb (N.eqb c (ch "*"))) body = true ->
  scanBlockComment (body ++ js "*/") = body /\ scanBlockComment body = body.
Proof.
  induction body as [|c body IH]; intros H; [now split|].
  cbn [forallb] in H. apply andb_prop in H. destruct H as [Hc Hb].
  apply negb_true_iff in Hc. destruct (IH Hb) as [IH1 IH2].
  cbn [app scanBlockComment]. rewrite Hc. cbn [andb]. now rewrite IH1, IH2.
Qed.

(** X18: a formula that is one comment is one comment token: [//] up to
    the end of the formula when no line break follows; [/*], a body
    without [*] and the closing [*/]; and [/*] up to the end of the
    formula when the comment is not closed. *)
Theorem tokenize_comment (body : jsstring) :
  (forallb (fun c => negb (N.eqb c 10) && negb (N.eqb c 13))%bool body = true ->
   tokenizeFormula (VString (js "//" ++ body))
   = [mkToken COMMENT (js "//" ++ body) 0 (Z.of_nat (length body) + 2)])
  /\ (forallb (fun c => negb (N.eqb c (ch "*"))) body = true ->
      tokenizeFormula (VString (js "/*" ++ body ++ js "*/"))
      = [mkToken COMMENT (js "/*" ++ body ++ js "*/") 0 (Z.of_nat (length body) + 4)]
      /\ tokenizeFormula (VString (js "/*" ++ body))
         = [mkToken COMMENT (js "/*" ++ body) 0 (Z.of_nat (length body) + 2)]).
Proof.
  split; [intros H|intros H; split].
  - apply (tokenize_single (ch "/") (ch "/" :: body) (2 + length body)).
    + rewrite scanToken_line. cbv zeta. rewrite (takeWhile_whole _ body H).
      unfold pushSpan. cbn [app]. f_equal. f_equal. f_equal.
      * rewrite !length_app. change (length (js "//")) with 2.
        change (length (js "/*")) with 2. change (length (js "*/")) with 2. lia.
      * lia.
    + cbn [length]. lia.
  - apply (tokenize_single (ch "/") (ch "*" :: body ++ js "*/") (2 + length body + 2)).
    + rewrite scanToken_block. cbv zeta.
      rewrite (proj1 (scanBlockComment_plain body H)).
      assert (E : (2 + length body <? length (ch "/" :: ch "*" :: body ++ js "*/")) = true)
        by (apply Nat.ltb_lt; cbn [length]; rewrite length_app; simpl; lia).
      rewrite E. unfold pushSpan. cbn [app]. f_equal. f_equal. f_equal.
      * rewrite !length_app. change (length (js "//")) with 2.
        change (length (js "/*")) with 2. change (length (js "*/")) with 2. lia.
      * lia.
    + cbn [length]. rewrite length_app. simpl. lia.
  - apply (tokenize_single (ch "/") (ch "*" :: body) (2 + length body)).
    + rewrite scanToken_block. cbv zeta.
      rewrite (proj2 (scanBlockComment_plain body H)).
      assert (E : (2 + length body <? length (ch "/" :: ch "*" :: body)) = false)
        by (apply Nat.ltb_ge; cbn [length]; lia).
      rewrite E. unfold pushSpan. cbn [app]. f_equal. f_equal. f_equal.
      * rewrite !length_app. change (length (js "//")) with 2.
        change (length (js "/*")) with 2. change (length (js "*/")) with 2. lia.
      * lia.
    + cbn [length]. lia.
Qed.

Lemma tokenize_comment_witness :
  forallb (fun c => negb (N.eqb c (ch "*"))) (js " a <= [b] ") = true
  /\ tokenizeFormula (VString (js "/* a <= [b] "))
     = [mkToken COMMENT (js "/* a <= [b] ") 0 12].
Proof.
  split; [reflexivity|].
  exact (proj2 (proj2 (tokenize_comment (js " a <= [b] ")) eq_refl)).
Defined.

(** ** X19 *)

Lemma mapFrom_In_inv {A B} (f : A -> nat -> B) l y :
  forall i, In y (mapFrom f i l) -> exists x k, In x l /\ y = f x k.
Proof.
  induction l as [|a l IH]; intros i H; [contradiction|].
  cbn [mapFrom] in H. destruct H as [<-|H].
  - exists a, i. split; [now left|reflexivity].
  - destruct (IH (S i) H) as (x & k & Hx & ->). exists x, k. split; [now right|reflexivity].
Qed.

Lemma classify_flagged U tokens t k :
  type t = IDENTIFIER ->
  includes allFunctions (toUpperCase U (value t)) = false ->
  startsUpper (value t) = true ->
  let t' := classifyToken U tokens t k in
  type t' = IDENTIFIER \/ type t' = CONSTANT \/ type t' = FORMULA_FIELD.
Proof.
  intros Hk Hf Hu. unfold classifyToken. rewrite Hk, Hf. cbn [kind_eqb].
  destruct (includes SF_KEYWORDS.constants (toUpperCase U (value t))); [right; now left|].
  destruct (startsLower (value t)) eqn:El; [now elim (upper_not_lower _ Hu El)|].
  cbn [andb].
  destruct (includesChar (value t) (ch "_") && looksLikeFieldName (value t))%bool;
    [right; now right|now left].
Qed.

(** X19: the classifier and the detector do not contradict each other: a
    token at which an invalid function is reported is never one that the
    classifier made a function or a custom function; it is a constant, a
    formula field or still an identifier. *)
Theorem flagged_token_is_no_function
    (U : jsstring -> jsstring) (s : jsstring) (e : FormulaError) (t' : Token) :
  In e (detectFormulaErrors U (VString s)) ->
  err_type e = function ->
  In t' (classifyTokens U (tokenizeFormula (VString s))) ->
  start t' = err_position e ->
  type t' = IDENTIFIER \/ type t' = CONSTANT \/ type t' = FORMULA_FIELD.
Proof.
  intros Hin Hty Hin' Hs.
  destruct (detect_shape U s) as (_ & errs & E & H). cbv zeta in E, H.
  rewrite E in Hin. apply in_app_or in Hin. destruct Hin as [Hin|Hin].
  - rewrite Forall_forall in H. destruct (H e Hin) as (t0 & Hin0 & [[_ ->]|(Hk & _ & Hf & Hu & ->)]);
      [discriminate|].
    unfold classifyTokens, mapIndexed in Hin'.
    destruct (mapFrom_In_inv _ _ _ 0 Hin') as (t1 & k & Hin1 & ->).
    destruct (classifyToken_frame U (tokenizeFormula (VString s)) t1 k) as (Hs1 & _).
    assert (t1 = t0) by (apply (tokenize_start_unique s); try assumption; simpl in Hs; congruence).
    subst t1. now apply classify_flagged.
  - destruct (0 <? parenBalance (tokenizeFormula (VString s)))%Z; [|contradiction].
    destruct Hin as [<-|[]]. discriminate.
Qed.

Lemma flagged_token_is_no_function_witness :
  let s := js "Null(1)" in
  let e := mkError 0 (js "Invalid function: Null") function in
  let t' := mkToken CONSTANT (js "NULL") 0 4 in
  In e (detectFormulaErrors (fun x => x) (VString s))
  /\ In t' (classifyTokens (fun x => x) (tokenizeFormula (VString s)))
  /\ (type t' = IDENTIFIER \/ type t' = CONSTANT \/ type t' = FORMULA_FIELD).
Proof.
  intros s e t'.
  assert (H1 : In e (detectFormulaErrors (fun x => x) (VString s))) by (vm_compute; tauto).
  assert (H2 : In t' (classifyTokens (fun x => x) (tokenizeFormula (VString s))))
    by (vm_compute; tauto).
  split; [exact H1|]. split; [exact H2|].
  exact (flagged_token_is_no_function (fun x => x) s e t' H1 eq_refl H2 eq_refl).
Defined.
